(** * symetrix-control: the Composer Control protocol engine

    A shallow embedding of [src/symetrix.js] (class [Symetrix]) and of the
    command table of [api.js], followed by the properties of the frame
    assembler, the push/response disambiguator, the response parser and the
    command sequencer.

    Conventions of the embedding:
    - a JavaScript string is a list of code units ([list ascii]); the frame
      terminator ['\r'] is [CR];
    - a regular expression is a term of [Regex], the fragment of the
      JavaScript syntax that the command table uses, run by a backtracking
      matcher with the JavaScript priorities (leftmost alternative first,
      greedy quantifiers);
    - the instance fields of [Symetrix] are the fields of [State]; a handler
      is a function from a state to the next state and the list of the
      effects it performed, in order ([sock.write], [setTimeout], callback
      invocations, emitted events, [console.error]);
    - the run-time events that drive the object ([reqToSend] calls, socket
      data, timer expiry, changes of [sock.readyState]) are the constructors
      of [Event];
    - the numbers of the conversions of [helpers.js] are the binary64
      floating-point numbers of the kernel, which are those of JavaScript. *)

From Stdlib Require Import ZArith Ascii String DecimalString Lia.
From Stdlib Require Floats Uint63.
From stdpp Require Import base list strings gmap.

Local Open Scope Z_scope.

(** ** JavaScript strings and values *)

Abbreviation str := (list ascii).

Definition lit (s : string) : str := list_ascii_of_string s.

(** The frame terminator, ['\r']. *)
Definition CR : ascii := ascii_of_nat 13.

(** [data.slice(-1) === '\r'] *)
Definition endsWithCR (data : str) : bool :=
  match last data with
  | Some c => Ascii.eqb c CR
  | None => false
  end.

(** Truthiness of a string that may be [undefined]: [undefined] and ['']
    are falsy. *)
Definition truthy (o : option str) : bool :=
  match o with
  | Some (_ :: _) => true
  | _ => false
  end.

(** [s.indexOf(c)], [-1] when [c] does not occur. *)
Fixpoint indexOf (c : ascii) (s : str) : Z :=
  match s with
  | [] => -1
  | x :: s' =>
      if Ascii.eqb x c then 0
      else let i := indexOf c s' in if i <? 0 then -1 else i + 1
  end.

(** [s.substring(i)] for an integer [i]: negative arguments count as 0. *)
Definition substring (s : str) (i : Z) : str := drop (Z.to_nat i) s.

(** Numbers: the integer-valued numbers (inside the safe range, where
    arithmetic on doubles is exact) and [NaN]. *)
Inductive JsNum :=
| Int (z : Z)
| NaN.

Definition isDigit (c : ascii) : bool :=
  let n := nat_of_ascii c in (48 <=? n)%nat && (n <=? 57)%nat.

Fixpoint digitsValue (acc : Z) (s : str) : option Z :=
  match s with
  | [] => Some acc
  | c :: s' =>
      if isDigit c then digitsValue (10 * acc + (Z.of_nat (nat_of_ascii c) - 48)) s'
      else None
  end.

(** [Number(x)] for a capture [x] of the parser: [undefined] is [NaN], a
    string of decimal digits is its value (the only strings the parser
    converts are captures of [\d{5}]). *)
Definition Number (x : option str) : JsNum :=
  match x with
  | None => NaN
  | Some s => match digitsValue 0 s with Some z => Int z | None => NaN end
  end.

(** [String(z)] for a safe integer [z] (below 2^53 in absolute value):
    its decimal digits. Larger numbers, which JavaScript rounds to the
    nearest double and prints in exponent form from 10^21 on, are outside
    the model; a theorem that prints a number of its own bounds it
    ([isSafeInteger], [printable]). *)
Definition decimal (z : Z) : str := lit (NilZero.string_of_int (Z.to_int z)).

(** ** Regular expressions *)

Inductive CharSet :=
| CLit (c : ascii)   (* a literal character *)
| CDigit             (* \d *)
| CSpace             (* \s *)
| CDot.              (* .  (no s flag: every character but a line terminator) *)

Definition isSpace (c : ascii) : bool :=
  let n := nat_of_ascii c in
  ((9 <=? n)%nat && (n <=? 13)%nat) || (n =? 32)%nat || (n =? 160)%nat.

Definition inSet (cs : CharSet) (c : ascii) : bool :=
  match cs with
  | CLit x => Ascii.eqb c x
  | CDigit => isDigit c
  | CSpace => isSpace c
  | CDot => negb ((nat_of_ascii c =? 10)%nat || (nat_of_ascii c =? 13)%nat)
  end.

Inductive Regex :=
| REps                                          (* the empty pattern *)
| RChar (cs : CharSet)                          (* one character of a set *)
| RSeq (r1 r2 : Regex)                          (* r1r2 *)
| RAlt (r1 r2 : Regex)                          (* r1|r2 *)
| RGroup (name : string) (r : Regex)            (* (?<name>r) *)
| RRep (cs : CharSet) (lo : nat) (hi : option nat).
                                                (* cs{lo,hi}, greedy; [hi = None]: no upper bound *)

(** Literal text. *)
Fixpoint RStr (s : str) : Regex :=
  match s with
  | [] => REps
  | [c] => RChar (CLit c)
  | c :: s' => RSeq (RChar (CLit c)) (RStr s')
  end.

(** [m.groups]: the named captures of a match; a group that did not take
    part in the match (JavaScript: [undefined]) has no entry. *)
Abbreviation Groups := (gmap string str).

Definition canRepeat (hi : option nat) : bool :=
  match hi with
  | Some 0%nat => false
  | _ => true
  end.

(** The greedy quantifier over a character set: take one more character
    when possible and come back to the shorter repetition when the rest of
    the pattern fails. *)
Fixpoint matchRep {A : Type} (cs : CharSet) (lo : nat) (hi : option nat) (s : str)
    (k : str -> option A) : option A :=
  let stop := match lo with O => k s | S _ => None end in
  match s with
  | c :: s' =>
      if inSet cs c && canRepeat hi then
        match matchRep cs (Nat.pred lo) (Nat.pred <$> hi) s' k with
        | Some x => Some x
        | None => stop
        end
      else stop
  | [] => stop
  end.

(** The backtracking matcher: [matchK r s g k] matches [r] at the start of
    [s] and passes the rest of the input and the captures to the
    continuation [k]; a [None] from the continuation makes it try the next
    way to match [r]. *)
Fixpoint matchK {A : Type} (r : Regex) (s : str) (g : Groups)
    (k : str -> Groups -> option A) : option A :=
  match r with
  | REps => k s g
  | RChar cs =>
      match s with
      | c :: s' => if inSet cs c then k s' g else None
      | [] => None
      end
  | RSeq r1 r2 => matchK r1 s g (fun s' g' => matchK r2 s' g' k)
  | RAlt r1 r2 =>
      match matchK r1 s g k with
      | Some x => Some x
      | None => matchK r2 s g k
      end
  | RGroup name r' =>
      matchK r' s g
        (fun s' g' => k s' (<[name := take (length s - length s') s]> g'))
  | RRep cs lo hi => matchRep cs lo hi s (fun s' => k s' g)
  end.

(** A match of [r] that starts at the first character of [s]: the rest of
    the input after the match, and the captures. *)
Definition matchPrefix (r : Regex) (s : str) : option (str * Groups) :=
  matchK r s ∅ (fun s' g => Some (s', g)).

Fixpoint groupNames (r : Regex) : list string :=
  match r with
  | REps | RChar _ | RRep _ _ _ => []
  | RSeq r1 r2 | RAlt r1 r2 => groupNames r1 ++ groupNames r2
  | RGroup name r' => name :: groupNames r'
  end.

(** The match object of [exec]/[match]: [groups] is [undefined] ([None])
    for a pattern without named groups. *)
Record Match := {
  index : nat;
  matched : str;
  groups : option Groups
}.

Definition mkMatch (r : Regex) (i : nat) (s rest : str) (g : Groups) : Match :=
  {| index := i;
     matched := take (length s - length rest) s;
     groups := match groupNames r with [] => None | _ => Some g end |}.

(** The first match at or after the start of [s], [i] being the offset of
    [s] in the whole input. *)
Fixpoint execFrom (r : Regex) (i : nat) (s : str) : option Match :=
  match matchPrefix r s with
  | Some (rest, g) => Some (mkMatch r i s rest g)
  | None =>
      match s with
      | [] => None
      | _ :: s' => execFrom r (S i) s'
      end
  end.

(** [s.match(r)] for a pattern without the g flag. *)
Definition exec (r : Regex) (s : str) : option Match := execFrom r 0 s.

(** [s.search(r)]: the offset of the first match, [-1] when there is none. *)
Definition search (r : Regex) (s : str) : Z :=
  match exec r s with
  | Some m => Z.of_nat (index m)
  | None => -1
  end.

(** [[...s.matchAll(r)]] for a pattern with the g flag, as the captures of
    the successive matches. The input is visited left to right; [skip] is
    the number of characters still covered by the previous match (the
    search resumes at [lastIndex], which an empty match advances by one). *)
Fixpoint matchAllFrom (r : Regex) (skip : nat) (s : str) : list Groups :=
  match skip with
  | S n =>
      match s with
      | [] => []
      | _ :: s' => matchAllFrom r n s'
      end
  | O =>
      match matchPrefix r s with
      | Some (rest, g) =>
          g :: match s with
               | [] => []
               | _ :: s' => matchAllFrom r (length s - length rest - 1) s'
               end
      | None =>
          match s with
          | [] => []
          | _ :: s' => matchAllFrom r 0 s'
          end
      end
  end.

Definition matchAll (r : Regex) (s : str) : list Groups := matchAllFrom r 0 s.

(** ** The response parser *)

(** One record of a push or of a block reply, [{ id, value }]. *)
Record PushRecord := {
  id : JsNum;
  value : JsNum
}.

(** What a completion handler receives as [data]. *)
Inductive Value :=
| VString (s : str)
| VBool (b : bool)
| VRecords (l : list PushRecord)
| VUndefined.

(** What a handler does to the outside, in the order it does it. *)
Inductive Effect :=
| SockWrite (command : str)                          (* this.sock.write(command) *)
| SetTimeout (handle : nat) (ms : Z)                 (* setTimeout(.., ms), returning handle *)
| CallCb (f : nat) (err : option str) (data : Value) (* cb(err, data); err = None is null *)
| EmitPush (l : list PushRecord)                     (* this.emit('push', l) *)
| EmitReadyToSend                                    (* this.emit('readyToSend') *)
| ConsoleError (msg : str)                           (* console.error(msg, ..) *)
| Uncaught (e : str).                                (* an exception leaves the handler *)

(** The result of a synchronous piece of code: a value, or an exception. *)
Inductive Completion (A : Type) :=
| Return (a : A)
| Throw (e : str).
Arguments Return {A} a.
Arguments Throw {A} e.

(** [/#(?<id>\d{5})=(?<ret>\d{5})/g] *)
Definition multiRegex : Regex :=
  RSeq (RChar (CLit "#"))
    (RSeq (RGroup "id" (RRep CDigit 5 (Some 5%nat)))
       (RSeq (RChar (CLit "="))
          (RGroup "ret" (RRep CDigit 5 (Some 5%nat))))).

Definition _parseMultiple (data : str) : list PushRecord :=
  map (fun g : Groups => {| id := Number (g !! "id"%string); value := Number (g !! "ret"%string) |})
      (matchAll multiRegex data).

Definition TypeError : str := lit "TypeError".

(** [_parseSingle(data, regex)]; [regex = None] is [undefined], which
    [match] turns into the empty pattern. Reading [m.groups.ret] throws a
    [TypeError] when [m] is [null] (no match) or [m.groups] is [undefined]
    (no named group in the pattern). *)
Definition _parseSingle (data : str) (regex : option Regex) : Completion Value * list Effect :=
  match exec (default REps regex) data with
  | None => (Throw TypeError, [])
  | Some m =>
      match groups m with
      | None => (Throw TypeError, [])
      | Some g =>
          if truthy (g !! "ret"%string) then (Return (VString (default [] (g !! "ret"%string))), [])
          else if truthy (g !! "ack"%string) then (Return (VBool true), [])
          else if truthy (g !! "nak"%string) then (Return (VBool false), [])
          else (Return VUndefined, [ConsoleError (lit "Unkown response format")])
      end
  end.

(** The body of [if (respData) { .. }] up to the computation of
    [response]: the GSB3 special case drops the first line, then the
    multi-record form; everything else is the single-record form. *)
Definition parseResponse (respData : str) (regex : option Regex) : Completion Value * list Effect :=
  if decide (take 4 respData = lit "GSB3") then
    (Return (VRecords (_parseMultiple (substring respData (indexOf CR respData + 1)))), [])
  else _parseSingle respData regex.

(** ** The push/response disambiguator *)

(** Lines 104-121 of the data handler: [(pushData, respData)], [None]
    for a variable left [undefined]. *)
Definition disambiguate (nextResponse : option Regex) (data : str) : option str * option str :=
  let split := match nextResponse with
               | Some r => search r data
               | None => -1
               end in
  if split <? 0 then (Some data, None)
  else if split =? 0 then (None, Some data)
  else (Some (take (Z.to_nat split) data), Some (drop (Z.to_nat split) data)).

(** The segments that the handler goes on to process: [if (pushData)] and
    [if (respData)] skip an [undefined] and an empty string alike. *)
Definition segment (o : option str) : option str :=
  if truthy o then o else None.

Definition segments (nextResponse : option Regex) (data : str) : option str * option str :=
  let '(pushData, respData) := disambiguate nextResponse data in
  (segment pushData, segment respData).

(** ** The command sequencer *)

(** [sock.readyState] *)
Inductive ReadyState := Opening | Open | ReadOnly | WriteOnly | Closed.

Definition writable (rs : ReadyState) : bool :=
  match rs with
  | Open | WriteOnly => true
  | _ => false
  end.

(** An entry of [_sendBuffer]; [cb] is a function, which [reqToSend]
    checks before it queues, and is known by its identity. *)
Record Pending := {
  command : str;
  regex : Regex;
  cb : nat
}.

(** The fields of a [Symetrix] object that the engine reads and writes,
    with the armed timers of the run time and the supply of timer handles. *)
Record State := {
  _recvBuffer : str;
  _sendBuffer : list Pending;
  _readyToSend : bool;
  _nextResponse : option Regex;
  _nextCb : option nat;
  _noResponse : option nat;        (* the handle of the last setTimeout *)
  timers : list nat;               (* the handles of the timers that are armed *)
  nextHandle : nat;                (* the handle that the next setTimeout returns *)
  readyState : ReadyState
}.

Definition _noResponseTimeout : Z := 2000.

(** The state that the constructor leaves. *)
Definition init : State :=
  {| _recvBuffer := []; _sendBuffer := []; _readyToSend := true;
     _nextResponse := None; _nextCb := None; _noResponse := None;
     timers := []; nextHandle := 0; readyState := Opening |}.

Definition set_recvBuffer (b : str) (st : State) : State :=
  {| _recvBuffer := b; _sendBuffer := _sendBuffer st; _readyToSend := _readyToSend st;
     _nextResponse := _nextResponse st; _nextCb := _nextCb st; _noResponse := _noResponse st;
     timers := timers st; nextHandle := nextHandle st; readyState := readyState st |}.

Definition set_sendBuffer (q : list Pending) (st : State) : State :=
  {| _recvBuffer := _recvBuffer st; _sendBuffer := q; _readyToSend := _readyToSend st;
     _nextResponse := _nextResponse st; _nextCb := _nextCb st; _noResponse := _noResponse st;
     timers := timers st; nextHandle := nextHandle st; readyState := readyState st |}.

Definition set_readyToSend (b : bool) (st : State) : State :=
  {| _recvBuffer := _recvBuffer st; _sendBuffer := _sendBuffer st; _readyToSend := b;
     _nextResponse := _nextResponse st; _nextCb := _nextCb st; _noResponse := _noResponse st;
     timers := timers st; nextHandle := nextHandle st; readyState := readyState st |}.

Definition set_next (r : option Regex) (f : option nat) (st : State) : State :=
  {| _recvBuffer := _recvBuffer st; _sendBuffer := _sendBuffer st; _readyToSend := _readyToSend st;
     _nextResponse := r; _nextCb := f; _noResponse := _noResponse st;
     timers := timers st; nextHandle := nextHandle st; readyState := readyState st |}.

Definition set_timers (l : list nat) (st : State) : State :=
  {| _recvBuffer := _recvBuffer st; _sendBuffer := _sendBuffer st; _readyToSend := _readyToSend st;
     _nextResponse := _nextResponse st; _nextCb := _nextCb st; _noResponse := _noResponse st;
     timers := l; nextHandle := nextHandle st; readyState := readyState st |}.

Definition set_readyState (rs : ReadyState) (st : State) : State :=
  {| _recvBuffer := _recvBuffer st; _sendBuffer := _sendBuffer st; _readyToSend := _readyToSend st;
     _nextResponse := _nextResponse st; _nextCb := _nextCb st; _noResponse := _noResponse st;
     timers := timers st; nextHandle := nextHandle st; readyState := rs |}.

(** [this._noResponse = setTimeout(.., this._noResponseTimeout)] *)
Definition armTimer (st : State) : State :=
  {| _recvBuffer := _recvBuffer st; _sendBuffer := _sendBuffer st; _readyToSend := _readyToSend st;
     _nextResponse := _nextResponse st; _nextCb := _nextCb st; _noResponse := Some (nextHandle st);
     timers := nextHandle st :: timers st; nextHandle := S (nextHandle st);
     readyState := readyState st |}.

(** [clearTimeout(this._noResponse)] *)
Definition clearTimer (st : State) : State :=
  match _noResponse st with
  | Some h => set_timers (filter (fun t => t <> h) (timers st)) st
  | None => st
  end.

Definition notReady : str := lit "Could not send to Symetrix. Socket not ready.".

(** [_send(command, regex, cb)] (with [_debug] off) *)
Definition _send (command : str) (regex : Regex) (cb : nat) (st : State) : State * list Effect :=
  if writable (readyState st) then
    (armTimer (set_next (Some regex) (Some cb) (set_readyToSend false st)),
     [SockWrite command; SetTimeout (nextHandle st) _noResponseTimeout])
  else (st, [ConsoleError notReady]).

(** The listener of ['readyToSend'] that the constructor installs. *)
Definition onReadyToSend (st : State) : State * list Effect :=
  let st := set_next None None st in
  match _sendBuffer st with
  | p :: q => _send (command p) (regex p) (cb p) (set_sendBuffer q st)
  | [] => (set_readyToSend true st, [])
  end.

(** [this.emit('readyToSend')]: the listeners run before [emit] returns. *)
Definition emitReadyToSend (st : State) : State * list Effect :=
  let '(st', effs) := onReadyToSend st in (st', EmitReadyToSend :: effs).

(** The [cb] argument of [reqToSend]: a function, known by its identity,
    or a value of another type. *)
Inductive Callback :=
| Fn (f : nat)
| NotFn.

(** How a promise stands when the call that made it returns. *)
Inductive Promise :=
| Fulfilled
| Rejected (e : str)
| Unsettled.

Definition notAFunction : str := lit "Callback is not a function".

(** The body of [reqToSend], as a synchronous block. *)
Definition reqToSendBody (command : str) (regex : Regex) (cb : Callback) (st : State)
    : Completion unit * State * list Effect :=
  match cb with
  | NotFn => (Throw notAFunction, st, [])
  | Fn f =>
      if _readyToSend st then
        let '(st', effs) := _send command regex f st in (Return tt, st', effs)
      else
        (Return tt,
         set_sendBuffer (_sendBuffer st ++ [{| command := command; regex := regex; cb := f |}]) st,
         [])
  end.

(** An [async] function without [await]: the call runs the body and
    returns a promise, fulfilled when the body returns and rejected with
    the exception when the body throws; the call itself never throws. *)
Definition async {A : Type} (c : Completion A) : Completion Promise :=
  match c with
  | Return _ => Return Fulfilled
  | Throw e => Return (Rejected e)
  end.

(** [async reqToSend(command, regex, cb)] *)
Definition reqToSend (command : str) (regex : Regex) (cb : Callback) (st : State)
    : Completion Promise * State * list Effect :=
  let '(c, st', effs) := reqToSendBody command regex cb st in (async c, st', effs).

(** The handler of socket data from the point where a frame is complete
    (line 103 on), [data] being the frame. *)
Definition onFrame (data : str) (st : State) : State * list Effect :=
  let '(pushData, respData) := segments (_nextResponse st) data in
  let pushed := match pushData with
                | Some p => [EmitPush (_parseMultiple p)]
                | None => []
                end in
  match respData with
  | Some respData =>
      let st1 := clearTimer st in
      match parseResponse respData (_nextResponse st) with
      | (Throw e, effs) => (st1, pushed ++ effs ++ [Uncaught e])
      | (Return response, effs) =>
          match _nextCb st1 with
          | None => (st1, pushed ++ effs ++ [Uncaught TypeError])
          | Some f =>
              let '(st2, effs2) := emitReadyToSend st1 in
              (st2, pushed ++ effs ++ CallCb f None response :: effs2)
          end
      end
  | None => (st, pushed)
  end.

(** [this.sock.on('data', (data) => ..)] *)
Definition onData (data : str) (st : State) : State * list Effect :=
  if endsWithCR data then
    onFrame (_recvBuffer st ++ data) (set_recvBuffer [] st)
  else (set_recvBuffer (_recvBuffer st ++ data) st, []).

(** The callback of the no-response timer; a timer that is not armed
    does not fire. *)
Definition onTimeout (h : nat) (st : State) : State * list Effect :=
  if decide (h ∈ timers st) then
    emitReadyToSend (set_timers (filter (fun t => t <> h) (timers st)) st)
  else (st, []).

(** What can happen to the object. The run time is single-threaded: the
    events are handled one at a time and each handler runs to completion.
    A submission carries a pattern, as every operation of the class passes
    one; [reqToSend] itself checks the callback only. *)
Inductive Event :=
| EReqToSend (command : str) (regex : Regex) (cb : Callback)
| EData (chunk : str)
| ETimeout (handle : nat)
| ESock (rs : ReadyState).

Definition step (st : State) (ev : Event) : State * list Effect :=
  match ev with
  | EReqToSend command regex cb =>
      let '(_, st', effs) := reqToSend command regex cb st in (st', effs)
  | EData chunk => onData chunk st
  | ETimeout h => onTimeout h st
  | ESock rs => (set_readyState rs st, [])
  end.

Fixpoint run (st : State) (evs : list Event) : State * list Effect :=
  match evs with
  | [] => (st, [])
  | ev :: evs' =>
      let '(st1, effs1) := step st ev in
      let '(st2, effs2) := run st1 evs' in
      (st2, effs1 ++ effs2)
  end.

(** ** The command table and the command builder ([api.js]) *)

(** The arguments that a caller can pass to the numeric operations:
    numbers, booleans and [undefined]. *)
Inductive JsValue :=
| JNumber (n : JsNum)
| JBoolean (b : bool)
| JUndefined.

Definition toNumber (v : JsValue) : JsNum :=
  match v with
  | JNumber n => n
  | JBoolean b => Int (if b then 1 else 0)
  | JUndefined => NaN
  end.

Definition toBoolean (v : JsValue) : bool :=
  match v with
  | JNumber (Int z) => negb (z =? 0)
  | JNumber NaN => false
  | JBoolean b => b
  | JUndefined => false
  end.

Definition toString (v : JsValue) : str :=
  match v with
  | JNumber (Int z) => decimal z
  | JNumber NaN => lit "NaN"
  | JBoolean b => lit (if b then "true" else "false")
  | JUndefined => lit "undefined"
  end.

(** [x >= 0] *)
Definition geZero (v : JsValue) : bool :=
  match toNumber v with
  | Int z => 0 <=? z
  | NaN => false
  end.

(** [Math.abs(x)] *)
Definition mathAbs (v : JsValue) : JsNum :=
  match toNumber v with
  | Int z => Int (Z.abs z)
  | NaN => NaN
  end.

Fixpoint startsWith (pat s : str) : bool :=
  match pat, s with
  | [], _ => true
  | p :: pat', c :: s' => Ascii.eqb p c && startsWith pat' s'
  | _ :: _, [] => false
  end.

(** [s.replace(pat, rep)] for a string [pat]: the first occurrence only
    ([rep] holds no [$], as the decimal and boolean replacements here). *)
Fixpoint replace (pat rep s : str) : str :=
  if startsWith pat s then rep ++ drop (length pat) s
  else match s with
       | [] => []
       | c :: s' => c :: replace pat rep s'
       end.

Fixpoint trimStart (s : str) : str :=
  match s with
  | c :: s' => if isSpace c then trimStart s' else s
  | [] => []
  end.

(** [s.trim()] *)
Definition trim (s : str) : str := reverse (trimStart (reverse (trimStart s))).

Record CommandSpec := {
  base : str;
  args : list (string * string);   (* argument name, placeholder; in the order of the source *)
  respRegex : Regex
}.

(** [/(?<ack>ACK)|(?<nak>NAK)\s/] *)
Definition ackNak : Regex :=
  RAlt (RGroup "ack" (RStr (lit "ACK")))
       (RSeq (RGroup "nak" (RStr (lit "NAK"))) (RChar CSpace)).

Definition digits (lo hi : nat) : Regex := RRep CDigit lo (Some hi).

Definition commands : list (string * CommandSpec) :=
  [ ("controlSet"%string,
     {| base := lit "CS {CID} {VAL}";
        args := [("id", "CID"); ("value", "VAL")]%string;
        respRegex := ackNak |});
    ("changeController"%string,
     {| base := lit "CC {CID} {DECINC} {VAL}";
        args := [("id", "CID"); ("decinc", "DECINC"); ("value", "VAL")]%string;
        respRegex := ackNak |});
    ("controlGet"%string,
     {| base := lit "GS2 {CID}";
        args := [("id", "CID")]%string;
        (* /\d{1,5} (?<ret>\d{1,5})/ *)
        respRegex := RSeq (digits 1 5) (RSeq (RChar (CLit " ")) (RGroup "ret" (digits 1 5))) |});
    ("controlGetBlock"%string,
     {| base := lit "GSB3 {CID} {SIZE}";
        args := [("id", "CID"); ("size", "SIZE")]%string;
        (* /GSB3 \d{5} \d{5}/ *)
        respRegex := RSeq (RStr (lit "GSB3 "))
                       (RSeq (digits 5 5) (RSeq (RChar (CLit " ")) (digits 5 5))) |});
    ("getPreset"%string,
     {| base := lit "GPR";
        args := [];
        (* /(?<ret>\d+)/ *)
        respRegex := RGroup "ret" (RRep CDigit 1 None) |});
    ("loadPreset"%string,
     {| base := lit "LP {VAL}";
        args := [("value", "VAL")]%string;
        respRegex := ackNak |});
    ("setSystemString"%string,
     {| base := lit "SSYSS {STR}={VAL}";
        args := [("string", "STR"); ("value", "VAL")]%string;
        respRegex := ackNak |});
    ("getSystemString"%string,
     {| base := lit "GSYSS {STR}";
        args := [("string", "STR")]%string;
        (* GSYSS, a space, the group ret over any number of [.], then \s *)
        respRegex := RSeq (RStr (lit "GSYSS "))
                       (RSeq (RGroup "ret" (RRep CDot 0 None)) (RChar CSpace)) |});
    ("flashUnit"%string,
     {| base := lit "FU"; args := []; respRegex := ackNak |});
    ("pushState"%string,
     {| base := lit "PU{EN} {LOW} {HIGH}";
        args := [("enable", "EN"); ("low", "LOW"); ("high", "HIGH")]%string;
        respRegex := ackNak |});
    ("getPushEnabled"%string,
     {| base := lit "GPU {LOW} {HIGH}";
        args := [("low", "LOW"); ("high", "HIGH")]%string;
        (* /(?<ack>ACK)|(?<ret>\d{5})]/ *)
        respRegex := RAlt (RGroup "ack" (RStr (lit "ACK")))
                          (RSeq (RGroup "ret" (digits 5 5)) (RChar (CLit "]"))) |});
    ("pushRefresh"%string,
     {| base := lit "PUR {LOW} {HIGH}";
        args := [("low", "LOW"); ("high", "HIGH")]%string;
        respRegex := ackNak |});
    ("pushClear"%string,
     {| base := lit "PUC {LOW} {HIGH}";
        args := [("low", "LOW"); ("high", "HIGH")]%string;
        respRegex := ackNak |});
    ("setPushInterval"%string,
     {| base := lit "PUI {VAL}";
        args := [("value", "VAL")]%string;
        respRegex := ackNak |});
    ("setPushThreshold"%string,
     {| base := lit "PUT {PARAM_THRESH} {METER_THRESH}";
        args := [("other", "PARAM_THRESH"); ("meter", "METER_THRESH")]%string;
        respRegex := ackNak |});
    ("reboot"%string,
     {| base := lit "R!";
        args := [];
        (* the group ack over any number of [.] *)
        respRegex := RGroup "ack" (RRep CDot 0 None) |}) ].

(** [commands[name]] for a key of the table. The source tests
    [name in commands], which also holds of the names that an object
    inherits ([toString], [constructor], ..); the operations of the class
    pass keys of the table only, and the other names are outside the
    model: the theorems on the builder are stated for keys of the table. *)
Fixpoint lookupCommand (name : string) (l : list (string * CommandSpec)) : option CommandSpec :=
  match l with
  | [] => None
  | (n, c) :: l' => if String.eqb n name then Some c else lookupCommand name l'
  end.

(** The object that a caller passes as [inArgs]. *)
Abbreviation InArgs := (gmap string JsValue).

(** One turn of the loop over [commands[command].args]: the value that
    stands for the argument, the update of [inArgs] in the [decinc] case,
    and the replacement of the placeholder in [cmd]. *)
Definition substArg (acc : str * InArgs) (a : string * string) : str * InArgs :=
  let '(cmd, inArgs) := acc in
  let '(arg, placeholder) := a in
  let v := default JUndefined (inArgs !! "value"%string) in
  let '(val, inArgs') :=
    if String.eqb arg "decinc" then
      (lit (if geZero v then "1" else "0"), <["value"%string := JNumber (mathAbs v)]> inArgs)
    else if String.eqb arg "enable" then
      (lit (if toBoolean (default JUndefined (inArgs !! "enable"%string)) then "E" else "D"), inArgs)
    else
      (match default JUndefined (inArgs !! arg) with
       | JUndefined => []
       | x => toString x
       end, inArgs) in
  (replace (lit "{" ++ lit placeholder ++ lit "}") val cmd, inArgs').

(** [buildCommandString(command, inArgs)], exported as [getCommand], for
    a name that is a key of the table or that no object has: [None] is
    [undefined]. *)
Definition buildCommandString (command : string) (inArgs : InArgs) : option (str * Regex) :=
  match lookupCommand command commands with
  | Some c =>
      let cmd := fst (foldl substArg (lit "$q " ++ base c, inArgs) (args c)) in
      Some (trim cmd ++ [CR], respRegex c)
  | None => None
  end.

Definition getCommand := buildCommandString.

(** ** The caller-facing operations ([symetrix.js]) *)

Definition validRange (value : JsValue) (low high : Z) : bool :=
  match value with
  | JNumber (Int z) => if (z <? low) || (z >? high) then false else true
  | JNumber NaN => true        (* a number, and both comparisons are false *)
  | _ => false                 (* typeof value !== 'number' *)
  end.

Definition validControlId (id : JsValue) : bool := validRange id 0 10000.

Definition validControlValue (value : JsValue) : bool := validRange value 0 65535.

(** The executor that every operation passes to [new Promise]:
    [if (invalid) reject(Error(msg));] then, with no [return] in between,
    [getCommand] and [this.reqToSend(command, response, cb)], where [cb]
    settles the promise ([p] is its identity). A [getCommand] that returns
    [undefined] makes the destructuring throw, which rejects the promise
    unless it is rejected already. The result is the state of the promise
    when the operation returns. *)
Definition executor (invalid : bool) (msg : str) (name : string) (inArgs : InArgs)
    (p : nat) (st : State) : Promise * State * list Effect :=
  let settled := if invalid then Rejected msg else Unsettled in
  match getCommand name inArgs with
  | None => (if invalid then settled else Rejected TypeError, st, [])
  | Some (command, response) =>
      let '(_, st', effs) := reqToSend command response (Fn p) st in
      (settled, st', effs)
  end.

Definition controlSet (id value : JsValue) :=
  executor (negb (validControlId id) || negb (validControlValue value))
    (lit "controlSet invalid id " ++ toString id ++ lit " or value " ++ toString value)
    "controlSet" (<["id"%string := id]> (<["value"%string := value]> ∅)).

Definition controlChange (id value : JsValue) :=
  executor (negb (validControlId id) || negb (validRange value (-65535) 65535))
    (lit "controlChange invalid id " ++ toString id ++ lit " or value " ++ toString value)
    "changeController" (<["id"%string := id]> (<["value"%string := value]> ∅)).

Definition controlGet (id : JsValue) :=
  executor (negb (validControlId id))
    (lit "controlGet invalid id " ++ toString id)
    "controlGet" (<["id"%string := id]> ∅).

Definition controlGetBlock (id size : JsValue) :=
  executor (negb (validControlId id) || negb (validRange size 1 256))
    (lit "controlGetBlock invalid id " ++ toString id ++ lit " or size " ++ toString size)
    "controlGetBlock" (<["id"%string := id]> (<["size"%string := size]> ∅)).


(** ** Vocabulary of the properties *)

(** A pattern that can match the empty string. *)
Fixpoint nullable (r : Regex) : bool :=
  match r with
  | REps => true
  | RChar _ => false
  | RSeq r1 r2 => nullable r1 && nullable r2
  | RAlt r1 r2 => nullable r1 || nullable r2
  | RGroup _ r' => nullable r'
  | RRep _ lo _ => match lo with O => true | S _ => false end
  end.

(** [P] occurs in [frame] at offset [k]: a match of [P] starts there. *)
Definition occursAt (P : Regex) (frame : str) (k : nat) : Prop :=
  (k <= length frame)%nat /\ is_Some (matchPrefix P (drop k frame)).

(** The first occurrence of [P] in [frame] is at offset [k]. *)
Definition firstAt (P : Regex) (frame : str) (k : nat) : Prop :=
  occursAt P frame k /\ forall j, (j < k)%nat -> ~ occursAt P frame j.

Definition noOccurrence (P : Regex) (frame : str) : Prop :=
  forall k, ~ occursAt P frame k.

(** The command in flight and the commands in the queue, as the
    identities of their completion handlers. *)
Definition inFlight (st : State) : list nat := option_list (_nextCb st).

Definition queued (st : State) : list nat := cb <$> _sendBuffer st.

Definition pending (st : State) : list nat := inFlight st ++ queued st.

(** The handler that an event submits: a [reqToSend] that passes the
    check of its callback. *)
Definition submitted (ev : Event) : list nat :=
  match ev with
  | EReqToSend _ _ (Fn f) => [f]
  | _ => []
  end.

Definition submissions (evs : list Event) : list nat := evs ≫= submitted.

(** The completion handlers invoked by a trace of effects, in order. *)
Definition firedBy (e : Effect) : list nat :=
  match e with
  | CallCb f _ _ => [f]
  | _ => []
  end.

Definition fired (effs : list Effect) : list nat := effs ≫= firedBy.

(** Reading a trace of effects from left to right: a command is
    outstanding from its [sock.write] to the next ['readyToSend'] (its
    completion or its abandonment). The result is [None] when a write
    happens while a command is outstanding, else whether one is
    outstanding at the end. *)
Fixpoint singleFlight (outstanding : bool) (effs : list Effect) : option bool :=
  match effs with
  | [] => Some outstanding
  | SockWrite _ :: effs' => if outstanding then None else singleFlight true effs'
  | EmitReadyToSend :: effs' => singleFlight false effs'
  | _ :: effs' => singleFlight outstanding effs'
  end.

Definition awaiting (st : State) : bool :=
  match _nextCb st with
  | Some _ => true
  | None => false
  end.

(** The timers that a trace arms are all armed for the no-response
    window. *)
Definition armedFor (ms : Z) (e : Effect) : Prop :=
  match e with
  | SetTimeout _ ms' => ms' = ms
  | _ => True
  end.

(** The invariant of the sequencer. *)
Record wf (st : State) : Prop := {
  wf_ready : _readyToSend st = true ->
             _sendBuffer st = [] /\ _nextCb st = None /\ timers st = [];
  wf_slot : is_Some (_nextResponse st) <-> is_Some (_nextCb st);
  wf_timer : timers st = [] \/
             exists h, timers st = [h] /\ _noResponse st = Some h /\ is_Some (_nextCb st)
}.

(** The effects that concern neither the socket nor a completion
    handler. *)
Definition quiet (e : Effect) : Prop :=
  match e with
  | EmitPush _ | Uncaught _ => True
  | ConsoleError msg => msg <> notReady
  | _ => False
  end.

(** The effects by which a command leaves the sequencer: an emission of
    ['readyToSend'] (after a completion, or at the end of the no-response
    window) and the log line of a socket that is not writable. *)
Definition finishes (e : Effect) : nat :=
  match e with
  | EmitReadyToSend => 1
  | ConsoleError msg => if decide (msg = notReady) then 1 else 0
  | _ => 0
  end.

Definition finished (effs : list Effect) : nat := sum_list_with finishes effs.

(** What a piece of the engine does when it takes the object from [st]
    to [st'] with the effects [effs], [new] being the handlers submitted
    meanwhile: the invariant holds again; the handlers that were pending or
    are new are, in this order, those that are finished with ([done]) and
    then those still pending; there is one finished handler for each
    emission of ['readyToSend'] and each refusal of a socket that is not
    writable; the handlers invoked are among the finished ones, in their
    order; no command is written while another is outstanding; and every
    timer is armed for the no-response window. *)
Definition advances (st : State) (new : list nat) (st' : State) (effs : list Effect) : Prop :=
  wf st' /\
  (exists done, pending st ++ new = done ++ pending st' /\
                fired effs `sublist_of` done /\
                length done = finished effs) /\
  singleFlight (awaiting st) effs = Some (awaiting st') /\
  Forall (armedFor _noResponseTimeout) effs.

(** After the no-response window: the head of the queue, if any, is
    written to the socket, else the sequencer is idle. *)
Definition timeoutDispatchesNext (st : State) (h : nat) : Prop :=
  match _sendBuffer st with
  | p :: _ => SockWrite (command p) ∈ (step st (ETimeout h)).2
  | [] => _readyToSend (step st (ETimeout h)).1 = true
  end.

(** A failure is surfaced to the caller of [reqToSend] with handler [f]:
    the call throws, or its promise is rejected, or [f] is invoked with
    an error. *)
Definition surfaced (f : nat) (result : Completion Promise) (effs : list Effect) : Prop :=
  (exists e, result = Throw e) \/
  (exists e, result = Return (Rejected e)) \/
  (exists e d, CallCb f (Some e) d ∈ effs).


(** The value of a string of decimal digits. *)
Definition decimalValue (ds : str) : Z :=
  foldl (fun acc c => 10 * acc + (Z.of_nat (nat_of_ascii c) - 48)) 0 ds.

(** A record on the wire: [#], five digits of identifier, [=], five digits
    of value, and whatever follows the record up to the next one (the
    terminator, usually), which holds no [#]. *)
Definition WireRecord : Type := str * str * str.

Definition fiveDigits (ds : str) : Prop :=
  length ds = 5%nat /\ Forall (fun c => isDigit c = true) ds.

Definition wellFormed (r : WireRecord) : Prop :=
  fiveDigits r.1.1 /\ fiveDigits r.1.2 /\ "#"%char ∉ r.2.

Definition wire (r : WireRecord) : str :=
  lit "#" ++ r.1.1 ++ lit "=" ++ r.1.2 ++ r.2.

Definition wireAll (recs : list WireRecord) : str := recs ≫= wire.

Definition recordOf (r : WireRecord) : PushRecord :=
  {| id := Int (decimalValue r.1.1); value := Int (decimalValue r.1.2) |}.

(** ** Sample inputs *)

(** A sample frame: a push record, then the reply to GS2 that
    the pattern of [controlGet] expects, at offset 13. *)
Definition c1Pattern : Regex :=
  RSeq (digits 1 5) (RSeq (RChar (CLit " ")) (RGroup "ret" (digits 1 5))).

Definition c1Frame : str := lit "#00001=00002" ++ [CR] ++ lit "1000 04096" ++ [CR].


(** Two commands submitted on an open socket, the first in flight and
    the second in the queue. *)
Definition twoSubmitted : list Event :=
  [ ESock Open;
    EReqToSend (lit "$q FU" ++ [CR]) ackNak (Fn 1);
    EReqToSend (lit "$q GS2 1000" ++ [CR]) c1Pattern (Fn 2) ].

(** The same, and the socket closes before the first reply. *)
Definition twoSubmittedThenClosed : list Event := twoSubmitted ++ [ESock Closed].

(** A block reply: the header line and two records. *)
Definition blockHeader : str := lit " 01000 00002".

Definition blockRecords : list WireRecord :=
  [ (lit "01000", lit "04096", [CR]); (lit "01001", lit "65535", [CR]) ].

(** The pattern of [getSystemString] and the state in which its command
    is in flight. *)
Definition gsyssPattern : Regex :=
  RSeq (RStr (lit "GSYSS ")) (RSeq (RGroup "ret" (RRep CDot 0 None)) (RChar CSpace)).

Definition gsyssInFlight : State :=
  (run init [ESock Open; EReqToSend (lit "$q GSYSS 1" ++ [CR]) gsyssPattern (Fn 1)]).1.

(** An idle object on an open socket. *)
Definition openIdle : State := set_readyState Open init.

(** A frame, a push record followed by an acknowledgement, cut in three
    by the network; the second fragment holds a terminator but does not
    end with it. *)
Definition fragments : list str := [ lit "#00001=000"; lit "02" ++ [CR] ++ lit "AC" ].

Definition lastFragment : str := lit "K" ++ [CR].

(** ** The other caller-facing operations ([symetrix.js]) *)

(** A parameter with a default, as in [{ low = 1, high = 10000 } = {}]:
    [undefined] takes the default. *)
Definition orDefault (d : Z) (v : JsValue) : JsValue :=
  match v with
  | JUndefined => JNumber (Int d)
  | _ => v
  end.

(** [typeof v === 'number'] *)
Definition isNumber (v : JsValue) : bool :=
  match v with
  | JNumber _ => true
  | _ => false
  end.

(** [typeof v === 'undefined'] *)
Definition isUndefined (v : JsValue) : bool :=
  match v with
  | JUndefined => true
  | _ => false
  end.

Definition reboot := executor false [] "reboot" ∅.

Definition flashUnit := executor false [] "flashUnit" ∅.

Definition getPreset := executor false [] "getPreset" ∅.


Definition pushState (enable low high : JsValue) :=
  executor (isUndefined enable)
    (lit "pushState enable/disable not set")
    "pushState"
    (<["enable"%string := enable]>
       (<["low"%string := orDefault 1 low]> (<["high"%string := orDefault 10000 high]> ∅))).

Definition getPushEnabled (low high : JsValue) :=
  executor false [] "getPushEnabled"
    (<["low"%string := orDefault 1 low]> (<["high"%string := orDefault 10000 high]> ∅)).

Definition pushRefresh (low high : JsValue) :=
  executor false [] "pushRefresh"
    (<["low"%string := orDefault 1 low]> (<["high"%string := orDefault 10000 high]> ∅)).

Definition pushClear (low high : JsValue) :=
  executor false [] "pushClear"
    (<["low"%string := orDefault 1 low]> (<["high"%string := orDefault 10000 high]> ∅)).

Definition pushInterval (value : JsValue) :=
  executor (negb (validRange value 20 30000))
    (lit "pushInterval invalid interval " ++ toString value)
    "setPushInterval" (<["value"%string := value]> ∅).

(** The message shows [other || meter]. *)
Definition pushThreshold (meter other : JsValue) :=
  executor (negb (isNumber (orDefault 1 meter)) || negb (isNumber (orDefault 1 other)))
    (lit "pushThreshold invalid threshold "
       ++ toString (if toBoolean (orDefault 1 other) then orDefault 1 other else orDefault 1 meter))
    "setPushThreshold"
    (<["meter"%string := orDefault 1 meter]> (<["other"%string := orDefault 1 other]> ∅)).

(** ** Vocabulary of the further properties *)

(** The commands that a trace of effects writes to the socket, in order. *)
Definition writtenBy (e : Effect) : list str :=
  match e with
  | SockWrite c => [c]
  | _ => []
  end.

Definition written (effs : list Effect) : list str := effs ≫= writtenBy.

(** The commands that an event submits with a handler that passes the
    check, with the identity of the handler. *)
Definition submittedCommand (ev : Event) : list (str * nat) :=
  match ev with
  | EReqToSend c _ (Fn f) => [(c, f)]
  | _ => []
  end.

Definition submittedCommands (evs : list Event) : list (str * nat) := evs ≫= submittedCommand.

(** The exceptions that leave a handler. *)
Definition uncaughtBy (e : Effect) : list str :=
  match e with
  | Uncaught x => [x]
  | _ => []
  end.

Definition uncaught (effs : list Effect) : list str := effs ≫= uncaughtBy.

(** The push events of a trace. *)
Definition pushedBy (e : Effect) : list (list PushRecord) :=
  match e with
  | EmitPush l => [l]
  | _ => []
  end.

Definition pushes (effs : list Effect) : list (list PushRecord) := effs ≫= pushedBy.

(** The values that the handlers of a trace receive, with the handler. *)
Definition completionOf (e : Effect) : list (nat * option str * Value) :=
  match e with
  | CallCb f err v => [(f, err, v)]
  | _ => []
  end.

Definition completions (effs : list Effect) : list (nat * option str * Value) :=
  effs ≫= completionOf.

(** A string of one to five decimal digits. *)
Definition upToFiveDigits (ds : str) : Prop :=
  (1 <= length ds <= 5)%nat /\ Forall (fun c => isDigit c = true) ds.

(** The pattern that the table gives to [controlGetBlock]. *)
Definition blockPattern : Regex :=
  RSeq (RStr (lit "GSB3 ")) (RSeq (digits 5 5) (RSeq (RChar (CLit " ")) (digits 5 5))).

(** The pattern that the table gives to [reboot]. *)
Definition rebootPattern : Regex := RGroup "ack" (RRep CDot 0 None).

(** A command in flight on a writable socket with an empty receive
    buffer, its timer armed, and the queue [q] behind it. *)
Definition inFlightState (r : Regex) (f : nat) (q : list Pending) (h nh : nat) (rs : ReadyState)
    : State :=
  {| _recvBuffer := []; _sendBuffer := q; _readyToSend := false;
     _nextResponse := Some r; _nextCb := Some f; _noResponse := Some h;
     timers := [h]; nextHandle := nh; readyState := rs |}.

(** A pattern of the command table. *)
Definition tablePattern (r : Regex) : Prop :=
  exists name spec, lookupCommand name commands = Some spec /\ respRegex spec = r.

(** An event that submits, if it submits, with a pattern of the table. *)
Definition tableEvent (ev : Event) : Prop :=
  match ev with
  | EReqToSend _ r _ => tablePattern r
  | _ => True
  end.

(** An event that is not a change of [sock.readyState]. *)
Definition keepsSocket (ev : Event) : Prop :=
  match ev with
  | ESock _ => False
  | _ => True
  end.

(** The ready flag is down with nothing in flight and no timer armed. *)
Definition stalled (st : State) : Prop :=
  _readyToSend st = false /\ _nextCb st = None /\ _nextResponse st = None /\ timers st = [].

(** Nothing in flight, nothing queued, no timer, and the ready flag up. *)
Definition idle (st : State) : Prop :=
  _readyToSend st = true /\ _sendBuffer st = [] /\ _nextCb st = None /\
  _nextResponse st = None /\ timers st = [].

(** The frame of an acknowledgement ([true]) or of a refusal ([false]). *)
Definition ackFrame (ok : bool) : str := lit (if ok then "ACK" else "NAK") ++ [CR].

(** A record with an identifier and a value between 0 and 99999. *)
Definition inRange (r : PushRecord) : Prop :=
  exists i v, id r = Int i /\ value r = Int v /\ 0 <= i <= 99999 /\ 0 <= v <= 99999.

(** The patterns that the object holds: the one of the slot and those of
    the queue. *)
Definition patternsOf (st : State) : list Regex :=
  option_list (_nextResponse st) ++ (regex <$> _sendBuffer st).

(** The commands of the queue, in order. *)
Definition queuedCommands (st : State) : list str := command <$> _sendBuffer st.

(** The state that the refusal of a queued command leaves: two commands
    submitted, the socket closed, and the no-response window of the first
    elapsed. *)
Definition afterRefusal : State := (step (run init twoSubmittedThenClosed).1 (ETimeout 0)).1.

(** What a handler receives with an acknowledgement or a refusal. *)
Definition ackCompletion (f : nat) (ok : bool) : nat * option str * Value :=
  (f, None, VBool ok).

(** The pattern that the table gives to [getPushEnabled]: ACK, or five
    digits followed by a closing bracket. *)
Definition pushEnabledPattern : Regex :=
  RAlt (RGroup "ack" (RStr (lit "ACK")))
       (RSeq (RGroup "ret" (digits 5 5)) (RChar (CLit "]"))).

(** The pattern that the table gives to [getPreset]. *)
Definition presetPattern : Regex := RGroup "ret" (RRep CDigit 1 None).

(** ** The conversions of [helpers.js]

    A JavaScript number is a binary64 floating-point number, and [+], [-],
    [*], [/], [>] and [===] are the operations of IEEE 754, as the
    primitive floating-point numbers of the kernel have them. *)

Module helpers.

Import PrimFloat SpecFloat FloatOps.

(** The number that an integer literal denotes (exact below 2^53). *)
Definition ofZ (z : Z) : float :=
  if z <? 0 then PrimFloat.opp (PrimFloat.of_uint63 (Uint63.of_Z (- z)))
  else PrimFloat.of_uint63 (Uint63.of_Z z).

(** [Math.round]: the integer closest to [x], the one toward +infinity
    on a tie; [x] itself when it is an integer, an infinity or [NaN]; [-0]
    for [-0.5 <= x < 0]. A finite [x] is [m * 2^e] for its mantissa [m]
    and exponent [e]; when [e < 0] the result is the floor of [x + 1/2],
    computed exactly as the floor of [(2m + 2^-e) / 2^(1-e)]. *)
Definition Math_round (x : float) : float :=
  match Prim2SF x with
  | S754_finite s m e =>
      if 0 <=? e then x
      else
        let n := Z.shiftr (2 * (if s then Z.neg m else Z.pos m) + Z.shiftl 1 (- e)) (- e + 1) in
        if (n =? 0) && s then PrimFloat.opp PrimFloat.zero else ofZ n
  | _ => x
  end.

Local Open Scope float_scope.

(** [Number.EPSILON], 2^-52 *)
Definition EPSILON : float := 0x1p-52.

Definition apiMin : float := 0.
Definition apiMax : float := 65535.

Definition defaultFaderMin : float := -72.
Definition defaultFaderMax : float := 12.

Definition defaultMeterMin : float := -48.
Definition defaultMeterMax : float := 24.

Definition isOffValue : float := 0.
Definition isOnValue : float := 65535.

Definition roundTo1 (val : float) : float := Math_round ((val + EPSILON) * 10) / 10.

Definition genericMap (value inMin inMax outMin outMax : float) : float :=
  outMin + ((value - inMin) * (outMax - outMin)) / (inMax - inMin).

(** A destructured parameter with a default: [None] is a property left
    out (or [undefined]). *)
Definition orElse {A : Type} (d : A) (o : option A) : A :=
  match o with
  | Some a => a
  | None => d
  end.

Definition apiTodB (value : float) (min max : option float) : float :=
  roundTo1 (genericMap value apiMin apiMax
              (orElse defaultFaderMin min) (orElse defaultFaderMax max)).

Definition dBToAPI (value : float) (min max : option float) (relative : option bool) : float :=
  let min := orElse defaultFaderMin min in
  let max := orElse defaultFaderMax max in
  if orElse false relative then
    Math_round (genericMap value (min - max) (max - min) (- apiMax) apiMax)
  else Math_round (genericMap value min max apiMin apiMax).

Definition pctToAPI (value : float) : float :=
  if 0 <? value then Math_round (genericMap value 0 100 apiMin apiMax)
  else Math_round (genericMap value (-100) 100 (- apiMax) apiMax).

Definition apiToMeter (value : float) : float :=
  apiTodB value (Some defaultMeterMin) (Some defaultMeterMax).

Definition apiToFader (value : float) : float := apiTodB value None None.

Definition faderToAPI (value : float) (relative : option bool) : float :=
  dBToAPI value None None relative.

Definition isOn (value : float) : bool := value =? isOnValue.

Definition isOff (value : float) : bool := value =? isOffValue.

Definition selectorToAPI (selected max : float) : float :=
  Math_round (genericMap selected 1 max apiMin apiMax).

Definition apiToSelector (value max : float) : float :=
  Math_round (genericMap value apiMin apiMax 1 max).

(** [d / 10]: the number that a literal with one decimal denotes. *)
Definition tenth (d : Z) : float := ofZ d / 10.

(** [Math.abs(x - y) <= bound] *)
Definition within (bound x y : float) : bool := PrimFloat.abs (x - y) <=? bound.

(** [x === y] *)
Definition same (x y : float) : bool := x =? y.

(** A check of every integer from [lo] on, [p] of them. *)
Fixpoint allRange (P : Z -> bool) (lo : Z) (p : positive) : bool :=
  match p with
  | xH => P lo
  | xO q => allRange P lo q && allRange P (lo + Z.pos q)%Z q
  | xI q => P lo && allRange P (lo + 1)%Z q && allRange P (lo + 1 + Z.pos q)%Z q
  end.

(** To the nearest integer, the one toward +infinity on a tie: the floor
    of [n/d + 1/2]. *)
Definition nearest (n d : Z) : Z := ((2 * n + d) / (2 * d))%Z.

End helpers.

(** ** The domain of the value model *)

(** [Number.isSafeInteger]: the integers below 2^53 in absolute value.
    A JavaScript number holds each of them exactly and prints it in plain
    decimal, as [decimal] does (from 10^21 on a number prints in exponent
    form, and from 2^53 on not every integer is a number). *)
Definition isSafeInteger (z : Z) : Prop := Z.abs z <= 9007199254740991.

(** The values that [toString] prints as JavaScript does: the safe
    integers, [NaN], the booleans and [undefined]. *)
Definition printable (v : JsValue) : Prop :=
  match v with
  | JNumber (Int z) => isSafeInteger z
  | _ => True
  end.

(** ** An object whose constructor did not complete *)



(** ** The claim on the queue, as worded *)


(** A decidable closed proposition, settled by running its decision
    procedure. *)
Ltac decide_by_computation :=
  match goal with
  | |- ?P => apply (bool_decide_unpack P); vm_compute; exact I
  end.

(** ** Facts about the matcher *)

Section Matcher.

Context {A : Type}.

Lemma matchRep_inv cs lo hi s (k : str -> option A) x :
  matchRep cs lo hi s k = Some x ->
  exists s', k s' = Some x /\ (length s' <= length s)%nat /\
             (lo <> 0%nat -> (length s' < length s)%nat).
Proof.
  revert lo hi. induction s as [|c s IH]; intros lo hi; simpl.
  - destruct lo; [|discriminate]. intros H. exists []. split; [done|]. split; [done|lia].
  - destruct (inSet cs c && canRepeat hi).
    + destruct (matchRep cs (Nat.pred lo) (Nat.pred <$> hi) s k) as [y|] eqn:E.
      * intros [= <-]. apply IH in E as (s' & Hk & Hle & _).
        exists s'. split; [done|]. simpl. split; lia.
      * destruct lo; [|discriminate]. intros H. exists (c :: s). split; [done|]. split; [done|lia].
    + destruct lo; [|discriminate]. intros H. exists (c :: s). split; [done|]. split; [done|lia].
Qed.

Lemma matchRep_total cs hi s (k : str -> option A) :
  (forall s', is_Some (k s')) -> is_Some (matchRep cs 0 hi s k).
Proof.
  intros Hk. destruct s as [|c s]; simpl; [apply Hk|].
  destruct (inSet cs c && canRepeat hi); [|apply Hk].
  destruct (matchRep cs 0 (Nat.pred <$> hi) s k); [by eexists|apply Hk].
Qed.

End Matcher.

Lemma matchK_inv {A : Type} r : forall s g (k : str -> Groups -> option A) x,
  matchK r s g k = Some x ->
  exists s' g', k s' g' = Some x /\ (length s' <= length s)%nat /\
                (nullable r = false -> (length s' < length s)%nat).
Proof.
  induction r as [|cs|r1 IH1 r2 IH2|r1 IH1 r2 IH2|name r IH|cs lo hi]; intros s g k x; simpl.
  - intros H. exists s, g. split; [done|]. split; [done|discriminate].
  - destruct s as [|c s]; [discriminate|]. destruct (inSet cs c); [|discriminate].
    intros H. exists s, g. split; [done|]. simpl. split; lia.
  - intros H. apply IH1 in H as (s1 & g1 & H & Hle1 & Hlt1).
    apply IH2 in H as (s2 & g2 & H & Hle2 & Hlt2).
    exists s2, g2. split; [done|]. split; [lia|].
    intros Hn. apply andb_false_iff in Hn as [Hn|Hn]; [specialize (Hlt1 Hn)|specialize (Hlt2 Hn)]; lia.
  - destruct (matchK r1 s g k) as [y|] eqn:E.
    + intros [= <-]. apply IH1 in E as (s1 & g1 & H & Hle & Hlt).
      exists s1, g1. split; [done|]. split; [done|].
      intros Hn. apply orb_false_iff in Hn as [Hn _]. auto.
    + intros H. apply IH2 in H as (s1 & g1 & H & Hle & Hlt).
      exists s1, g1. split; [done|]. split; [done|].
      intros Hn. apply orb_false_iff in Hn as [_ Hn]. auto.
  - intros H. apply IH in H as (s1 & g1 & H & Hle & Hlt). eauto 6.
  - intros H. apply matchRep_inv in H as (s1 & H & Hle & Hlt).
    exists s1, g. split; [done|]. split; [done|].
    intros Hn. apply Hlt. by destruct lo.
Qed.

Lemma matchK_total {A : Type} r : forall s g (k : str -> Groups -> option A),
  nullable r = true -> (forall s' g', is_Some (k s' g')) -> is_Some (matchK r s g k).
Proof.
  induction r as [|cs|r1 IH1 r2 IH2|r1 IH1 r2 IH2|name r IH|cs lo hi]; intros s g k Hn Hk; simpl in *.
  - apply Hk.
  - discriminate.
  - apply andb_true_iff in Hn as [Hn1 Hn2]. apply IH1; [done|]. intros s' g'. by apply IH2.
  - destruct (matchK r1 s g k) as [y|] eqn:E; [by eexists|].
    apply orb_true_iff in Hn as [Hn|Hn]; [|by apply IH2].
    destruct (IH1 s g k Hn Hk) as [y Hy]. congruence.
  - apply IH; [done|]. intros s' g'. apply Hk.
  - destruct lo; [|discriminate]. apply matchRep_total. intros s'. apply Hk.
Qed.

(** A pattern that can match the empty string matches everywhere; one
    that cannot needs a character. *)
Lemma matchPrefix_nullable r s : nullable r = true -> is_Some (matchPrefix r s).
Proof. intros Hn. apply matchK_total; [done|]. by eexists. Qed.

Lemma matchPrefix_nil r : nullable r = false -> matchPrefix r [] = None.
Proof.
  intros Hn. destruct (matchPrefix r []) as [x|] eqn:E; [|done].
  apply matchK_inv in E as (s' & g' & _ & _ & Hlt). specialize (Hlt Hn). simpl in Hlt. lia.
Qed.

Lemma matchPrefix_rest r s rest g :
  matchPrefix r s = Some (rest, g) -> (length rest <= length s)%nat.
Proof.
  intros E. apply matchK_inv in E as (s' & g' & [= -> ->] & Hle & _). done.
Qed.

(** [execFrom] scans the offsets from left to right. *)
Lemma execFrom_None r : forall s i,
  execFrom r i s = None <-> forall k, (k <= length s)%nat -> matchPrefix r (drop k s) = None.
Proof.
  induction s as [|c s IH]; intros i; simpl.
  - destruct (matchPrefix r []) as [[rest g]|] eqn:E.
    + split; [discriminate|]. intros H. specialize (H 0%nat). simpl in H. rewrite E in H.
      discriminate H. lia.
    + split; [|done]. intros _ k Hk. by rewrite drop_nil.
  - destruct (matchPrefix r (c :: s)) as [[rest g]|] eqn:E.
    + split; [discriminate|]. intros H. specialize (H 0%nat). simpl in H. rewrite E in H.
      discriminate H. lia.
    + rewrite IH. split.
      * intros H [|k] Hk; simpl; [done|]. apply H. lia.
      * intros H k Hk. apply (H (S k)). lia.
Qed.

Lemma execFrom_Some r : forall s i m,
  execFrom r i s = Some m ->
  exists k, index m = (i + k)%nat /\ (k <= length s)%nat /\
            is_Some (matchPrefix r (drop k s)) /\
            forall j, (j < k)%nat -> matchPrefix r (drop j s) = None.
Proof.
  induction s as [|c s IH]; intros i m; simpl.
  - destruct (matchPrefix r []) as [[rest g]|] eqn:E; [|discriminate].
    intros [= <-]. exists 0%nat. simpl. rewrite E. repeat split; [lia|done|by eexists|lia].
  - destruct (matchPrefix r (c :: s)) as [[rest g]|] eqn:E.
    + intros [= <-]. exists 0%nat. simpl. rewrite E. repeat split; [lia|lia|by eexists|lia].
    + intros H. apply IH in H as (k & Hi & Hk & Hm & Hfirst).
      exists (S k). simpl. repeat split; [lia|lia|done|].
      intros [|j] Hj; simpl; [done|]. apply Hfirst. lia.
Qed.

(** [search] returns the offset of the first occurrence, and [-1] exactly
    when there is none. *)
Lemma search_none r s : search r s = -1 <-> noOccurrence r s.
Proof.
  unfold search, exec. destruct (execFrom r 0 s) as [m|] eqn:E.
  - split; [lia|]. intros Hno. apply execFrom_Some in E as (k & _ & Hk & Hm & _).
    destruct (Hno k). by split.
  - split; [|done]. intros _ k [Hk Hm]. apply execFrom_None with (k := k) in E; [|done].
    rewrite E in Hm. by destruct Hm.
Qed.

Lemma search_first r s k : search r s = Z.of_nat k <-> firstAt r s k.
Proof.
  unfold search, exec. destruct (execFrom r 0 s) as [m|] eqn:E.
  - apply execFrom_Some in E as (k' & Hi & Hk & Hm & Hfirst). simpl in Hi. split.
    + intros H. assert (k = k') as -> by lia. split; [by split|].
      intros j Hj [_ Hj']. rewrite Hfirst in Hj'; [by destruct Hj'|done].
    + intros [[Hk1 Hm1] Hfirst1].
      destruct (Nat.lt_trichotomy k k') as [Hlt|[->|Hlt]]; [|lia|].
      * rewrite Hfirst in Hm1; [by destruct Hm1|done].
      * destruct (Hfirst1 k' Hlt). by split.
  - split; [lia|]. intros [[Hk Hm] _]. apply execFrom_None with (k := k) in E; [|done].
    rewrite E in Hm. by destruct Hm.
Qed.

(** Without anchors, a first occurrence after offset 0 leaves a non-empty
    suffix: the pattern cannot match the empty string (it would match at
    offset 0), so its match needs a character. *)
Lemma firstAt_inside r s k : firstAt r s k -> (0 < k)%nat -> (k < length s)%nat.
Proof.
  intros [[Hk Hm] Hfirst] Hpos.
  destruct (nullable r) eqn:Hn.
  - destruct (Hfirst 0%nat Hpos). split; [lia|]. by apply matchPrefix_nullable.
  - destruct (decide (k = length s)) as [->|]; [|lia].
    rewrite drop_all, matchPrefix_nil in Hm; [by destruct Hm|done].
Qed.

(** ** The disambiguator *)

Lemma endsWithCR_nonempty data : endsWithCR data = true -> data <> [].
Proof. by intros H ->. Qed.

Lemma segment_nonempty s : s <> [] -> segment (Some s) = Some s.
Proof. by destruct s. Qed.

Lemma segments_idle frame :
  endsWithCR frame = true -> segments None frame = (Some frame, None).
Proof.
  intros Hcr. apply endsWithCR_nonempty in Hcr.
  unfold segments, disambiguate. simpl. by rewrite segment_nonempty.
Qed.

(** C1. For a complete frame delivered while a command with expected
    pattern [P] is in flight: when [P] does not occur in the frame, the
    whole frame is the push segment and there is no response segment; when
    the first occurrence of [P] is at offset 0, the whole frame is the
    response segment and there is no push segment; when it is at an offset
    [k > 0], the [k] first characters are the push segment and the rest,
    from [k] on, is the response segment; and with no command in flight the
    whole frame is the push segment. *)
Theorem C1_disambiguation (P : Regex) (frame : str) :
  endsWithCR frame = true ->
  (noOccurrence P frame -> segments (Some P) frame = (Some frame, None)) /\
  (firstAt P frame 0 -> segments (Some P) frame = (None, Some frame)) /\
  (forall k, (0 < k)%nat -> firstAt P frame k ->
     segments (Some P) frame = (Some (take k frame), Some (drop k frame))) /\
  segments None frame = (Some frame, None).
Proof.
  intros Hcr. apply endsWithCR_nonempty in Hcr.
  unfold segments, disambiguate. repeat split.
  - intros Hno. apply search_none in Hno. rewrite Hno. simpl.
    by rewrite segment_nonempty.
  - intros Hfirst. apply search_first in Hfirst. rewrite Hfirst. simpl.
    by rewrite segment_nonempty.
  - intros k Hk Hfirst. pose proof (firstAt_inside _ _ _ Hfirst Hk) as Hin.
    apply search_first in Hfirst. rewrite Hfirst.
    destruct (Z.of_nat k <? 0) eqn:E1; [lia|].
    destruct (Z.of_nat k =? 0) eqn:E2; [lia|].
    rewrite Nat2Z.id. rewrite !segment_nonempty; [done| |].
    + intros Hd. apply (f_equal length) in Hd. rewrite length_drop in Hd. simpl in Hd. lia.
    + intros Ht. apply (f_equal length) in Ht. rewrite length_take in Ht. simpl in Ht. lia.
  - simpl. by rewrite segment_nonempty.
Qed.

Lemma C1_disambiguation_witness :
  (noOccurrence c1Pattern c1Frame -> segments (Some c1Pattern) c1Frame = (Some c1Frame, None)) /\
  (firstAt c1Pattern c1Frame 0 -> segments (Some c1Pattern) c1Frame = (None, Some c1Frame)) /\
  (forall k, (0 < k)%nat -> firstAt c1Pattern c1Frame k ->
     segments (Some c1Pattern) c1Frame = (Some (take k c1Frame), Some (drop k c1Frame))) /\
  segments None c1Frame = (Some c1Frame, None).
Proof. apply (C1_disambiguation c1Pattern c1Frame). reflexivity. Defined.

Example c1Frame_split :
  firstAt c1Pattern c1Frame 13 /\
  segments (Some c1Pattern) c1Frame =
    (Some (lit "#00001=00002" ++ [CR]), Some (lit "1000 04096" ++ [CR])).
Proof. split; [by apply search_first|reflexivity]. Qed.

(** What the handler does with the segments: a push segment alone is
    emitted as a push event and nothing else happens. *)
Lemma onFrame_push_only data st p :
  segments (_nextResponse st) data = (Some p, None) ->
  onFrame data st = (st, [EmitPush (_parseMultiple p)]).
Proof. intros H. unfold onFrame. by rewrite H. Qed.

Lemma onFrame_idle frame st :
  _nextResponse st = None -> endsWithCR frame = true ->
  onFrame frame st = (st, [EmitPush (_parseMultiple frame)]).
Proof.
  intros Hnr Hcr. apply onFrame_push_only. rewrite Hnr.
  by apply segments_idle.
Qed.

(** ** The frame assembler *)

Lemma endsWithCR_app a b : b <> [] -> endsWithCR (a ++ b) = endsWithCR b.
Proof.
  intros Hb. unfold endsWithCR. rewrite last_app.
  destruct (last b) eqn:E; [done|]. apply last_None in E. done.
Qed.

Lemma set_recvBuffer_id st : set_recvBuffer (_recvBuffer st) st = st.
Proof. by destruct st. Qed.

Lemma set_recvBuffer_twice a b st : set_recvBuffer a (set_recvBuffer b st) = set_recvBuffer a st.
Proof. done. Qed.

Lemma run_app st evs1 evs2 :
  run st (evs1 ++ evs2) =
  (let r1 := run st evs1 in let r2 := run r1.1 evs2 in (r2.1, r1.2 ++ r2.2)).
Proof.
  revert st. induction evs1 as [|ev evs1 IH]; intros st; simpl.
  - by destruct (run st evs2).
  - destruct (step st ev) as [st1 effs1]. rewrite IH.
    destruct (run st1 evs1) as [st2 effs2]. simpl.
    destruct (run st2 evs2) as [st3 effs3]. simpl. by rewrite app_assoc.
Qed.

Lemma run_one st ev : run st [ev] = step st ev.
Proof. simpl. destruct (step st ev) as [st1 effs1]. by rewrite app_nil_r. Qed.

(** Chunks that do not end with the terminator only grow the buffer. *)
Lemma run_fragments chunks : forall st,
  Forall (fun c => endsWithCR c = false) chunks ->
  run st (EData <$> chunks) = (set_recvBuffer (_recvBuffer st ++ concat chunks) st, []).
Proof.
  induction chunks as [|c chunks IH]; intros st Hall; simpl.
  - by rewrite app_nil_r, set_recvBuffer_id.
  - inversion Hall as [|? ? Hc Hall']; subst. unfold onData. rewrite Hc.
    rewrite IH by done. simpl. by rewrite app_assoc.
Qed.

Lemma emitReadyToSend_recvBuffer st :
  _recvBuffer (emitReadyToSend st).1 = _recvBuffer st.
Proof.
  unfold emitReadyToSend, onReadyToSend. simpl.
  destruct (_sendBuffer st) as [|p q]; simpl; [done|].
  unfold _send. simpl. by destruct (writable (readyState st)).
Qed.

Lemma clearTimer_recvBuffer st : _recvBuffer (clearTimer st) = _recvBuffer st.
Proof. unfold clearTimer. by destruct (_noResponse st). Qed.

Lemma onFrame_recvBuffer data st : _recvBuffer (onFrame data st).1 = _recvBuffer st.
Proof.
  unfold onFrame. destruct (segments (_nextResponse st) data) as [pushData [respData|]]; [|done].
  destruct (parseResponse respData (_nextResponse st)) as [[response|e] effs]; simpl.
  - destruct (_nextCb (clearTimer st)) eqn:E; simpl; [|apply clearTimer_recvBuffer].
    pose proof (emitReadyToSend_recvBuffer (clearTimer st)) as H.
    destruct (emitReadyToSend (clearTimer st)). simpl in *. by rewrite H, clearTimer_recvBuffer.
  - apply clearTimer_recvBuffer.
Qed.

(** C4. A frame that arrives as chunks of which only the last ends with
    the terminator: every chunk but the last is appended to the receive
    buffer and produces nothing; the last chunk completes the frame, which
    is the buffer so far followed by that chunk, and leaves the buffer
    empty; and the state and the effects (classification and parse
    results) are those of the delivery of the whole frame in one chunk. *)
Theorem C4_fragmentation (st : State) (chunks : list str) (final : str) :
  Forall (fun c => endsWithCR c = false) chunks ->
  endsWithCR final = true ->
  run st (EData <$> chunks) = (set_recvBuffer (_recvBuffer st ++ concat chunks) st, []) /\
  step (set_recvBuffer (_recvBuffer st ++ concat chunks) st) (EData final) =
    onFrame (_recvBuffer st ++ concat chunks ++ final) (set_recvBuffer [] st) /\
  run st (EData <$> (chunks ++ [final])) = step st (EData (concat chunks ++ final)) /\
  _recvBuffer (run st (EData <$> (chunks ++ [final]))).1 = [].
Proof.
  intros Hall Hfinal.
  assert (Hstep : step (set_recvBuffer (_recvBuffer st ++ concat chunks) st) (EData final) =
                  onFrame (_recvBuffer st ++ concat chunks ++ final) (set_recvBuffer [] st)).
  { simpl. unfold onData. rewrite Hfinal. simpl. by rewrite <- app_assoc. }
  assert (Hwhole : step st (EData (concat chunks ++ final)) =
                   onFrame (_recvBuffer st ++ concat chunks ++ final) (set_recvBuffer [] st)).
  { simpl. unfold onData.
    rewrite endsWithCR_app, Hfinal by (by apply endsWithCR_nonempty). done. }
  assert (Hrun : run st (EData <$> (chunks ++ [final])) = step st (EData (concat chunks ++ final))).
  { rewrite fmap_app, run_app, run_fragments by done. simpl fst. simpl snd.
    change (EData <$> [final]) with [EData final]. rewrite run_one, Hstep, Hwhole.
    by destruct (onFrame _ _). }
  repeat split; [by apply run_fragments|done|done|].
  rewrite Hrun, Hwhole. apply onFrame_recvBuffer.
Qed.

Lemma C4_fragmentation_witness :
  run (run init twoSubmitted).1 (EData <$> fragments) =
    (set_recvBuffer (_recvBuffer (run init twoSubmitted).1 ++ concat fragments)
       (run init twoSubmitted).1, []) /\
  step (set_recvBuffer (_recvBuffer (run init twoSubmitted).1 ++ concat fragments)
          (run init twoSubmitted).1) (EData lastFragment) =
    onFrame (_recvBuffer (run init twoSubmitted).1 ++ concat fragments ++ lastFragment)
      (set_recvBuffer [] (run init twoSubmitted).1) /\
  run (run init twoSubmitted).1 (EData <$> (fragments ++ [lastFragment])) =
    step (run init twoSubmitted).1 (EData (concat fragments ++ lastFragment)) /\
  _recvBuffer (run (run init twoSubmitted).1 (EData <$> (fragments ++ [lastFragment]))).1 = [].
Proof.
  apply (C4_fragmentation (run init twoSubmitted).1 fragments lastFragment).
  - repeat constructor.
  - reflexivity.
Defined.

(** The fragments of the sample, one by one and as one chunk. *)
Example fragments_delivered :
  (run (run init twoSubmitted).1 (EData <$> (fragments ++ [lastFragment]))).2 =
    [EmitPush [{| id := Int 1; value := Int 2 |}]; CallCb 1 None (VBool true);
     EmitReadyToSend; SockWrite (lit "$q GS2 1000" ++ [CR]); SetTimeout 1 2000] /\
  (step (run init twoSubmitted).1 (EData (concat fragments ++ lastFragment))).2 =
    [EmitPush [{| id := Int 1; value := Int 2 |}]; CallCb 1 None (VBool true);
     EmitReadyToSend; SockWrite (lit "$q GS2 1000" ++ [CR]); SetTimeout 1 2000].
Proof. split; reflexivity. Qed.

(** ** The sequencer *)

Lemma singleFlight_app effs1 : forall b effs2,
  singleFlight b (effs1 ++ effs2) = singleFlight b effs1 ≫= fun b' => singleFlight b' effs2.
Proof.
  induction effs1 as [|e effs1 IH]; intros b effs2; [done|].
  destruct e; simpl; try apply IH. destruct b; [done|apply IH].
Qed.

Lemma fired_app effs1 effs2 : fired (effs1 ++ effs2) = fired effs1 ++ fired effs2.
Proof. apply bind_app. Qed.

Lemma submissions_app evs1 evs2 : submissions (evs1 ++ evs2) = submissions evs1 ++ submissions evs2.
Proof. apply bind_app. Qed.

Lemma wf_init : wf init.
Proof.
  split; simpl; [done| |by left].
  split; intros [x Hx]; discriminate.
Qed.

Lemma finished_app effs1 effs2 : finished (effs1 ++ effs2) = (finished effs1 + finished effs2)%nat.
Proof. apply sum_list_with_app. Qed.

Lemma advances_refl st : wf st -> advances st [] st [].
Proof.
  intros Hwf. split; [done|]. split; [|by split].
  exists []. by rewrite app_nil_r.
Qed.

Lemma advances_trans st new1 st1 effs1 new2 st2 effs2 :
  advances st new1 st1 effs1 -> advances st1 new2 st2 effs2 ->
  advances st (new1 ++ new2) st2 (effs1 ++ effs2).
Proof.
  intros (_ & (d1 & Hd1 & Hs1 & Hl1) & Hf1 & Ha1) (Hwf & (d2 & Hd2 & Hs2 & Hl2) & Hf2 & Ha2).
  split; [done|]. split; [|split].
  - exists (d1 ++ d2). split; [|split].
    + by rewrite app_assoc, Hd1, <- !app_assoc, Hd2.
    + rewrite fired_app. by apply sublist_app.
    + rewrite length_app, finished_app. lia.
  - by rewrite singleFlight_app, Hf1.
  - by apply Forall_app.
Qed.

(** The ['readyToSend'] transition, taken with no timer armed: the slot
    is vacated, then the head of the queue, if any, goes to [_send]. *)
Lemma emitReadyToSend_advances st st' effs b :
  timers st = [] ->
  (_readyToSend st = true -> _sendBuffer st = []) ->
  emitReadyToSend st = (st', effs) ->
  wf st' /\ fired effs = [] /\
  (exists dropped, queued st = dropped ++ pending st' /\ finished effs = S (length dropped)) /\
  singleFlight b effs = Some (awaiting st') /\
  Forall (armedFor _noResponseTimeout) effs.
Proof.
  destruct st as [rb q rdy nr nc nor tm nh rs]. simpl. intros -> Hrdy.
  unfold emitReadyToSend, onReadyToSend, _send, pending, queued, inFlight, awaiting. simpl.
  destruct q as [|p q]; simpl.
  - intros [= <- <-]. simpl. split; [|split; [done|split; [by exists []|split; [done|]]]].
    + split; simpl; [done| |by left]. split; intros [x Hx]; discriminate.
    + by repeat constructor.
  - destruct rdy; [by specialize (Hrdy eq_refl)|]. clear Hrdy.
    destruct (writable rs); intros [= <- <-]; simpl.
    + split; [|split; [done|split; [by exists []|split; [done|]]]].
      * split; simpl; [done|done|]. right. exists nh. by repeat split.
      * by repeat constructor.
    + split; [|split; [done|split; [by exists [cb p]|split; [done|]]]].
      * split; simpl; [done| |by left]. split; intros [x Hx]; discriminate.
      * by repeat constructor.
Qed.

Lemma clearTimer_timers st : wf st -> timers (clearTimer st) = [].
Proof.
  intros [_ _ Ht]. unfold clearTimer.
  destruct Ht as [Ht|(h & Ht & Hh & _)].
  - destruct (_noResponse st); simpl; [|done]. by rewrite Ht.
  - rewrite Hh. simpl. rewrite Ht. rewrite filter_cons_False by (by intros H; apply H). done.
Qed.

Lemma clearTimer_fields st :
  _sendBuffer (clearTimer st) = _sendBuffer st /\
  _readyToSend (clearTimer st) = _readyToSend st /\
  _nextResponse (clearTimer st) = _nextResponse st /\
  _nextCb (clearTimer st) = _nextCb st /\
  _noResponse (clearTimer st) = _noResponse st /\
  readyState (clearTimer st) = readyState st.
Proof. destruct st as [rb q rdy nr nc [h|] tm nh rs]; repeat split; reflexivity. Qed.

Lemma wf_clearTimer st : wf st -> wf (clearTimer st).
Proof.
  intros Hwf. pose proof (clearTimer_timers st Hwf) as Ht.
  destruct (clearTimer_fields st) as (Hq & Hr & Hnr & Hnc & _ & _).
  destruct Hwf as [H1 H2 H3]. split.
  - rewrite Hr, Hq, Hnc, Ht. intros H. by destruct (H1 H) as (? & ? & _).
  - by rewrite Hnr, Hnc.
  - by left.
Qed.

Lemma wf_set_recvBuffer b st : wf st -> wf (set_recvBuffer b st).
Proof. by intros [H1 H2 H3]. Qed.

Lemma wf_set_readyState rs st : wf st -> wf (set_readyState rs st).
Proof. by intros [H1 H2 H3]. Qed.

Lemma quiet_singleFlight effs : Forall quiet effs -> forall b, singleFlight b effs = Some b.
Proof.
  induction 1 as [|e effs He _ IH]; intros b; [done|].
  destruct e; simpl in *; try done; apply IH.
Qed.

Lemma quiet_fired effs : Forall quiet effs -> fired effs = [].
Proof.
  induction 1 as [|e effs He _ IH]; [done|].
  destruct e; simpl in *; try done; apply IH.
Qed.

Lemma quiet_finished effs : Forall quiet effs -> finished effs = 0%nat.
Proof.
  induction 1 as [|e effs He _ IH]; [done|].
  destruct e; simpl in *; try done. unfold finished. simpl. by rewrite decide_False.
Qed.

Lemma quiet_armedFor effs ms : Forall quiet effs -> Forall (armedFor ms) effs.
Proof. intros H. eapply Forall_impl; [exact H|]. by intros []. Qed.

Lemma advances_quiet st effs : wf st -> Forall quiet effs -> advances st [] st effs.
Proof.
  intros Hwf Hq. split; [done|]. split; [|split].
  - exists []. by rewrite app_nil_r, quiet_fired, quiet_finished.
  - by apply quiet_singleFlight.
  - by apply quiet_armedFor.
Qed.

Lemma _parseSingle_quiet data regex : Forall quiet (_parseSingle data regex).2.
Proof.
  unfold _parseSingle. destruct (exec (default REps regex) data) as [m|]; [|done].
  destruct (groups m) as [g|]; [|done].
  repeat (match goal with |- context [if ?b then _ else _] => destruct b end; [done|]).
  by repeat constructor.
Qed.

Lemma parseResponse_quiet respData regex : Forall quiet (parseResponse respData regex).2.
Proof. unfold parseResponse. case_decide; [done|apply _parseSingle_quiet]. Qed.

(** A change that touches neither the slot, the queue, the ready flag nor
    the timers keeps the invariant and what is pending. *)
Lemma advances_same st st' :
  wf st -> wf st' -> pending st' = pending st -> awaiting st' = awaiting st ->
  advances st [] st' [].
Proof.
  intros _ Hwf Hp Ha. split; [done|]. split; [|split; [by rewrite Ha|done]].
  exists []. by rewrite Hp, app_nil_r.
Qed.

Lemma onFrame_advances data st :
  wf st -> advances st [] (onFrame data st).1 (onFrame data st).2.
Proof.
  intros Hwf. unfold onFrame.
  destruct (segments (_nextResponse st) data) as [pushData respData].
  set (pushed := match pushData with Some p => [EmitPush (_parseMultiple p)] | None => [] end).
  assert (Hpushed : Forall quiet pushed) by (subst pushed; destruct pushData; by repeat constructor).
  destruct respData as [respData|]; [|by apply advances_quiet].
  pose proof (parseResponse_quiet respData (_nextResponse st)) as Hq.
  destruct (parseResponse respData (_nextResponse st)) as [[response|e] effs]; simpl in Hq.
  - destruct (clearTimer_fields st) as (Hsb & Hrdy & Hnr & Hnc & _ & _).
    destruct (_nextCb (clearTimer st)) as [f|] eqn:Ecb.
    + destruct (emitReadyToSend (clearTimer st)) as [st2 effs2] eqn:E. simpl.
      apply emitReadyToSend_advances with (b := awaiting st) in E
        as (Hwf2 & Hf2 & (dropped & Hd & Hl) & Hs2 & Ha2).
      * split; [done|]. split; [|split].
        -- exists (f :: dropped). unfold queued in Hd. rewrite Hsb in Hd.
           unfold pending at 1, inFlight. rewrite <- Hnc. simpl.
           unfold queued. rewrite Hd, app_nil_r. split; [done|split].
           ++ rewrite !fired_app, !quiet_fired by done. simpl. rewrite Hf2.
              apply sublist_skip, sublist_nil_l.
           ++ rewrite !finished_app, !quiet_finished by done. simpl.
              change (finished (CallCb f None response :: effs2)) with (finished effs2).
              lia.
        -- rewrite singleFlight_app, (quiet_singleFlight _ Hpushed). simpl.
           rewrite singleFlight_app, (quiet_singleFlight _ Hq). simpl. done.
        -- repeat apply Forall_app_2; try by apply quiet_armedFor. by constructor.
      * by apply clearTimer_timers.
      * rewrite Hrdy, Hsb. intros H. by destruct (wf_ready _ Hwf H).
    + simpl. eapply advances_trans with (new1 := []) (new2 := []) (effs1 := []).
      * apply advances_same; [done|by apply wf_clearTimer| |].
        -- unfold pending, inFlight, queued. by rewrite Hsb, Ecb, <- Hnc.
        -- unfold awaiting. by rewrite Ecb, <- Hnc.
      * apply advances_quiet; [by apply wf_clearTimer|].
        repeat apply Forall_app_2; try done. by repeat constructor.
  - destruct (clearTimer_fields st) as (Hsb & Hrdy & Hnr & Hnc & _ & _).
    simpl. eapply advances_trans with (new1 := []) (new2 := []) (effs1 := []).
    + apply advances_same; [done|by apply wf_clearTimer| |].
      * unfold pending, inFlight, queued. by rewrite Hsb, Hnc.
      * unfold awaiting. by rewrite Hnc.
    + apply advances_quiet; [by apply wf_clearTimer|].
      repeat apply Forall_app_2; try done. by repeat constructor.
Qed.

Lemma reqToSend_advances command regex cb st :
  wf st ->
  advances st (submitted (EReqToSend command regex cb))
    (reqToSend command regex cb st).1.2 (reqToSend command regex cb st).2.
Proof.
  intros Hwf. destruct cb as [f|]; [|by apply advances_refl].
  unfold reqToSend, reqToSendBody. simpl.
  destruct (_readyToSend st) eqn:Erdy.
  - destruct (wf_ready _ Hwf Erdy) as (Hq & Hcb & Htm).
    destruct st as [rb q rdy nr nc nor tm nh rs]. simpl in *. subst.
    unfold _send. simpl. destruct (writable rs); simpl.
    + split; [|split; [exists []; split; [done|split; [apply sublist_nil_l|done]]
                      |split; [done|by repeat constructor]]].
      split; simpl; [done|done|]. right. exists nh. by repeat split.
    + split; [done|].
      split; [exists [f]; split; [done|split; [apply sublist_nil_l|done]]
             |split; [done|by repeat constructor]].
  - simpl. destruct Hwf as [H1 H2 H3].
    split; [split; simpl; [by rewrite Erdy|done|done]|].
    split; [|by split].
    exists []. unfold pending, queued, inFlight. simpl.
    split; [by rewrite fmap_app, app_assoc|split; [apply sublist_nil_l|done]].
Qed.

Lemma onTimeout_advances h st :
  wf st -> advances st [] (onTimeout h st).1 (onTimeout h st).2.
Proof.
  intros Hwf. unfold onTimeout. case_decide as Hin; [|by apply advances_refl].
  destruct (wf_timer _ Hwf) as [Ht|(h' & Ht & Hh & Hcb)]; rewrite Ht in Hin.
  { by apply elem_of_nil in Hin. }
  apply list_elem_of_singleton in Hin as ->. rewrite Ht.
  rewrite filter_cons_False by (by intros H; apply H). rewrite filter_nil.
  destruct (emitReadyToSend (set_timers [] st)) as [st' effs] eqn:E. simpl.
  apply emitReadyToSend_advances with (b := awaiting st) in E
    as (Hwf' & Hf & (dropped & Hd & Hl) & Hs & Ha); [|done|].
  - split; [done|]. split; [|by split].
    exists (inFlight st ++ dropped). unfold pending at 1. rewrite app_nil_r, <- app_assoc.
    split; [by f_equal|]. split; [rewrite Hf; apply sublist_nil_l|].
    rewrite length_app, Hl. unfold inFlight. destruct Hcb as [f ->]. simpl. lia.
  - simpl. intros H. by destruct (wf_ready _ Hwf H).
Qed.

(** Every event keeps the invariant, the order of the handlers and the
    single flight. *)
Lemma step_advances st ev :
  wf st -> advances st (submitted ev) (step st ev).1 (step st ev).2.
Proof.
  intros Hwf. destruct ev as [command regex cb|chunk|h|rs].
  - pose proof (reqToSend_advances command regex cb st Hwf) as H. simpl.
    by destruct (reqToSend command regex cb st) as [[c st'] effs].
  - simpl. unfold onData. destruct (endsWithCR chunk).
    + eapply advances_trans with (new1 := []) (new2 := []) (effs1 := []).
      * by apply (advances_same st (set_recvBuffer [] st)); [|apply wf_set_recvBuffer| |].
      * apply onFrame_advances. by apply wf_set_recvBuffer.
    + by apply advances_same; [|apply wf_set_recvBuffer| |].
  - by apply onTimeout_advances.
  - simpl. by apply advances_same; [|apply wf_set_readyState| |].
Qed.

Lemma run_advances evs : forall st,
  wf st -> advances st (submissions evs) (run st evs).1 (run st evs).2.
Proof.
  induction evs as [|ev evs IH]; intros st Hwf; [by apply advances_refl|].
  pose proof (step_advances st ev Hwf) as H1. simpl.
  destruct (step st ev) as [st1 effs1]. simpl in H1.
  assert (Hwf1 : wf st1) by apply H1.
  specialize (IH st1 Hwf1). destruct (run st1 evs) as [st2 effs2]. simpl in *.
  unfold submissions. simpl. by eapply advances_trans.
Qed.

Lemma run_wf evs : wf (run init evs).1.
Proof. apply (run_advances evs init wf_init). Qed.



(** ** The no-response timeout *)

Lemma timeout_is_readyToSend st h :
  wf st -> h ∈ timers st -> step st (ETimeout h) = emitReadyToSend (clearTimer st).
Proof.
  intros Hwf Hin. simpl. unfold onTimeout. rewrite decide_True by done.
  destruct (wf_timer _ Hwf) as [Ht|(h' & Ht & Hh & _)]; rewrite Ht in Hin.
  { by apply elem_of_nil in Hin. }
  apply list_elem_of_singleton in Hin as ->.
  unfold clearTimer. by rewrite Hh.
Qed.

(** The part of the timeout transition that is as described. When the
    no-response timer fires while a command awaits its reply (the timers of
    a run are all armed for 2000 ms, at dispatch), the command is
    abandoned: the step invokes no handler, and no later event invokes the
    handler of the abandoned command (which is attached to no other
    command). The step is the transition taken on completion, the emission
    of ['readyToSend'] with the timer cleared: with an empty queue the
    sequencer becomes idle; with a queue and a writable socket, the head is
    dequeued and dispatched (written, slot recorded, timer armed for
    2000 ms). *)
Lemma timeout_abandons_handler (evs0 : list Event) (st : State) (h f : nat) (evs : list Event) :
  st = (run init evs0).1 ->
  _nextCb st = Some f ->
  h ∈ timers st ->
  f ∉ queued st ->
  f ∉ submissions evs ->
  Forall (armedFor 2000) (run init evs0).2 /\
  step st (ETimeout h) = emitReadyToSend (clearTimer st) /\
  fired (step st (ETimeout h)).2 = [] /\
  (f ∉ fired (run ((step st (ETimeout h)).1) evs).2) /\
  (_sendBuffer st = [] ->
     (step st (ETimeout h)).2 = [EmitReadyToSend] /\
     _readyToSend (step st (ETimeout h)).1 = true /\
     _nextCb (step st (ETimeout h)).1 = None /\
     _nextResponse (step st (ETimeout h)).1 = None) /\
  (forall p q, _sendBuffer st = p :: q -> writable (readyState st) = true ->
     (step st (ETimeout h)).2 =
       [EmitReadyToSend; SockWrite (command p); SetTimeout (nextHandle st) 2000] /\
     _sendBuffer (step st (ETimeout h)).1 = q /\
     _nextCb (step st (ETimeout h)).1 = Some (cb p) /\
     _nextResponse (step st (ETimeout h)).1 = Some (regex p) /\
     timers (step st (ETimeout h)).1 = [nextHandle st]).
Proof.
  intros -> Hcb Hin Hnq Hns.
  pose proof (run_wf evs0) as Hwf.
  set (st := (run init evs0).1) in *.
  split; [apply (run_advances evs0 init wf_init)|].
  pose proof (timeout_is_readyToSend st h Hwf Hin) as Hstep.
  split; [done|]. rewrite Hstep.
  destruct (emitReadyToSend (clearTimer st)) as [st1 effs1] eqn:E.
  pose proof E as E'.
  destruct (clearTimer_fields st) as (Hsb & Hrdy & Hnr & Hnc & _ & Hrs).
  apply emitReadyToSend_advances with (b := true) in E'
    as (Hwf1 & Hf1 & (dropped & Hd & _) & _ & _);
    [|by apply clearTimer_timers
     |rewrite Hrdy, Hsb; intros H; by destruct (wf_ready _ Hwf H)].
  simpl. split; [done|]. split; [|split].
  - intros Hfired.
    destruct (run_advances evs st1 Hwf1) as (_ & (done & Hdone & Hsub & _) & _ & _).
    assert (Hf : f ∈ done).
    { apply singleton_sublist_l. etrans; [|exact Hsub]. by apply singleton_sublist_l. }
    assert (Hf' : f ∈ pending st1 ++ submissions evs).
    { rewrite Hdone. apply elem_of_app. by left. }
    apply elem_of_app in Hf' as [Hf'|Hf']; [|done].
    apply Hnq. unfold queued in *. rewrite <- Hsb, Hd. apply elem_of_app. by right.
  - intros Hq. unfold emitReadyToSend, onReadyToSend in E. simpl in E.
    rewrite Hsb, Hq in E. by injection E as <- <-.
  - intros p q Hq Hw. unfold emitReadyToSend, onReadyToSend in E. simpl in E.
    rewrite Hsb, Hq in E. unfold _send in E. simpl in E. rewrite Hrs, Hw in E.
    injection E as <- <-. simpl.
    destruct st as [rb sb rdy nr nc [h'|] tm nh rs]; by rewrite (clearTimer_timers _ Hwf).
Qed.

Lemma timeout_abandons_handler_witness :
  (step ((run init twoSubmitted).1) (ETimeout 0)).2 =
    [EmitReadyToSend; SockWrite (lit "$q GS2 1000" ++ [CR]); SetTimeout 1 2000] /\
  1%nat ∉ fired (run ((step ((run init twoSubmitted).1) (ETimeout 0)).1)
                   [EData (lit "ACK" ++ [CR]); EData (lit "1000 04096" ++ [CR])]).2.
Proof.
  assert (H1 : _nextCb (run init twoSubmitted).1 = Some 1%nat) by reflexivity.
  assert (H2 : 0%nat ∈ timers (run init twoSubmitted).1)
    by decide_by_computation.
  assert (H3 : 1%nat ∉ queued (run init twoSubmitted).1)
    by decide_by_computation.
  assert (H4 : 1%nat ∉ submissions [EData (lit "ACK" ++ [CR]); EData (lit "1000 04096" ++ [CR])])
    by decide_by_computation.
  destruct (timeout_abandons_handler twoSubmitted _ 0%nat 1%nat _ eq_refl H1 H2 H3 H4)
    as (_ & _ & _ & Hnever & _ & Hnext).
  split; [|exact Hnever].
  apply (Hnext {| command := lit "$q GS2 1000" ++ [CR]; regex := c1Pattern; cb := 2 |} []);
    reflexivity.
Defined.

(** ** Writing while the socket is not writable *)

(** C9 (as amended). A dispatch attempted while the socket is not
    writable is refused at the point of writing: nothing is written, no
    timer is armed, the state is as it was, and the only effect is the
    diagnostic logged with [console.error]; nothing is surfaced to the
    caller (the promise of [reqToSend] is fulfilled and the handler is not
    invoked). When the dispatch is that of the head of the queue, the
    commands that remain in the queue are the others, in their order. *)
Theorem C9_write_while_not_ready (st : State) (command : str) (regex : Regex) (f : nat) :
  writable (readyState st) = false ->
  _send command regex f st = (st, [ConsoleError notReady]) /\
  (_readyToSend st = true ->
     reqToSend command regex (Fn f) st = (Return Fulfilled, st, [ConsoleError notReady])) /\
  (forall p q, _sendBuffer st = p :: q ->
     onReadyToSend st = (set_sendBuffer q (set_next None None st), [ConsoleError notReady])).
Proof.
  intros Hw. split; [|split].
  - unfold _send. by rewrite Hw.
  - intros Hrdy. unfold reqToSend, reqToSendBody, _send. by rewrite Hrdy, Hw.
  - intros p q Hq. unfold onReadyToSend, _send. simpl. by rewrite Hq, Hw.
Qed.

Lemma C9_write_while_not_ready_witness :
  _send (lit "$q FU" ++ [CR]) ackNak 1 init = (init, [ConsoleError notReady]) /\
  onReadyToSend (run init twoSubmittedThenClosed).1 =
    (set_sendBuffer [] (set_next None None (run init twoSubmittedThenClosed).1),
     [ConsoleError notReady]).
Proof.
  split.
  - apply (C9_write_while_not_ready init (lit "$q FU" ++ [CR]) ackNak 1). reflexivity.
  - destruct (C9_write_while_not_ready (run init twoSubmittedThenClosed).1 [] REps 0 eq_refl)
      as (_ & _ & Hnext).
    apply (Hnext {| command := lit "$q GS2 1000" ++ [CR]; regex := c1Pattern; cb := 2 |} []).
    reflexivity.
Defined.

(** C9 as worded does not hold: a command submitted while the socket is
    still opening is dropped with a log line; the call does not throw, its
    promise is fulfilled, and the handler is not invoked, with an error or
    otherwise. *)
Lemma C9_counterexample :
  writable (readyState init) = false /\
  reqToSend (lit "$q FU" ++ [CR]) ackNak (Fn 1) init = (Return Fulfilled, init, [ConsoleError notReady]) /\
  ~ surfaced 1 (reqToSend (lit "$q FU" ++ [CR]) ackNak (Fn 1) init).1.1
               (reqToSend (lit "$q FU" ++ [CR]) ackNak (Fn 1) init).2.
Proof.
  split; [reflexivity|]. split; [reflexivity|].
  intros [[e H]|[[e H]|(e & d & H)]]; [discriminate H|discriminate H|].
  simpl in H. repeat (apply elem_of_cons in H as [H|H]; [discriminate H|]).
  by apply elem_of_nil in H.
Qed.

(** ** The check of the callback *)



(** ** The multi-record form and the block reply *)

Lemma matchRep_done {A : Type} cs s (k : str -> option A) :
  matchRep cs 0 (Some 0%nat) s k = k s.
Proof. destruct s as [|c s]; simpl; [done|]. by rewrite andb_false_r. Qed.

Lemma matchRep_exact {A : Type} cs ds : forall n rest (k : str -> option A),
  length ds = n -> Forall (fun c => inSet cs c = true) ds ->
  matchRep cs n (Some n) (ds ++ rest) k = k rest.
Proof.
  induction ds as [|d ds IH]; intros n rest k Hlen Hall.
  - simpl in Hlen. subst n. apply matchRep_done.
  - destruct n as [|n]; [discriminate|]. injection Hlen as Hlen.
    inversion Hall as [|? ? Hd Hds]; subst. simpl. rewrite Hd. simpl.
    rewrite IH by done. by destruct (k rest).
Qed.

Lemma matchK_group_exact {A : Type} name cs n ds rest g (k : str -> Groups -> option A) :
  length ds = n -> Forall (fun c => inSet cs c = true) ds ->
  matchK (RGroup name (RRep cs n (Some n))) (ds ++ rest) g k = k rest (<[name := ds]> g).
Proof.
  intros Hlen Hall. simpl. rewrite matchRep_exact by done.
  by rewrite length_app, Nat.add_sub, take_app_length.
Qed.

Lemma matchK_seq {A : Type} r1 r2 s g (k : str -> Groups -> option A) :
  matchK (RSeq r1 r2) s g k = matchK r1 s g (fun s' g' => matchK r2 s' g' k).
Proof. done. Qed.

Lemma matchK_lit {A : Type} c s g (k : str -> Groups -> option A) :
  matchK (RChar (CLit c)) (c :: s) g k = k s g.
Proof. simpl. by rewrite Ascii.eqb_refl. Qed.

Lemma matchPrefix_multi_other c s : c <> "#"%char -> matchPrefix multiRegex (c :: s) = None.
Proof.
  intros Hc. unfold matchPrefix, multiRegex. simpl.
  destruct (Ascii.eqb_spec c "#"); [done|done].
Qed.

Lemma matchPrefix_multi_nil : matchPrefix multiRegex [] = None.
Proof. done. Qed.

Lemma matchPrefix_multi_record i v rest :
  fiveDigits i -> fiveDigits v ->
  matchPrefix multiRegex (lit "#" ++ i ++ lit "=" ++ v ++ rest) =
    Some (rest, <["ret"%string := v]> (<["id"%string := i]> ∅)).
Proof.
  intros [Hi1 Hi2] [Hv1 Hv2]. unfold matchPrefix, multiRegex.
  change (lit "#" ++ i ++ lit "=" ++ v ++ rest) with ("#"%char :: (i ++ "="%char :: (v ++ rest))).
  rewrite matchK_seq, matchK_lit. cbv beta.
  rewrite matchK_seq, (matchK_group_exact "id" CDigit 5 i) by done. cbv beta.
  rewrite matchK_seq, matchK_lit. cbv beta.
  by rewrite (matchK_group_exact "ret" CDigit 5 v) by done.
Qed.

Lemma matchAllFrom_skip r a : forall s,
  matchAllFrom r (length a) (a ++ s) = matchAllFrom r 0 s.
Proof. induction a as [|c a IH]; intros s; [done|]. simpl. apply IH. Qed.

Lemma matchAll_multi_junk junk : forall s,
  "#"%char ∉ junk -> matchAllFrom multiRegex 0 (junk ++ s) = matchAllFrom multiRegex 0 s.
Proof.
  induction junk as [|c junk IH]; intros s Hj; [done|].
  apply not_elem_of_cons in Hj as [Hc Hj].
  change ((c :: junk) ++ s) with (c :: (junk ++ s)).
  cbn [matchAllFrom]. rewrite matchPrefix_multi_other by done. by apply IH.
Qed.

Lemma matchAllFrom_match r c s rest g :
  matchPrefix r (c :: s) = Some (rest, g) ->
  matchAllFrom r 0 (c :: s) = g :: matchAllFrom r (length (c :: s) - length rest - 1) s.
Proof. intros H. cbn [matchAllFrom]. by rewrite H. Qed.

Lemma matchAll_multi_records recs :
  Forall wellFormed recs ->
  matchAllFrom multiRegex 0 (wireAll recs) =
    (fun r : WireRecord => <["ret"%string := r.1.2]> (<["id"%string := r.1.1]> (∅ : Groups))) <$> recs.
Proof.
  induction 1 as [|[[i v] junk] recs (Hi & Hv & Hj) _ IH]; [done|].
  simpl in Hi, Hv, Hj.
  change (wireAll ((i, v, junk) :: recs))
    with ("#"%char :: (i ++ lit "=" ++ v ++ junk) ++ wireAll recs).
  rewrite (matchAllFrom_match _ _ _ (junk ++ wireAll recs)
             (<["ret"%string := v]> (<["id"%string := i]> ∅))).
  - rewrite fmap_cons. simpl fst. simpl snd. f_equal.
    replace (length ("#"%char :: (i ++ lit "=" ++ v ++ junk) ++ wireAll recs)
             - length (junk ++ wireAll recs) - 1)%nat with (length (i ++ lit "=" ++ v)).
    + replace ((i ++ lit "=" ++ v ++ junk) ++ wireAll recs)
        with ((i ++ lit "=" ++ v) ++ junk ++ wireAll recs).
      2:{ rewrite <- !app_assoc. reflexivity. }
      rewrite matchAllFrom_skip, matchAll_multi_junk by done. apply IH.
    + simpl. rewrite !length_app. simpl. rewrite !length_app. simpl. lia.
  - rewrite <- (matchPrefix_multi_record i v (junk ++ wireAll recs)) by done.
    f_equal. simpl. f_equal. rewrite <- (app_assoc i). f_equal. simpl. f_equal.
    by rewrite <- app_assoc.
Qed.

Lemma digitsValue_digits ds : forall acc,
  Forall (fun c => isDigit c = true) ds ->
  digitsValue acc ds =
    Some (foldl (fun acc c => 10 * acc + (Z.of_nat (nat_of_ascii c) - 48)) acc ds).
Proof.
  induction ds as [|d ds IH]; intros acc Hall; [done|].
  inversion Hall as [|? ? Hd Hds]; subst. simpl. rewrite Hd. by apply IH.
Qed.

Lemma Number_digits ds :
  Forall (fun c => isDigit c = true) ds -> Number (Some ds) = Int (decimalValue ds).
Proof. intros Hall. unfold Number. by rewrite digitsValue_digits. Qed.

(** The multi-record form returns the records of the segment, as
    numbers, in their order. *)
Lemma _parseMultiple_records junk0 recs :
  "#"%char ∉ junk0 -> Forall wellFormed recs ->
  _parseMultiple (junk0 ++ wireAll recs) = recordOf <$> recs.
Proof.
  intros Hj Hall. unfold _parseMultiple, matchAll.
  rewrite matchAll_multi_junk, matchAll_multi_records by done.
  change map with (@fmap list _). rewrite <- list_fmap_compose.
  apply Forall_fmap_ext_1. eapply Forall_impl; [exact Hall|].
  intros [[i v] junk] ((_ & Hi) & (_ & Hv) & _). simpl in *.
  rewrite lookup_insert_ne by done. rewrite !lookup_insert_eq.
  unfold recordOf. simpl. by rewrite !digitsValue_digits.
Qed.

Lemma indexOf_first c a : forall b, c ∉ a -> indexOf c (a ++ c :: b) = Z.of_nat (length a).
Proof.
  induction a as [|x a IH]; intros b Hc; simpl.
  - by rewrite Ascii.eqb_refl.
  - apply not_elem_of_cons in Hc as [Hx Hc].
    destruct (Ascii.eqb_spec x c); [congruence|].
    rewrite IH by done. destruct (Z.of_nat (length a) <? 0) eqn:E; lia.
Qed.

(** C7. A response segment that begins with the GSB3 header line: the
    header line, up to and including the first terminator, is dropped
    before the multi-record form is applied; and when [K] records
    [#<5 digits>=<5 digits>] follow the header, the response is the list of
    the [K] pairs (identifier, value), as numbers, in the order of the
    frame. *)
Theorem C7_block_parse (hdr junk0 : str) (recs : list WireRecord) (regex : option Regex) :
  CR ∉ hdr ->
  "#"%char ∉ junk0 ->
  Forall wellFormed recs ->
  substring (lit "GSB3" ++ hdr ++ [CR] ++ junk0 ++ wireAll recs)
            (indexOf CR (lit "GSB3" ++ hdr ++ [CR] ++ junk0 ++ wireAll recs) + 1)
    = junk0 ++ wireAll recs /\
  parseResponse (lit "GSB3" ++ hdr ++ [CR] ++ junk0 ++ wireAll recs) regex
    = (Return (VRecords (recordOf <$> recs)), []) /\
  length (recordOf <$> recs) = length recs.
Proof.
  intros Hhdr Hj Hall.
  assert (Hstrip : substring (lit "GSB3" ++ hdr ++ [CR] ++ junk0 ++ wireAll recs)
            (indexOf CR (lit "GSB3" ++ hdr ++ [CR] ++ junk0 ++ wireAll recs) + 1)
          = junk0 ++ wireAll recs).
  { rewrite (app_assoc (lit "GSB3") hdr).
    change ([CR] ++ junk0 ++ wireAll recs) with (CR :: (junk0 ++ wireAll recs)).
    rewrite indexOf_first.
    - unfold substring.
      replace (Z.to_nat (Z.of_nat (length (lit "GSB3" ++ hdr)) + 1))
        with (length ((lit "GSB3" ++ hdr) ++ [CR])) by (rewrite !length_app; simpl; lia).
      change (CR :: (junk0 ++ wireAll recs)) with ([CR] ++ (junk0 ++ wireAll recs)).
      rewrite (app_assoc _ [CR]). apply drop_app_length.
    - apply not_elem_of_app. split; [|done]. decide_by_computation. }
  split; [done|]. split; [|apply length_fmap].
  unfold parseResponse. rewrite decide_True by done.
  by rewrite Hstrip, _parseMultiple_records.
Qed.

Lemma C7_block_parse_witness :
  substring (lit "GSB3" ++ blockHeader ++ [CR] ++ [] ++ wireAll blockRecords)
            (indexOf CR (lit "GSB3" ++ blockHeader ++ [CR] ++ [] ++ wireAll blockRecords) + 1)
    = [] ++ wireAll blockRecords /\
  parseResponse (lit "GSB3" ++ blockHeader ++ [CR] ++ [] ++ wireAll blockRecords) None
    = (Return (VRecords (recordOf <$> blockRecords)), []) /\
  length (recordOf <$> blockRecords) = length blockRecords.
Proof.
  apply (C7_block_parse blockHeader [] blockRecords None).
  - decide_by_computation.
  - apply not_elem_of_nil.
  - repeat constructor; decide_by_computation.
Defined.

(** The block reply of the sample, received whole while the command of
    [controlGetBlock(1000, 2)] is in flight. *)
Example block_reply :
  exists command response,
    getCommand "controlGetBlock"
      (<["id"%string := JNumber (Int 1000)]> (<["size"%string := JNumber (Int 2)]> ∅))
      = Some (command, response) /\
    command = lit "$q GSB3 1000 2" ++ [CR] /\
    (run init [ESock Open; EReqToSend command response (Fn 1);
               EData (lit "GSB3" ++ blockHeader ++ [CR] ++ wireAll blockRecords)]).2
      = [SockWrite command; SetTimeout 0 2000;
         CallCb 1 None (VRecords [ {| id := Int 1000; value := Int 4096 |};
                                   {| id := Int 1001; value := Int 65535 |} ]);
         EmitReadyToSend].
Proof. eexists _, _. split; [reflexivity|]. split; reflexivity. Qed.

(** ** The validation of the caller-facing operations *)

Lemma validRange_Int z low high :
  validRange (JNumber (Int z)) low high = true <-> low <= z <= high.
Proof.
  unfold validRange.
  destruct (z <? low) eqn:E1; destruct (z >? high) eqn:E2; simpl; split; try done; lia.
Qed.

(** The identifiers that pass [validControlId] are the numbers from 0 to
    10000, and [NaN]. *)
Lemma validControlId_spec v :
  validControlId v = true <-> v = JNumber NaN \/ exists z, v = JNumber (Int z) /\ 0 <= z <= 10000.
Proof.
  unfold validControlId. destruct v as [[z|]|b|].
  - rewrite validRange_Int. split.
    + intros H. right. by exists z.
    + intros [H|(z' & [= <-] & H)]; [discriminate|done].
  - split; [by left|done].
  - split; [done|]. intros [H|(z & H & _)]; discriminate.
  - split; [done|]. intros [H|(z & H & _)]; discriminate.
Qed.

(** The operations hand their command to [reqToSend] whatever the
    validation says: the state and the effects of the call do not depend on
    it. *)
Lemma executor_sends_anyway invalid msg name inArgs p st :
  (executor invalid msg name inArgs p st).1.2 = (executor false msg name inArgs p st).1.2 /\
  (executor invalid msg name inArgs p st).2 = (executor false msg name inArgs p st).2.
Proof.
  unfold executor. destruct (getCommand name inArgs) as [[command response]|]; [|done].
  by destruct (reqToSend command response (Fn p) st) as [[c st'] effs].
Qed.

(** C5 does not hold on the code. [controlSet(1, 70000)] on an idle
    object with an open socket: the value is out of range and the promise
    is rejected, yet the command is built, written to the socket and put in
    flight; on a busy object it is appended to the queue. *)
Theorem C5_invalid_call_is_sent :
  validControlValue (JNumber (Int 70000)) = false /\
  controlSet (JNumber (Int 1)) (JNumber (Int 70000)) 7 openIdle =
    (Rejected (lit "controlSet invalid id 1 or value 70000"),
     {| _recvBuffer := []; _sendBuffer := []; _readyToSend := false;
        _nextResponse := Some ackNak; _nextCb := Some 7%nat; _noResponse := Some 0%nat;
        timers := [0%nat]; nextHandle := 1; readyState := Open |},
     [SockWrite (lit "$q CS 1 70000" ++ [CR]); SetTimeout 0 2000]) /\
  queued (controlSet (JNumber (Int 1)) (JNumber (Int 70000)) 7 (run init twoSubmitted).1).1.2
    = [2%nat; 7%nat].
Proof. split; [reflexivity|]. split; reflexivity. Qed.

(** C6 does not hold on the code. The identifier 0 passes
    [validControlId], and [controlGet(0)] is sent. *)
Theorem C6_control_id_zero_accepted :
  validControlId (JNumber (Int 0)) = true /\
  controlGet (JNumber (Int 0)) 7 openIdle =
    (Unsettled,
     {| _recvBuffer := []; _sendBuffer := []; _readyToSend := false;
        _nextResponse := Some c1Pattern; _nextCb := Some 7%nat; _noResponse := Some 0%nat;
        timers := [0%nat]; nextHandle := 1; readyState := Open |},
     [SockWrite (lit "$q GS2 0" ++ [CR]); SetTimeout 0 2000]).
Proof. split; reflexivity. Qed.

(** ** The single-record form *)

(** With a non-empty capture the single-record form does what its three
    tests say. *)
Lemma _parseSingle_ret data r m g s :
  exec r data = Some m -> groups m = Some g -> g !! "ret"%string = Some s -> s <> [] ->
  _parseSingle data (Some r) = (Return (VString s), []).
Proof.
  intros Hm Hg Hs Hne. unfold _parseSingle. simpl. rewrite Hm, Hg, Hs. by destruct s.
Qed.

Lemma _parseSingle_ack data r m g :
  exec r data = Some m -> groups m = Some g ->
  truthy (g !! "ret"%string) = false -> truthy (g !! "ack"%string) = true ->
  _parseSingle data (Some r) = (Return (VBool true), []).
Proof. intros Hm Hg H1 H2. unfold _parseSingle. simpl. by rewrite Hm, Hg, H1, H2. Qed.

Lemma _parseSingle_nak data r m g :
  exec r data = Some m -> groups m = Some g ->
  truthy (g !! "ret"%string) = false -> truthy (g !! "ack"%string) = false ->
  truthy (g !! "nak"%string) = true ->
  _parseSingle data (Some r) = (Return (VBool false), []).
Proof. intros Hm Hg H1 H2 H3. unfold _parseSingle. simpl. by rewrite Hm, Hg, H1, H2, H3. Qed.

Lemma _parseSingle_unrecognised data r m g :
  exec r data = Some m -> groups m = Some g ->
  truthy (g !! "ret"%string) = false -> truthy (g !! "ack"%string) = false ->
  truthy (g !! "nak"%string) = false ->
  _parseSingle data (Some r) = (Return VUndefined, [ConsoleError (lit "Unkown response format")]).
Proof. intros Hm Hg H1 H2 H3. unfold _parseSingle. simpl. by rewrite Hm, Hg, H1, H2, H3. Qed.

(** C8 does not hold on the code. The frame [GSYSS \r] arrives
    while the command of [getSystemString] is in flight: the match has a
    [ret] capture, the empty string, and the single-record form does not
    return it; it takes the branch of the unrecognised formats, logs, and
    the handler receives [undefined]. *)
Theorem C8_empty_capture_unrecognised :
  _nextResponse gsyssInFlight = Some gsyssPattern /\
  (exec gsyssPattern (lit "GSYSS " ++ [CR]) ≫= groups) ≫= (.!! "ret"%string) = Some [] /\
  _parseSingle (lit "GSYSS " ++ [CR]) (Some gsyssPattern) =
    (Return VUndefined, [ConsoleError (lit "Unkown response format")]) /\
  (step gsyssInFlight (EData (lit "GSYSS " ++ [CR]))).2 =
    [ConsoleError (lit "Unkown response format"); CallCb 1 None VUndefined; EmitReadyToSend].
Proof. split; [reflexivity|]. split; [reflexivity|]. split; reflexivity. Qed.

(** The scenarios of the command table. *)
Example scalar_get_reply :
  (run init [ESock Open; EReqToSend (lit "$q GS2 1000" ++ [CR]) c1Pattern (Fn 1);
             EData (lit "1000 04096" ++ [CR])]).2
    = [SockWrite (lit "$q GS2 1000" ++ [CR]); SetTimeout 0 2000;
       CallCb 1 None (VString (lit "04096")); EmitReadyToSend].
Proof. reflexivity. Qed.

Example nak_reply :
  (run init [ESock Open; EReqToSend (lit "$q CS 1 2" ++ [CR]) ackNak (Fn 1);
             EData (lit "NAK" ++ [CR])]).2
    = [SockWrite (lit "$q CS 1 2" ++ [CR]); SetTimeout 0 2000;
       CallCb 1 None (VBool false); EmitReadyToSend].
Proof. reflexivity. Qed.

(** What the handler does with a response segment that parses: the push
    segment, if any, is emitted first; then the handler of the command in
    flight receives the response, and the sequencer moves on. *)
Lemma onFrame_response data st pushData respData response effs f :
  segments (_nextResponse st) data = (pushData, Some respData) ->
  parseResponse respData (_nextResponse st) = (Return response, effs) ->
  _nextCb st = Some f ->
  exists pushed,
    onFrame data st =
      ((emitReadyToSend (clearTimer st)).1,
       pushed ++ effs ++ CallCb f None response :: (emitReadyToSend (clearTimer st)).2) /\
    pushed = match pushData with Some p => [EmitPush (_parseMultiple p)] | None => [] end.
Proof.
  intros Hseg Hparse Hcb. unfold onFrame. rewrite Hseg, Hparse.
  destruct (clearTimer_fields st) as (_ & _ & _ & -> & _ & _). rewrite Hcb.
  destruct (emitReadyToSend (clearTimer st)) as [st2 effs2]. simpl.
  by eexists.
Qed.

(** An unrecognised reply is reported and is not fatal: the handler of
    the command in flight is invoked, with [undefined]. *)
Lemma unrecognised_still_fires data st pushData respData f :
  segments (_nextResponse st) data = (pushData, Some respData) ->
  parseResponse respData (_nextResponse st) =
    (Return VUndefined, [ConsoleError (lit "Unkown response format")]) ->
  _nextCb st = Some f ->
  fired (onFrame data st).2 = [f] /\
  CallCb f None VUndefined ∈ (onFrame data st).2 /\
  ConsoleError (lit "Unkown response format") ∈ (onFrame data st).2.
Proof.
  intros Hseg Hparse Hcb.
  destruct (onFrame_response _ _ _ _ _ _ _ Hseg Hparse Hcb) as (pushed & -> & Hpushed).
  assert (Hq : Forall quiet pushed) by (subst pushed; destruct pushData; repeat constructor).
  simpl. split; [|split].
  - rewrite fired_app, quiet_fired by done. simpl.
    destruct (clearTimer_fields st) as (Hsb & Hrdy & _ & _ & _ & _).
    destruct (emitReadyToSend (clearTimer st)) as [st2 effs2] eqn:E. simpl.
    unfold emitReadyToSend, onReadyToSend, _send in E. simpl in E.
    destruct (_sendBuffer (clearTimer st)); [by injection E as <- <-|].
    destruct (writable _); by injection E as <- <-.
  - apply elem_of_app. right. apply elem_of_cons. right. apply elem_of_cons. by left.
  - apply elem_of_app. right. apply elem_of_cons. by left.
Qed.

(** ** After a refusal *)

(** Once the head of the queue has been refused by a socket that is not
    writable, the ready flag is down with nothing in flight and no timer:
    from then on no event makes the object write or invoke a handler, and
    the commands submitted pile up in the queue. *)
Lemma stalled_step st ev :
  _readyToSend st = false -> _nextCb st = None -> _nextResponse st = None -> timers st = [] ->
  (_readyToSend (step st ev).1 = false /\ _nextCb (step st ev).1 = None /\
   _nextResponse (step st ev).1 = None /\ timers (step st ev).1 = []) /\
  queued (step st ev).1 = queued st ++ submitted ev /\
  Forall quiet (step st ev).2.
Proof.
  destruct st as [rb q rdy nr nc nor tm nh rs]. simpl. intros -> -> -> ->.
  destruct ev as [command regex [f|]|chunk|h|rs']; simpl.
  - unfold queued. simpl. by rewrite fmap_app.
  - unfold queued. simpl. by rewrite app_nil_r.
  - unfold onData. destruct (endsWithCR chunk) eqn:Hcr.
    + rewrite onFrame_idle; [|done|].
      * unfold queued. simpl. rewrite app_nil_r. by repeat constructor.
      * simpl. rewrite endsWithCR_app; [done|]. by apply endsWithCR_nonempty.
    + unfold queued. simpl. by rewrite app_nil_r.
  - unfold queued. simpl. by rewrite app_nil_r.
  - unfold queued. simpl. by rewrite app_nil_r.
Qed.

Lemma stalled_forever evs : forall st,
  _readyToSend st = false -> _nextCb st = None -> _nextResponse st = None -> timers st = [] ->
  queued (run st evs).1 = queued st ++ submissions evs /\ Forall quiet (run st evs).2.
Proof.
  induction evs as [|ev evs IH]; intros st H1 H2 H3 H4.
  - simpl. by rewrite app_nil_r.
  - destruct (stalled_step st ev H1 H2 H3 H4) as ((H1' & H2' & H3' & H4') & Hq & Heffs).
    simpl. destruct (step st ev) as [st1 effs1]. simpl in *.
    destruct (IH st1 H1' H2' H3' H4') as (Hq2 & Heffs2).
    destruct (run st1 evs) as [st2 effs2]. simpl in *.
    split; [|by apply Forall_app].
    rewrite Hq2, Hq. unfold submissions. simpl. by rewrite app_assoc.
Qed.

(** The patterns of the samples are those of the command table. *)
Example sample_patterns :
  respRegex <$> lookupCommand "controlGet" commands = Some c1Pattern /\
  respRegex <$> lookupCommand "getSystemString" commands = Some gsyssPattern /\
  respRegex <$> lookupCommand "flashUnit" commands = Some ackNak.
Proof. repeat split. Qed.

(** ** The command builder *)

Lemma replace_unfold pat rep s :
  replace pat rep s =
    if startsWith pat s then rep ++ drop (length pat) s
    else match s with
         | [] => []
         | c :: s' => c :: replace pat rep s'
         end.
Proof. by destruct s. Qed.

Lemma startsWith_app pat s : startsWith pat (pat ++ s) = true.
Proof.
  induction pat as [|p pat IH]; simpl; [by destruct s|]. by rewrite Ascii.eqb_refl.
Qed.

(** A prefix that does not hold the first character of the pattern is
    left alone. *)
Lemma replace_skip p pat rep pre : forall s,
  p ∉ pre -> replace (p :: pat) rep (pre ++ s) = pre ++ replace (p :: pat) rep s.
Proof.
  induction pre as [|c pre IH]; intros s Hp; [done|].
  apply not_elem_of_cons in Hp as [Hc Hp].
  change ((c :: pre) ++ s) with (c :: (pre ++ s)). rewrite replace_unfold.
  simpl. destruct (Ascii.eqb_spec p c); [done|]. simpl. by rewrite IH.
Qed.

Lemma replace_here pat rep post : replace pat rep (pat ++ post) = rep ++ post.
Proof. by rewrite replace_unfold, startsWith_app, drop_app_length. Qed.

Lemma replace_absent p pat rep s : p ∉ s -> replace (p :: pat) rep s = s.
Proof.
  intros Hp. rewrite <- (app_nil_r s) at 1. rewrite replace_skip by done.
  by rewrite app_nil_r.
Qed.

Lemma trimStart_app a c b :
  isSpace c = false -> trimStart (a ++ c :: b) = trimStart a ++ c :: b.
Proof.
  intros Hc. induction a as [|x a IH]; simpl; [by rewrite Hc|].
  by destruct (isSpace x).
Qed.

Lemma trimStart_head s c : head (trimStart s) = Some c -> isSpace c = false.
Proof.
  induction s as [|x s IH]; simpl; [done|].
  destruct (isSpace x) eqn:E; [done|]. simpl. by intros [= <-].
Qed.

(** [trim] keeps a first character that is not a space and what follows
    it up to the last character that is not a space. *)
Lemma trim_from c x :
  isSpace c = false ->
  trim (c :: x) = c :: reverse (trimStart (reverse x)) /\
  forall d, last (c :: reverse (trimStart (reverse x))) = Some d -> isSpace d = false.
Proof.
  intros Hc. unfold trim. simpl. rewrite Hc. split.
  - rewrite reverse_cons. change (reverse x ++ [c]) with (reverse x ++ c :: []).
    rewrite trimStart_app by done. rewrite reverse_app. by rewrite reverse_singleton.
  - intros d. rewrite last_cons, last_reverse.
    destruct (head (trimStart (reverse x))) as [y|] eqn:E.
    + intros [= <-]. by apply trimStart_head in E.
    + by intros [= <-].
Qed.

Lemma trim_keep c x d :
  isSpace c = false -> last (c :: x) = Some d -> isSpace d = false -> trim (c :: x) = c :: x.
Proof.
  intros Hc Hd Hsp. destruct (trim_from c x Hc) as [-> _]. f_equal.
  destruct x as [|y x]; [done|].
  rewrite last_cons in Hd.
  destruct (last (y :: x)) as [e|] eqn:E; [|by apply last_None in E].
  injection Hd as ->. rewrite <- head_reverse in E.
  destruct (reverse (y :: x)) as [|e' r] eqn:Er; [done|]. simpl in E. injection E as ->.
  simpl. rewrite Hsp. rewrite <- Er. apply reverse_involutive.
Qed.

(** The decimal text of an integer: digits after an optional sign. *)
Lemma uint_digits d : Forall (fun c => isDigit c = true) (lit (NilEmpty.string_of_uint d)).
Proof. induction d; simpl; by constructor. Qed.

Lemma uint_last d :
  d <> Decimal.Nil ->
  exists c, last (lit (NilEmpty.string_of_uint d)) = Some c /\ isDigit c = true.
Proof.
  induction d as [|d IH|d IH|d IH|d IH|d IH|d IH|d IH|d IH|d IH|d IH]; intros Hd; [done|..];
    simpl; rewrite last_cons;
    (assert (d = Decimal.Nil \/ d <> Decimal.Nil) as [->|Hn]
       by (destruct d; [by left|by right..]);
     [simpl; by eexists|destruct (IH Hn) as (c & -> & Hc); by eexists]).
Qed.

Lemma decimal_digits z :
  Forall (fun c => isDigit c = true \/ c = "-"%char) (decimal z).
Proof.
  assert (Hu : forall d, Forall (fun c => isDigit c = true \/ c = "-"%char)
                           (lit (NilZero.string_of_uint d))).
  { intros d. eapply Forall_impl; [|intros c Hc; left; exact Hc].
    destruct d; [by repeat constructor|apply uint_digits..]. }
  unfold decimal. destruct (Z.to_int z) as [d|d]; simpl; [apply Hu|].
  constructor; [by right|apply Hu].
Qed.

Lemma decimal_last z : exists c, last (decimal z) = Some c /\ isDigit c = true.
Proof.
  assert (Hu : forall d, exists c, last (lit (NilZero.string_of_uint d)) = Some c /\ isDigit c = true).
  { intros d. destruct d; [by eexists|by apply uint_last..]. }
  unfold decimal. destruct (Z.to_int z) as [d|d]; simpl; [apply Hu|].
  rewrite last_cons. destruct (Hu d) as (c & -> & Hc). by eexists.
Qed.

Lemma isDigit_not_space c : isDigit c = true -> isSpace c = false.
Proof.
  unfold isDigit, isSpace. intros H. apply andb_true_iff in H as [H1 H2].
  apply Nat.leb_le in H1, H2.
  destruct (9 <=? nat_of_ascii c)%nat eqn:E1, (nat_of_ascii c <=? 13)%nat eqn:E2,
    (nat_of_ascii c =? 32)%nat eqn:E3, (nat_of_ascii c =? 160)%nat eqn:E4; simpl; try done;
    try apply Nat.leb_le in E2; try apply Nat.eqb_eq in E3; try apply Nat.eqb_eq in E4; lia.
Qed.

(** The text of a value holds no brace, and ends with a character that
    is not a space. *)
Lemma toString_no_brace v : "{"%char ∉ toString v.
Proof.
  destruct v as [[z|]|[|]|]; simpl; try decide_by_computation.
  intros Hin. pose proof (decimal_digits z) as Hd.
  rewrite Forall_forall in Hd. by destruct (Hd _ Hin).
Qed.

Lemma toString_last v : exists c, last (toString v) = Some c /\ isSpace c = false.
Proof.
  destruct v as [[z|]|[|]|]; simpl; try (by eexists).
  destruct (decimal_last z) as (c & Hc & Hd). exists c. split; [done|].
  by apply isDigit_not_space.
Qed.

Lemma substArg_prefix pre acc a :
  "{"%char ∉ pre -> (exists x, acc.1 = pre ++ x) -> exists x, (substArg acc a).1 = pre ++ x.
Proof.
  intros Hpre [x Hx]. destruct acc as [cmd inArgs], a as [arg placeholder]. simpl in Hx. subst cmd.
  unfold substArg.
  destruct (String.eqb arg "decinc"); [|destruct (String.eqb arg "enable")]; simpl;
    rewrite replace_skip by done; by eexists.
Qed.

Lemma foldl_substArg_prefix pre l : forall acc,
  "{"%char ∉ pre -> (exists x, acc.1 = pre ++ x) -> exists x, (foldl substArg acc l).1 = pre ++ x.
Proof.
  induction l as [|a l IH]; intros acc Hpre Hacc; [done|].
  simpl. apply IH; [done|]. by apply substArg_prefix.
Qed.

Lemma lookupCommand_Forall (P : CommandSpec -> Prop) name l c :
  Forall (fun nc => P nc.2) l -> lookupCommand name l = Some c -> P c.
Proof.
  induction 1 as [|[n c'] l Hc _ IH]; simpl; [done|].
  destruct (String.eqb n name); [by intros [= <-]|done].
Qed.

(** Every mnemonic of the table starts with a character that is neither
    a space nor a brace. *)
Lemma commands_heads :
  Forall (fun nc : string * CommandSpec =>
            exists c, head (base nc.2) = Some c /\ c <> "{"%char /\ isSpace c = false) commands.
Proof. repeat constructor; by eexists. Qed.

Lemma trim_quiet c x :
  isSpace c = false ->
  trim (lit "$q " ++ c :: x) = lit "$q " ++ c :: reverse (trimStart (reverse x)) /\
  forall d, last (c :: reverse (trimStart (reverse x))) = Some d -> isSpace d = false.
Proof.
  intros Hc. split.
  - unfold trim. change (trimStart (lit "$q " ++ c :: x)) with (lit "$q " ++ c :: x).
    change (lit "$q " ++ c :: x) with ([ "$"%char; "q"%char; " "%char; c ] ++ x).
    rewrite reverse_app.
    change (reverse [ "$"%char; "q"%char; " "%char; c ]) with (c :: lit " q$").
    rewrite trimStart_app by done. rewrite reverse_app. done.
  - intros d. rewrite last_cons, last_reverse.
    destruct (head (trimStart (reverse x))) as [y|] eqn:E.
    + intros [= <-]. by apply trimStart_head in E.
    + by intros [= <-].
Qed.

(** X1. For every name of the command table (the names that the
    operations of the class pass) and whatever the arguments, the builder
    returns a command and the pattern of the entry; the command is the
    quiet-mode marker [$q], a space, the text that starts with the first
    character of the mnemonic and ends with a character that is not a
    space, and the terminator. *)
Theorem buildCommandString_shape (name : string) (spec : CommandSpec) (inArgs : InArgs) :
  lookupCommand name commands = Some spec ->
  exists c body,
    buildCommandString name inArgs = Some (lit "$q " ++ c :: body ++ [CR], respRegex spec) /\
    head (base spec) = Some c /\
    forall d, last (c :: body) = Some d -> isSpace d = false.
Proof.
  intros E. unfold buildCommandString. rewrite E.
  destruct (lookupCommand_Forall
              (fun spec => exists c, head (base spec) = Some c /\ c <> "{"%char /\ isSpace c = false)
              _ _ _ commands_heads E) as (c & Hc & Hb & Hsp).
  destruct (base spec) as [|c' b] eqn:Eb; [done|]. injection Hc as ->.
  destruct (foldl_substArg_prefix (lit "$q " ++ [c]) (args spec) (lit "$q " ++ c :: b, inArgs))
    as [x Hx].
  { intros Hin. repeat (apply elem_of_cons in Hin as [Hin|Hin]; [by subst|]).
    by apply elem_of_nil in Hin. }
  { by exists b. }
  rewrite Hx. change ((lit "$q " ++ [c]) ++ x) with (lit "$q " ++ c :: x).
  destruct (trim_quiet c x Hsp) as [-> Hlast].
  exists c, (reverse (trimStart (reverse x))).
  split; [done|]. split; [done|exact Hlast].
Qed.

Lemma buildCommandString_shape_witness :
  exists c body,
    buildCommandString "pushState"
      (<["enable"%string := JBoolean true]>
         (<["low"%string := JNumber (Int 1)]> (<["high"%string := JNumber (Int 10000)]> ∅))) =
      Some (lit "$q " ++ c :: body ++ [CR], ackNak) /\
    head (lit "PU{EN} {LOW} {HIGH}") = Some c /\
    forall d, last (c :: body) = Some d -> isSpace d = false.
Proof.
  apply (buildCommandString_shape "pushState"
           {| base := lit "PU{EN} {LOW} {HIGH}";
              args := [("enable", "EN"); ("low", "LOW"); ("high", "HIGH")]%string;
              respRegex := ackNak |}).
  reflexivity.
Defined.

(** ** The wire text of the operations *)

Lemma executor_getCommand invalid msg name inArgs p st command response :
  getCommand name inArgs = Some (command, response) ->
  executor invalid msg name inArgs p st =
    (if invalid then Rejected msg else Unsettled,
     (reqToSend command response (Fn p) st).1.2,
     (reqToSend command response (Fn p) st).2).
Proof.
  intros H. unfold executor. rewrite H.
  by destruct (reqToSend command response (Fn p) st) as [[c st'] effs].
Qed.

(** One turn of the loop for an argument without a special case: the
    text of its value, or nothing when it is missing or [undefined]. *)
Lemma substArg_value cmd (inArgs : InArgs) arg placeholder v :
  String.eqb arg "decinc" = false -> String.eqb arg "enable" = false ->
  inArgs !! arg = Some v -> v <> JUndefined ->
  substArg (cmd, inArgs) (arg, placeholder) =
    (replace ("{"%char :: lit placeholder ++ lit "}") (toString v) cmd, inArgs).
Proof.
  intros H1 H2 Hv Hu. unfold substArg. rewrite H1, H2, Hv. simpl. by destruct v.
Qed.


Ltac skip_segment seg :=
  rewrite (replace_skip "{"%char _ _ seg)
    by first [decide_by_computation | apply toString_no_brace | assumption].

Ltac lookup_arg :=
  repeat first [rewrite lookup_insert_eq | rewrite lookup_insert_ne by done | rewrite lookup_empty].

Lemma last_app_Some {A : Type} (a b : list A) d : last b = Some d -> last (a ++ b) = Some d.
Proof. intros H. by rewrite last_app, H. Qed.

Lemma getCommand_controlSet i v :
  getCommand "controlSet"
    (<["id"%string := JNumber (Int i)]> (<["value"%string := JNumber (Int v)]> ∅)) =
  Some (lit "$q CS " ++ decimal i ++ lit " " ++ decimal v ++ [CR], ackNak).
Proof.
  unfold getCommand, buildCommandString.
  change (lookupCommand "controlSet" commands)
    with (Some {| base := lit "CS {CID} {VAL}";
                  args := [("id", "CID"); ("value", "VAL")]%string; respRegex := ackNak |}).
  cbn [base args respRegex foldl].
  rewrite (substArg_value _ _ "id" "CID" (JNumber (Int i))) by (done || by lookup_arg).
  rewrite (substArg_value _ _ "value" "VAL" (JNumber (Int v))) by (done || by lookup_arg).
  cbn [fst toString].
  pose proof (toString_no_brace (JNumber (Int i))) as Hi. cbn [toString] in Hi.
  destruct (decimal_last v) as (d & Hd & Hdig). apply isDigit_not_space in Hdig.
  generalize dependent (decimal v). generalize dependent (decimal i). intros a Ha b Hb.
  change (replace _ a _) with
    (replace ("{"%char :: lit "CID}") a (lit "$q CS " ++ ("{"%char :: lit "CID}") ++ lit " {VAL}")).
  skip_segment (lit "$q CS "). rewrite replace_here.
  change (replace _ b _) with
    (replace ("{"%char :: lit "VAL}") b
       (lit "$q CS " ++ a ++ lit " " ++ ("{"%char :: lit "VAL}") ++ [])).
  skip_segment (lit "$q CS "). skip_segment a. skip_segment (lit " "). rewrite replace_here.
  rewrite app_nil_r.
  change (lit "$q CS " ++ a ++ lit " " ++ b) with ("$"%char :: (lit "q CS " ++ a ++ lit " " ++ b)).
  rewrite (trim_keep _ _ d); [|done| |done].
  - simpl. by rewrite <- !app_assoc.
  - rewrite last_cons. replace (last (lit "q CS " ++ a ++ lit " " ++ b)) with (Some d); [done|].
    symmetry. by repeat apply last_app_Some.
Qed.

(** The end of a proof about a built command: [trim] changes nothing in
    a text that begins with [$] and ends with [d]. *)
Ltac trim_done d :=
  match goal with
  | |- context [trim (lit ?s ++ ?rest)] =>
      change (trim (lit s ++ rest)) with (trim ("$"%char :: (drop 1 (lit s) ++ rest)));
      rewrite (trim_keep "$"%char (drop 1 (lit s) ++ rest) d);
      [ repeat (simpl; rewrite <- app_assoc); reflexivity
      | done
      | rewrite last_cons;
        replace (last (drop 1 (lit s) ++ rest)) with (Some d);
        [done | symmetry; by repeat apply last_app_Some]
      | done ]
  end.

Lemma getCommand_controlGet i :
  getCommand "controlGet" (<["id"%string := JNumber (Int i)]> ∅) =
  Some (lit "$q GS2 " ++ decimal i ++ [CR], c1Pattern).
Proof.
  unfold getCommand, buildCommandString.
  change (lookupCommand "controlGet" commands)
    with (Some {| base := lit "GS2 {CID}"; args := [("id", "CID")]%string;
                  respRegex := c1Pattern |}).
  cbn [base args respRegex foldl].
  rewrite (substArg_value _ _ "id" "CID" (JNumber (Int i))) by (done || by lookup_arg).
  cbn [fst toString].
  destruct (decimal_last i) as (d & Hd & Hdig). apply isDigit_not_space in Hdig.
  generalize dependent (decimal i). intros a Ha.
  change (replace _ a _) with
    (replace ("{"%char :: lit "CID}") a (lit "$q GS2 " ++ ("{"%char :: lit "CID}") ++ [])).
  skip_segment (lit "$q GS2 "). rewrite replace_here, app_nil_r.
  trim_done d.
Qed.

Lemma getCommand_controlGetBlock i n :
  getCommand "controlGetBlock"
    (<["id"%string := JNumber (Int i)]> (<["size"%string := JNumber (Int n)]> ∅)) =
  Some (lit "$q GSB3 " ++ decimal i ++ lit " " ++ decimal n ++ [CR], blockPattern).
Proof.
  unfold getCommand, buildCommandString.
  change (lookupCommand "controlGetBlock" commands)
    with (Some {| base := lit "GSB3 {CID} {SIZE}";
                  args := [("id", "CID"); ("size", "SIZE")]%string;
                  respRegex := blockPattern |}).
  cbn [base args respRegex foldl].
  rewrite (substArg_value _ _ "id" "CID" (JNumber (Int i))) by (done || by lookup_arg).
  rewrite (substArg_value _ _ "size" "SIZE" (JNumber (Int n))) by (done || by lookup_arg).
  cbn [fst toString].
  pose proof (toString_no_brace (JNumber (Int i))) as Hi. cbn [toString] in Hi.
  destruct (decimal_last n) as (d & Hd & Hdig). apply isDigit_not_space in Hdig.
  generalize dependent (decimal n). generalize dependent (decimal i). intros a Ha b Hb.
  change (replace _ a _) with
    (replace ("{"%char :: lit "CID}") a
       (lit "$q GSB3 " ++ ("{"%char :: lit "CID}") ++ lit " {SIZE}")).
  skip_segment (lit "$q GSB3 "). rewrite replace_here.
  change (replace _ b _) with
    (replace ("{"%char :: lit "SIZE}") b
       (lit "$q GSB3 " ++ a ++ lit " " ++ ("{"%char :: lit "SIZE}") ++ [])).
  skip_segment (lit "$q GSB3 "). skip_segment a. skip_segment (lit " "). rewrite replace_here.
  rewrite app_nil_r. trim_done d.
Qed.

(** The sign of the change goes to the flag (1 for an increment, 0 for a
    decrement), and the amount that follows is its absolute value. *)
Lemma getCommand_changeController i v :
  getCommand "changeController"
    (<["id"%string := JNumber (Int i)]> (<["value"%string := JNumber (Int v)]> ∅)) =
  Some (lit "$q CC " ++ decimal i ++ lit " " ++ lit (if 0 <=? v then "1" else "0")
          ++ lit " " ++ decimal (Z.abs v) ++ [CR], ackNak).
Proof.
  unfold getCommand, buildCommandString.
  change (lookupCommand "changeController" commands)
    with (Some {| base := lit "CC {CID} {DECINC} {VAL}";
                  args := [("id", "CID"); ("decinc", "DECINC"); ("value", "VAL")]%string;
                  respRegex := ackNak |}).
  cbn [base args respRegex foldl].
  rewrite (substArg_value _ _ "id" "CID" (JNumber (Int i))) by (done || by lookup_arg).
  set (inArgs := <["id"%string := JNumber (Int i)]> (<["value"%string := JNumber (Int v)]> ∅)).
  assert (Hdec : forall cmd,
            substArg (cmd, inArgs) ("decinc"%string, "DECINC"%string) =
              (replace ("{"%char :: lit "DECINC}") (lit (if 0 <=? v then "1" else "0")) cmd,
               <["value"%string := JNumber (Int (Z.abs v))]> inArgs)).
  { intros cmd. unfold substArg. cbn [String.eqb Ascii.eqb Bool.eqb]. subst inArgs. by lookup_arg. }
  rewrite Hdec. clear Hdec. subst inArgs.
  rewrite (substArg_value _ _ "value" "VAL" (JNumber (Int (Z.abs v)))) by (done || by lookup_arg).
  cbn [fst toString].
  pose proof (toString_no_brace (JNumber (Int i))) as Hi. cbn [toString] in Hi.
  destruct (decimal_last (Z.abs v)) as (d & Hd & Hdig). apply isDigit_not_space in Hdig.
  assert (Hs : "{"%char ∉ lit (if 0 <=? v then "1" else "0"))
    by (destruct (0 <=? v); decide_by_computation).
  generalize dependent (decimal (Z.abs v)). generalize dependent (decimal i).
  generalize dependent (lit (if 0 <=? v then "1" else "0")). intros s Hs a Ha b Hb.
  change (replace _ a _) with
    (replace ("{"%char :: lit "CID}") a
       (lit "$q CC " ++ ("{"%char :: lit "CID}") ++ lit " {DECINC} {VAL}")).
  skip_segment (lit "$q CC "). rewrite replace_here.
  change (replace _ s _) with
    (replace ("{"%char :: lit "DECINC}") s
       (lit "$q CC " ++ a ++ lit " " ++ ("{"%char :: lit "DECINC}") ++ lit " {VAL}")).
  skip_segment (lit "$q CC "). skip_segment a. skip_segment (lit " "). rewrite replace_here.
  change (replace _ b _) with
    (replace ("{"%char :: lit "VAL}") b
       (lit "$q CC " ++ a ++ lit " " ++ s ++ lit " " ++ ("{"%char :: lit "VAL}") ++ [])).
  skip_segment (lit "$q CC "). skip_segment a. skip_segment (lit " "). skip_segment s.
  skip_segment (lit " "). rewrite replace_here.
  rewrite app_nil_r. trim_done d.
Qed.


Lemma substArg_enable cmd (inArgs : InArgs) placeholder :
  substArg (cmd, inArgs) ("enable"%string, placeholder) =
    (replace ("{"%char :: lit placeholder ++ lit "}")
       (lit (if toBoolean (default JUndefined (inArgs !! "enable"%string)) then "E" else "D")) cmd,
     inArgs).
Proof. reflexivity. Qed.

Lemma orDefault_defined d v : orDefault d v <> JUndefined.
Proof. by destruct v. Qed.

Lemma getCommand_pushState enable low high :
  low <> JUndefined -> high <> JUndefined ->
  getCommand "pushState"
    (<["enable"%string := enable]> (<["low"%string := low]> (<["high"%string := high]> ∅))) =
  Some (lit "$q PU" ++ lit (if toBoolean enable then "E" else "D") ++ lit " " ++ toString low
          ++ lit " " ++ toString high ++ [CR], ackNak).
Proof.
  intros Hlow Hhigh. unfold getCommand, buildCommandString.
  change (lookupCommand "pushState" commands)
    with (Some {| base := lit "PU{EN} {LOW} {HIGH}";
                  args := [("enable", "EN"); ("low", "LOW"); ("high", "HIGH")]%string;
                  respRegex := ackNak |}).
  cbn [base args respRegex foldl].
  rewrite substArg_enable. lookup_arg. cbn [default from_option Datatypes.id].
  rewrite (substArg_value _ _ "low" "LOW" low) by (done || by lookup_arg).
  rewrite (substArg_value _ _ "high" "HIGH" high) by (done || by lookup_arg).
  cbn [fst].
  pose proof (toString_no_brace low) as Hl.
  destruct (toString_last high) as (d & Hd & Hsp).
  assert (Hs : "{"%char ∉ lit (if toBoolean enable then "E" else "D"))
    by (destruct (toBoolean enable); decide_by_computation).
  generalize dependent (toString high). generalize dependent (toString low).
  generalize dependent (lit (if toBoolean enable then "E" else "D")). intros s Hs a Ha b Hb.
  change (replace _ s _) with
    (replace ("{"%char :: lit "EN}") s
       (lit "$q PU" ++ ("{"%char :: lit "EN}") ++ lit " {LOW} {HIGH}")).
  skip_segment (lit "$q PU"). rewrite replace_here.
  change (replace _ a _) with
    (replace ("{"%char :: lit "LOW}") a
       (lit "$q PU" ++ s ++ lit " " ++ ("{"%char :: lit "LOW}") ++ lit " {HIGH}")).
  skip_segment (lit "$q PU"). skip_segment s. skip_segment (lit " "). rewrite replace_here.
  change (replace _ b _) with
    (replace ("{"%char :: lit "HIGH}") b
       (lit "$q PU" ++ s ++ lit " " ++ a ++ lit " " ++ ("{"%char :: lit "HIGH}") ++ [])).
  skip_segment (lit "$q PU"). skip_segment s. skip_segment (lit " "). skip_segment a.
  skip_segment (lit " "). rewrite replace_here.
  rewrite app_nil_r. trim_done d.
Qed.

Lemma getCommand_setPushThreshold meter other :
  meter <> JUndefined -> other <> JUndefined ->
  getCommand "setPushThreshold"
    (<["meter"%string := meter]> (<["other"%string := other]> ∅)) =
  Some (lit "$q PUT " ++ toString other ++ lit " " ++ toString meter ++ [CR], ackNak).
Proof.
  intros Hm Ho. unfold getCommand, buildCommandString.
  change (lookupCommand "setPushThreshold" commands)
    with (Some {| base := lit "PUT {PARAM_THRESH} {METER_THRESH}";
                  args := [("other", "PARAM_THRESH"); ("meter", "METER_THRESH")]%string;
                  respRegex := ackNak |}).
  cbn [base args respRegex foldl].
  rewrite (substArg_value _ _ "other" "PARAM_THRESH" other) by (done || by lookup_arg).
  rewrite (substArg_value _ _ "meter" "METER_THRESH" meter) by (done || by lookup_arg).
  cbn [fst].
  pose proof (toString_no_brace other) as Hl.
  destruct (toString_last meter) as (d & Hd & Hsp).
  generalize dependent (toString meter). generalize dependent (toString other).
  intros a Ha b Hb.
  change (replace _ a _) with
    (replace ("{"%char :: lit "PARAM_THRESH}") a
       (lit "$q PUT " ++ ("{"%char :: lit "PARAM_THRESH}") ++ lit " {METER_THRESH}")).
  skip_segment (lit "$q PUT "). rewrite replace_here.
  change (replace _ b _) with
    (replace ("{"%char :: lit "METER_THRESH}") b
       (lit "$q PUT " ++ a ++ lit " " ++ ("{"%char :: lit "METER_THRESH}") ++ [])).
  skip_segment (lit "$q PUT "). skip_segment a. skip_segment (lit " "). rewrite replace_here.
  rewrite app_nil_r. trim_done d.
Qed.

Lemma validRange_decide z low high :
  validRange (JNumber (Int z)) low high = bool_decide (low <= z <= high).
Proof.
  destruct (validRange (JNumber (Int z)) low high) eqn:E.
  - apply validRange_Int in E. by rewrite bool_decide_true.
  - rewrite bool_decide_false; [done|]. intros H. apply validRange_Int in H. congruence.
Qed.

Lemma settled_two (A B : Prop) `{Decision A, Decision B} (msg : str) :
  (if negb (bool_decide A) || negb (bool_decide B) then Rejected msg else Unsettled) =
  (if decide (A /\ B) then Unsettled else Rejected msg).
Proof.
  destruct (decide (A /\ B)) as [[HA HB]|Hn].
  - by rewrite !bool_decide_true.
  - destruct (bool_decide A) eqn:EA, (bool_decide B) eqn:EB; simpl; try done.
    apply bool_decide_eq_true in EA, EB. by destruct Hn.
Qed.

Lemma settled_one (A : Prop) `{Decision A} (msg : str) :
  (if negb (bool_decide A) then Rejected msg else Unsettled) =
  (if decide A then Unsettled else Rejected msg).
Proof.
  destruct (decide A) as [HA|Hn].
  - by rewrite bool_decide_true.
  - by rewrite bool_decide_false.
Qed.

(** X2. With arguments that are safe integers (below 2^53 in absolute
    value, which JavaScript prints in plain decimal), [controlSet],
    [controlGet] and [controlGetBlock] hand to [reqToSend] the commands
    [$q CS id value], [$q GS2 id] and [$q GSB3 id size], terminated, with
    the pattern of the table and a handler that settles the promise; the
    promise is rejected at once exactly when an argument is out of its
    range, and the command is handed over in that case too. *)
Theorem control_operations_send (i v n : Z) (p : nat) (st : State) :
  isSafeInteger i -> isSafeInteger v -> isSafeInteger n ->
  controlSet (JNumber (Int i)) (JNumber (Int v)) p st =
    (if decide (0 <= i <= 10000 /\ 0 <= v <= 65535) then Unsettled
     else Rejected (lit "controlSet invalid id " ++ decimal i ++ lit " or value " ++ decimal v),
     (reqToSend (lit "$q CS " ++ decimal i ++ lit " " ++ decimal v ++ [CR]) ackNak (Fn p) st).1.2,
     (reqToSend (lit "$q CS " ++ decimal i ++ lit " " ++ decimal v ++ [CR]) ackNak (Fn p) st).2) /\
  controlGet (JNumber (Int i)) p st =
    (if decide (0 <= i <= 10000) then Unsettled
     else Rejected (lit "controlGet invalid id " ++ decimal i),
     (reqToSend (lit "$q GS2 " ++ decimal i ++ [CR]) c1Pattern (Fn p) st).1.2,
     (reqToSend (lit "$q GS2 " ++ decimal i ++ [CR]) c1Pattern (Fn p) st).2) /\
  controlGetBlock (JNumber (Int i)) (JNumber (Int n)) p st =
    (if decide (0 <= i <= 10000 /\ 1 <= n <= 256) then Unsettled
     else Rejected (lit "controlGetBlock invalid id " ++ decimal i ++ lit " or size " ++ decimal n),
     (reqToSend (lit "$q GSB3 " ++ decimal i ++ lit " " ++ decimal n ++ [CR])
        blockPattern (Fn p) st).1.2,
     (reqToSend (lit "$q GSB3 " ++ decimal i ++ lit " " ++ decimal n ++ [CR])
        blockPattern (Fn p) st).2).
Proof.
  intros _ _ _. split; [|split].
  - unfold controlSet. rewrite (executor_getCommand _ _ _ _ _ _ _ _ (getCommand_controlSet i v)).
    unfold validControlId, validControlValue. rewrite !validRange_decide.
    by rewrite settled_two.
  - unfold controlGet. rewrite (executor_getCommand _ _ _ _ _ _ _ _ (getCommand_controlGet i)).
    unfold validControlId. rewrite !validRange_decide. by rewrite settled_one.
  - unfold controlGetBlock.
    rewrite (executor_getCommand _ _ _ _ _ _ _ _ (getCommand_controlGetBlock i n)).
    unfold validControlId. rewrite !validRange_decide. by rewrite settled_two.
Qed.

Lemma control_operations_send_witness :
  (controlSet (JNumber (Int 1000)) (JNumber (Int 70000)) 1 openIdle).1.1 =
    Rejected (lit "controlSet invalid id 1000 or value 70000") /\
  (controlSet (JNumber (Int 1000)) (JNumber (Int 70000)) 1 openIdle).2 =
    [SockWrite (lit "$q CS 1000 70000" ++ [CR]); SetTimeout 0 2000] /\
  (controlGetBlock (JNumber (Int 1000)) (JNumber (Int 16)) 1 openIdle).2 =
    [SockWrite (lit "$q GSB3 1000 16" ++ [CR]); SetTimeout 0 2000].
Proof.
  destruct (control_operations_send 1000 70000 16 1 openIdle) as (H1 & _ & H3);
    [unfold isSafeInteger; lia..|].
  rewrite H1, H3. repeat split; reflexivity.
Defined.

(** X3. [controlChange(id, value)] with safe integers sends
    [$q CC id flag amount]: the flag is 1 when the value is not negative and
    0 when it is, and the amount is the absolute value, so that the sign is
    never written; the promise is rejected at once exactly when an argument
    is out of its range. *)
Theorem controlChange_send (i v : Z) (p : nat) (st : State) :
  isSafeInteger i -> isSafeInteger v ->
  controlChange (JNumber (Int i)) (JNumber (Int v)) p st =
    (if decide (0 <= i <= 10000 /\ -65535 <= v <= 65535) then Unsettled
     else Rejected (lit "controlChange invalid id " ++ decimal i ++ lit " or value " ++ decimal v),
     (reqToSend (lit "$q CC " ++ decimal i ++ lit " " ++ lit (if 0 <=? v then "1" else "0")
                   ++ lit " " ++ decimal (Z.abs v) ++ [CR]) ackNak (Fn p) st).1.2,
     (reqToSend (lit "$q CC " ++ decimal i ++ lit " " ++ lit (if 0 <=? v then "1" else "0")
                   ++ lit " " ++ decimal (Z.abs v) ++ [CR]) ackNak (Fn p) st).2).
Proof.
  intros _ _. unfold controlChange.
  rewrite (executor_getCommand _ _ _ _ _ _ _ _ (getCommand_changeController i v)).
  unfold validControlId. rewrite !validRange_decide. by rewrite settled_two.
Qed.

Lemma controlChange_send_witness :
  (controlChange (JNumber (Int 1000)) (JNumber (Int (-250))) 1 openIdle).2 =
    [SockWrite (lit "$q CC 1000 0 250" ++ [CR]); SetTimeout 0 2000].
Proof.
  rewrite (controlChange_send 1000 (-250) 1 openIdle); [reflexivity|unfold isSafeInteger; lia..].
Defined.


(** X5. [pushState(enable, { low, high })], for bounds that are safe
    integers, [NaN], booleans or left out, sends [$q PUE low high] when
    [enable] is truthy and [$q PUD low high] when it is not, with 1 and
    10000 for the bounds that are left out; the bounds are not checked, and
    the promise is rejected at once only when [enable] is [undefined]. *)
Theorem pushState_send (enable low high : JsValue) (p : nat) (st : State) :
  printable low -> printable high ->
  pushState enable low high p st =
    (if isUndefined enable then Rejected (lit "pushState enable/disable not set") else Unsettled,
     (reqToSend (lit "$q PU" ++ lit (if toBoolean enable then "E" else "D") ++ lit " "
                   ++ toString (orDefault 1 low) ++ lit " " ++ toString (orDefault 10000 high)
                   ++ [CR]) ackNak (Fn p) st).1.2,
     (reqToSend (lit "$q PU" ++ lit (if toBoolean enable then "E" else "D") ++ lit " "
                   ++ toString (orDefault 1 low) ++ lit " " ++ toString (orDefault 10000 high)
                   ++ [CR]) ackNak (Fn p) st).2).
Proof.
  intros _ _. unfold pushState.
  by rewrite (executor_getCommand _ _ _ _ _ _ _ _
                (getCommand_pushState enable _ _ (orDefault_defined 1 low)
                   (orDefault_defined 10000 high))).
Qed.

Lemma pushState_send_witness :
  (pushState (JBoolean false) (JNumber (Int 200)) JUndefined 1 openIdle).2 =
    [SockWrite (lit "$q PUD 200 10000" ++ [CR]); SetTimeout 0 2000].
Proof.
  rewrite (pushState_send (JBoolean false) (JNumber (Int 200)) JUndefined 1 openIdle);
    [reflexivity|unfold printable, isSafeInteger; lia|exact I].
Defined.

(** X6. [pushThreshold({ meter, other })], for thresholds that are safe
    integers, [NaN], booleans or left out, sends [$q PUT other meter]: the
    threshold of the parameters first, then that of the meters, each 1
    when left out; the promise is left unsettled exactly when both are
    numbers. *)
Theorem pushThreshold_send (meter other : JsValue) (p : nat) (st : State) :
  printable meter -> printable other ->
  (pushThreshold meter other p st).1.2 =
    (reqToSend (lit "$q PUT " ++ toString (orDefault 1 other) ++ lit " "
                  ++ toString (orDefault 1 meter) ++ [CR]) ackNak (Fn p) st).1.2 /\
  (pushThreshold meter other p st).2 =
    (reqToSend (lit "$q PUT " ++ toString (orDefault 1 other) ++ lit " "
                  ++ toString (orDefault 1 meter) ++ [CR]) ackNak (Fn p) st).2 /\
  ((pushThreshold meter other p st).1.1 = Unsettled <->
     isNumber (orDefault 1 meter) = true /\ isNumber (orDefault 1 other) = true).
Proof.
  intros _ _. unfold pushThreshold.
  rewrite (executor_getCommand _ _ _ _ _ _ _ _
             (getCommand_setPushThreshold _ _ (orDefault_defined 1 meter)
                (orDefault_defined 1 other))).
  simpl. repeat split.
  - destruct (isNumber (orDefault 1 meter)); [done|]. simpl. discriminate.
  - destruct (isNumber (orDefault 1 meter)), (isNumber (orDefault 1 other)); simpl; done.
  - intros [-> ->]. done.
Qed.

Lemma pushThreshold_send_witness :
  (pushThreshold (JNumber (Int 3)) JUndefined 1 openIdle).2 =
    [SockWrite (lit "$q PUT 1 3" ++ [CR]); SetTimeout 0 2000] /\
  (pushThreshold (JNumber (Int 3)) JUndefined 1 openIdle).1.1 = Unsettled.
Proof.
  destruct (pushThreshold_send (JNumber (Int 3)) JUndefined 1 openIdle)
    as (_ & H2 & H3); [unfold printable, isSafeInteger; lia|exact I|].
  split; [by rewrite H2|]. by apply H3.
Defined.

(** ** The multi-record form on any input *)

Lemma matchRep_run_inv {A : Type} cs s : forall lo hi (k : str -> option A) x,
  matchRep cs lo hi s k = Some x ->
  exists ds rest,
    s = ds ++ rest /\ Forall (fun c => inSet cs c = true) ds /\ (lo <= length ds)%nat /\
    (forall n, hi = Some n -> (length ds <= n)%nat) /\ k rest = Some x.
Proof.
  induction s as [|c s IH]; intros lo hi k x; simpl.
  - destruct lo; [|discriminate]. intros H. exists [], []. repeat split; try done.
    intros n _. simpl. lia.
  - assert (Hstop : match lo with 0%nat => k (c :: s) | S _ => None end = Some x ->
              exists ds rest, c :: s = ds ++ rest /\ Forall (fun c => inSet cs c = true) ds /\
                (lo <= length ds)%nat /\ (forall n, hi = Some n -> (length ds <= n)%nat) /\
                k rest = Some x).
    { destruct lo; [|discriminate]. intros H. exists [], (c :: s). repeat split; try done.
      intros n _. simpl. lia. }
    destruct (inSet cs c) eqn:Ec; [|done]. destruct (canRepeat hi) eqn:Eh; [|done]. simpl.
    destruct (matchRep cs (Nat.pred lo) (Nat.pred <$> hi) s k) as [y|] eqn:E; [|done].
    intros [= <-]. apply IH in E as (ds & rest & -> & Hds & Hlo & Hhi & Hk).
    exists (c :: ds), rest. repeat split; try done.
    + by constructor.
    + simpl. lia.
    + intros n ->. simpl. destruct n as [|n]; [done|]. specialize (Hhi n eq_refl). lia.
Qed.

Lemma matchPrefix_multi_inv s rest g :
  matchPrefix multiRegex s = Some (rest, g) ->
  exists i v,
    s = lit "#" ++ i ++ lit "=" ++ v ++ rest /\ fiveDigits i /\ fiveDigits v /\
    g = <["ret"%string := v]> (<["id"%string := i]> ∅).
Proof.
  unfold matchPrefix, multiRegex.
  destruct s as [|c s]; [done|]. simpl.
  destruct (Ascii.eqb_spec c "#"); [subst c|done].
  intros H. apply matchRep_run_inv in H as (i & r1 & -> & Hi & Hlo & Hhi & H).
  specialize (Hhi 5%nat eq_refl).
  destruct r1 as [|c r1]; [done|].
  destruct (Ascii.eqb_spec c "="); [subst c|done].
  apply matchRep_run_inv in H as (v & r2 & -> & Hv & Hlo' & Hhi' & H).
  specialize (Hhi' 5%nat eq_refl).
  rewrite !length_app, !Nat.add_sub, !take_app_length in H. injection H as <- <-.
  exists i, v. repeat split; try done; lia.
Qed.

Lemma digit_value c : isDigit c = true -> 0 <= Z.of_nat (nat_of_ascii c) - 48 <= 9.
Proof.
  unfold isDigit. intros H. apply andb_true_iff in H as [H1 H2].
  apply Nat.leb_le in H1, H2. lia.
Qed.

Lemma decimalValue_five ds : fiveDigits ds -> 0 <= decimalValue ds <= 99999.
Proof.
  intros [Hlen Hall].
  destruct ds as [|a [|b [|c [|d [|e [|]]]]]]; try discriminate. clear Hlen.
  repeat match goal with H : Forall _ (_ :: _) |- _ => inversion H; subst; clear H end.
  repeat match goal with H : isDigit _ = true |- _ => apply digit_value in H end.
  unfold decimalValue. simpl. lia.
Qed.

Lemma multi_groups_inRange i v :
  fiveDigits i -> fiveDigits v ->
  inRange {| id := Number ((<["ret"%string := v]> (<["id"%string := i]> (∅ : Groups))) !! "id"%string);
             value := Number ((<["ret"%string := v]> (<["id"%string := i]> (∅ : Groups))) !! "ret"%string) |}.
Proof.
  intros Hi Hv. rewrite lookup_insert_ne by done. rewrite !lookup_insert_eq.
  rewrite (Number_digits i) by apply Hi. rewrite (Number_digits v) by apply Hv.
  exists (decimalValue i), (decimalValue v). simpl.
  repeat split; try done; by apply decimalValue_five.
Qed.

Lemma matchAllFrom_multi s : forall skip,
  Forall (fun g : Groups => inRange {| id := Number (g !! "id"%string);
                                       value := Number (g !! "ret"%string) |})
         (matchAllFrom multiRegex skip s) /\
  (12 * length (matchAllFrom multiRegex skip s) <= length s - skip)%nat.
Proof.
  induction s as [|c s IH]; intros skip.
  - destruct skip; simpl; split; (by constructor) || lia.
  - destruct skip as [|n]; [|simpl; apply IH].
    cbn [matchAllFrom].
    destruct (matchPrefix multiRegex (c :: s)) as [[rest g]|] eqn:E.
    + apply matchPrefix_multi_inv in E as (i & v & Hs & Hi & Hv & ->).
      assert (Hlen : length (c :: s) = (12 + length rest)%nat).
      { rewrite Hs. simpl. rewrite length_app. simpl. rewrite length_app.
        destruct Hi as [Hi1 _], Hv as [Hv1 _]. lia. }
      rewrite Hlen. replace (12 + length rest - length rest - 1)%nat with 11%nat by lia.
      destruct (IH 11%nat) as [IH1 IH2]. split.
      * constructor; [by apply multi_groups_inRange|done].
      * simpl in Hlen. simpl. lia.
    + destruct (IH 0%nat) as [IH1 IH2]. split; [done|]. simpl. lia.
Qed.

(** X7. Whatever the text, the multi-record form returns records whose
    identifier and value are numbers between 0 and 99999 (never [NaN]),
    and at most one record for every 12 characters of the text. *)
Theorem _parseMultiple_any (data : str) :
  Forall inRange (_parseMultiple data) /\
  (12 * length (_parseMultiple data) <= length data)%nat.
Proof.
  unfold _parseMultiple, matchAll. destruct (matchAllFrom_multi data 0) as [H1 H2]. split.
  - change map with (@fmap list _). by apply Forall_fmap.
  - rewrite length_map. lia.
Qed.

(** A text without [#] holds no record. *)
Lemma _parseMultiple_none data : "#"%char ∉ data -> _parseMultiple data = [].
Proof.
  intros H. unfold _parseMultiple, matchAll.
  rewrite <- (app_nil_r data). by rewrite matchAll_multi_junk.
Qed.

(** ** Frames through the data handler *)

Lemma emitReadyToSend_silent st :
  fired (emitReadyToSend st).2 = [] /\ pushes (emitReadyToSend st).2 = [] /\
  uncaught (emitReadyToSend st).2 = [] /\ completions (emitReadyToSend st).2 = [].
Proof.
  unfold emitReadyToSend, onReadyToSend, _send. simpl.
  destruct (_sendBuffer st) as [|p q]; simpl; [done|].
  by destruct (writable (readyState st)).
Qed.

(** The two cases of the split, from the offset of the first occurrence. *)
Lemma segments_start P frame :
  firstAt P frame 0 -> frame <> [] -> segments (Some P) frame = (None, Some frame).
Proof.
  intros Hfirst Hne. apply search_first in Hfirst.
  unfold segments, disambiguate. rewrite Hfirst. simpl. by rewrite segment_nonempty.
Qed.

Lemma segments_at P frame k :
  firstAt P frame k -> (0 < k < length frame)%nat ->
  segments (Some P) frame = (Some (take k frame), Some (drop k frame)).
Proof.
  intros Hfirst Hk. apply search_first in Hfirst.
  unfold segments, disambiguate. rewrite Hfirst.
  destruct (Z.of_nat k <? 0) eqn:E1; [lia|]. destruct (Z.of_nat k =? 0) eqn:E2; [lia|].
  rewrite Nat2Z.id. rewrite !segment_nonempty; [done| |].
  - intros Hd. apply (f_equal length) in Hd. rewrite length_drop in Hd. simpl in Hd. lia.
  - intros Ht. apply (f_equal length) in Ht. rewrite length_take in Ht. simpl in Ht. lia.
Qed.

(** A pattern occurs first after a prefix in which no match can start. *)
Lemma firstAt_after P pre rest :
  (forall c s, c ∈ pre -> matchPrefix P (c :: s) = None) ->
  is_Some (matchPrefix P rest) ->
  firstAt P (pre ++ rest) (length pre).
Proof.
  intros Hpre Hrest. split.
  - split; [rewrite length_app; lia|]. by rewrite drop_app_length.
  - intros j Hj [_ Hm]. rewrite drop_app_le in Hm by lia.
    destruct (drop j pre) as [|c t] eqn:E.
    + apply (f_equal length) in E. rewrite length_drop in E. simpl in E. lia.
    + assert (Hc : c ∈ pre).
      { apply (subseteq_drop j pre). rewrite E. by left. }
      simpl in Hm. rewrite Hpre in Hm by done. by destruct Hm.
Qed.

(** X8. With no command in flight and an empty buffer, a chunk that ends
    with the terminator and holds records [#ddddd=ddddd] (each followed by
    text without [#]) is emitted as one push event that carries the records
    as numbers, in order; the state does not change. *)
Theorem push_when_idle (st : State) (junk0 : str) (recs : list WireRecord) :
  _nextResponse st = None ->
  _recvBuffer st = [] ->
  "#"%char ∉ junk0 ->
  Forall wellFormed recs ->
  endsWithCR (junk0 ++ wireAll recs) = true ->
  step st (EData (junk0 ++ wireAll recs)) = (st, [EmitPush (recordOf <$> recs)]).
Proof.
  intros Hnr Hbuf Hj Hall Hcr. simpl. unfold onData. rewrite Hcr, Hbuf. simpl.
  rewrite <- Hbuf at 1. rewrite set_recvBuffer_id.
  rewrite onFrame_idle by done. by rewrite _parseMultiple_records.
Qed.

Lemma push_when_idle_witness :
  step init (EData ([] ++ wireAll blockRecords)) =
    (init, [EmitPush (recordOf <$> blockRecords)]).
Proof.
  apply (push_when_idle init [] blockRecords).
  - reflexivity.
  - reflexivity.
  - apply not_elem_of_nil.
  - repeat constructor; decide_by_computation.
  - reflexivity.
Defined.

Lemma matchPrefix_ackNak_other c s :
  c <> "A"%char -> c <> "N"%char -> matchPrefix ackNak (c :: s) = None.
Proof.
  intros HA HN. unfold matchPrefix, ackNak. simpl.
  destruct (Ascii.eqb_spec c "A"); [done|]. by destruct (Ascii.eqb_spec c "N").
Qed.

(** X9. A push that arrives glued in front of the reply to a command of
    the ACK/NAK family: the records before the reply are emitted as one
    push event, then the handler of the command in flight receives [true]
    for ACK and [false] for NAK, and the sequencer moves on. *)
Theorem push_then_reply (st : State) (f : nat) (ok : bool) (junk0 : str)
    (recs : list WireRecord) :
  _nextResponse st = Some ackNak ->
  _nextCb st = Some f ->
  "#"%char ∉ junk0 ->
  Forall wellFormed recs ->
  "A"%char ∉ junk0 ++ wireAll recs ->
  "N"%char ∉ junk0 ++ wireAll recs ->
  junk0 ++ wireAll recs <> [] ->
  onFrame ((junk0 ++ wireAll recs) ++ ackFrame ok) st =
    ((emitReadyToSend (clearTimer st)).1,
     EmitPush (recordOf <$> recs) :: CallCb f None (VBool ok) :: (emitReadyToSend (clearTimer st)).2).
Proof.
  intros Hnr Hcb Hj Hall HA HN Hne.
  set (pre := junk0 ++ wireAll recs) in *.
  assert (Hfirst : firstAt ackNak (pre ++ ackFrame ok) (length pre)).
  { apply firstAt_after; [|by destruct ok; eexists].
    intros c s Hc. apply matchPrefix_ackNak_other; by intros ->. }
  assert (Hseg : segments (Some ackNak) (pre ++ ackFrame ok) = (Some pre, Some (ackFrame ok))).
  { rewrite (segments_at _ _ _ Hfirst).
    - by rewrite take_app_length, drop_app_length.
    - rewrite length_app. destruct pre; [done|]. destruct ok; simpl; lia. }
  assert (Hparse : parseResponse (ackFrame ok) (_nextResponse st) = (Return (VBool ok), [])).
  { rewrite Hnr. by destruct ok. }
  rewrite <- Hnr in Hseg.
  destruct (onFrame_response _ _ _ _ _ _ _ Hseg Hparse Hcb) as (pushed & -> & ->).
  simpl. subst pre. by rewrite _parseMultiple_records.
Qed.

Lemma push_then_reply_witness :
  onFrame (([] ++ wireAll blockRecords) ++ ackFrame false) (run init twoSubmitted).1 =
    ((emitReadyToSend (clearTimer (run init twoSubmitted).1)).1,
     EmitPush (recordOf <$> blockRecords) :: CallCb 1 None (VBool false)
       :: (emitReadyToSend (clearTimer (run init twoSubmitted).1)).2).
Proof.
  apply (push_then_reply (run init twoSubmitted).1 1 false [] blockRecords).
  - reflexivity.
  - reflexivity.
  - apply not_elem_of_nil.
  - repeat constructor; decide_by_computation.
  - decide_by_computation.
  - decide_by_computation.
  - discriminate.
Defined.

(** The greedy quantifier takes a whole run of characters of the set when
    the run cannot be extended and the rest of the pattern accepts what
    follows. *)
Lemma matchRep_run {A : Type} cs ds : forall lo n rest (k : str -> option A) x,
  Forall (fun c => inSet cs c = true) ds ->
  (lo <= length ds <= n)%nat ->
  (forall c r, rest = c :: r -> inSet cs c = false \/ length ds = n) ->
  k rest = Some x ->
  matchRep cs lo (Some n) (ds ++ rest) k = Some x.
Proof.
  induction ds as [|d ds IH]; intros lo n rest k x Hall Hlen Hrest Hk.
  - simpl in Hlen. assert (lo = 0%nat) as -> by lia. simpl.
    destruct rest as [|c r]; simpl; [done|].
    destruct (Hrest c r eq_refl) as [->|<-]; [done|]. simpl. by rewrite andb_false_r.
  - inversion Hall as [|? ? Hd Hds]; subst. simpl in Hlen. simpl.
    rewrite Hd. destruct n as [|n]; [lia|]. simpl.
    rewrite (IH (Nat.pred lo) n rest k x); [done|done|lia| |done].
    intros c r Hr. destruct (Hrest c r Hr) as [H|H]; [by left|right]. simpl in H. lia.
Qed.

Lemma execFrom_here r i s rest g :
  matchPrefix r s = Some (rest, g) -> execFrom r i s = Some (mkMatch r i s rest g).
Proof. intros H. destruct s; simpl; by rewrite H. Qed.

Lemma upToFive_nonempty ds : upToFiveDigits ds -> exists d t, ds = d :: t /\ isDigit d = true.
Proof.
  intros [[Hlen _] Hall]. destruct ds as [|d t]; [simpl in Hlen; lia|].
  inversion Hall; subst. by eexists _, _.
Qed.

Lemma matchPrefix_scalar i v rest :
  upToFiveDigits i -> upToFiveDigits v ->
  (forall c r, rest = c :: r -> isDigit c = false) ->
  matchPrefix c1Pattern (i ++ lit " " ++ v ++ rest) =
    Some (rest, <["ret"%string := v]> ∅).
Proof.
  intros [Hi1 Hi2] [Hv1 Hv2] Hrest. unfold matchPrefix, c1Pattern, digits.
  rewrite matchK_seq. cbn [matchK].
  apply matchRep_run; [done|lia|by intros c r [= <- <-]; left|].
  change (lit " " ++ v ++ rest) with (" "%char :: (v ++ rest)).
  cbn [inSet]. rewrite Ascii.eqb_refl.
  apply matchRep_run; [done|lia| |].
  - intros c r Hr. left. by apply (Hrest c r).
  - by rewrite length_app, Nat.add_sub, take_app_length.
Qed.

(** X10. The reply to [controlGet] received whole: a frame made of one
    to five digits, a space, one to five digits and the terminator is taken
    as the response, no push event is emitted, and the handler receives the
    second group of digits as a string, leading zeros included. *)
Theorem scalar_reply (st : State) (f : nat) (i v : str) :
  _nextResponse st = Some c1Pattern ->
  _nextCb st = Some f ->
  upToFiveDigits i ->
  upToFiveDigits v ->
  onFrame (i ++ lit " " ++ v ++ [CR]) st =
    ((emitReadyToSend (clearTimer st)).1,
     CallCb f None (VString v) :: (emitReadyToSend (clearTimer st)).2).
Proof.
  intros Hnr Hcb Hi Hv.
  assert (Hm : matchPrefix c1Pattern (i ++ lit " " ++ v ++ [CR]) =
               Some ([CR], <["ret"%string := v]> ∅)).
  { apply matchPrefix_scalar; [done|done|]. by intros c r [= <- <-]. }
  destruct (upToFive_nonempty i Hi) as (d & t & -> & Hd).
  destruct (upToFive_nonempty v Hv) as (e & u & -> & He).
  assert (Hseg : segments (_nextResponse st) ((d :: t) ++ lit " " ++ (e :: u) ++ [CR]) =
                 (None, Some ((d :: t) ++ lit " " ++ (e :: u) ++ [CR]))).
  { rewrite Hnr. apply segments_start; [|done].
    split; [|intros j Hj; lia]. split; [simpl; lia|]. rewrite drop_0, Hm. by eexists. }
  assert (Hparse : parseResponse ((d :: t) ++ lit " " ++ (e :: u) ++ [CR]) (_nextResponse st) =
                   (Return (VString (e :: u)), [])).
  { rewrite Hnr. unfold parseResponse. rewrite decide_False.
    - unfold _parseSingle, exec. simpl default. rewrite (execFrom_here _ _ _ _ _ Hm).
      simpl. by rewrite lookup_insert_eq.
    - simpl. intros [= -> _]. done. }
  destruct (onFrame_response _ _ _ _ _ _ _ Hseg Hparse Hcb) as (pushed & -> & ->). done.
Qed.

Lemma scalar_reply_witness :
  onFrame (lit "1000" ++ lit " " ++ lit "04096" ++ [CR])
          (inFlightState c1Pattern 1 [] 0 1 Open) =
    ((emitReadyToSend (clearTimer (inFlightState c1Pattern 1 [] 0 1 Open))).1,
     CallCb 1 None (VString (lit "04096"))
       :: (emitReadyToSend (clearTimer (inFlightState c1Pattern 1 [] 0 1 Open))).2).
Proof.
  apply (scalar_reply (inFlightState c1Pattern 1 [] 0 1 Open) 1 (lit "1000") (lit "04096"));
    try reflexivity; (split; [simpl; lia|by repeat constructor]).
Defined.

Lemma digits_no_CR ds : Forall (fun c => isDigit c = true) ds -> CR ∉ ds.
Proof.
  intros Hall Hin. rewrite Forall_forall in Hall. by specialize (Hall _ Hin).
Qed.

Lemma matchPrefix_block a b rest :
  fiveDigits a -> fiveDigits b ->
  matchPrefix blockPattern (lit "GSB3 " ++ a ++ lit " " ++ b ++ rest) = Some (rest, ∅).
Proof.
  intros [Ha1 Ha2] [Hb1 Hb2]. unfold matchPrefix, blockPattern, digits.
  change (lit "GSB3 " ++ a ++ lit " " ++ b ++ rest)
    with ("G"%char :: "S"%char :: "B"%char :: "3"%char :: " "%char :: (a ++ " "%char :: (b ++ rest))).
  cbn [matchK RStr lit list_ascii_of_string inSet]. rewrite !Ascii.eqb_refl.
  rewrite matchRep_exact by done.
  rewrite Ascii.eqb_refl. by rewrite matchRep_exact.
Qed.

(** X11. The reply to [controlGetBlock] received whole: a frame made of
    the header line [GSB3 ddddd ddddd] and of records is taken as the
    response, no push event is emitted, and the handler receives the
    records after the header line as numbers, in order. *)
Theorem block_reply_frame (st : State) (f : nat) (a b junk0 : str) (recs : list WireRecord) :
  _nextResponse st = Some blockPattern ->
  _nextCb st = Some f ->
  fiveDigits a ->
  fiveDigits b ->
  "#"%char ∉ junk0 ->
  Forall wellFormed recs ->
  onFrame (lit "GSB3 " ++ a ++ lit " " ++ b ++ [CR] ++ junk0 ++ wireAll recs) st =
    ((emitReadyToSend (clearTimer st)).1,
     CallCb f None (VRecords (recordOf <$> recs)) :: (emitReadyToSend (clearTimer st)).2).
Proof.
  intros Hnr Hcb Ha Hb Hj Hall.
  set (frame := lit "GSB3 " ++ a ++ lit " " ++ b ++ [CR] ++ junk0 ++ wireAll recs).
  assert (Hseg : segments (_nextResponse st) frame = (None, Some frame)).
  { rewrite Hnr. apply segments_start; [|done].
    split; [|intros j Hj'; lia]. split; [lia|]. rewrite drop_0. subst frame.
    rewrite matchPrefix_block by done. by eexists. }
  assert (Hparse : parseResponse frame (_nextResponse st) =
                   (Return (VRecords (recordOf <$> recs)), [])).
  { unfold parseResponse. rewrite decide_True by done. do 3 f_equal.
    subst frame.
    replace (lit "GSB3 " ++ a ++ lit " " ++ b ++ [CR] ++ junk0 ++ wireAll recs)
      with ((lit "GSB3 " ++ a ++ lit " " ++ b) ++ CR :: (junk0 ++ wireAll recs))
      by (by rewrite <- !app_assoc).
    rewrite indexOf_first.
    - unfold substring.
      replace (Z.to_nat (Z.of_nat (length (lit "GSB3 " ++ a ++ lit " " ++ b)) + 1))
        with (length ((lit "GSB3 " ++ a ++ lit " " ++ b) ++ [CR]))
        by (rewrite (length_app _ [CR]); simpl; lia).
      change (CR :: (junk0 ++ wireAll recs)) with ([CR] ++ (junk0 ++ wireAll recs)).
      rewrite (app_assoc _ [CR]), drop_app_length. by apply _parseMultiple_records.
    - destruct Ha as [_ Ha], Hb as [_ Hb].
      repeat (apply not_elem_of_app; split);
        try (by apply digits_no_CR); decide_by_computation. }
  destruct (onFrame_response _ _ _ _ _ _ _ Hseg Hparse Hcb) as (pushed & -> & ->). done.
Qed.

Lemma block_reply_frame_witness :
  onFrame (lit "GSB3 " ++ lit "01000" ++ lit " " ++ lit "00002" ++ [CR] ++ [] ++ wireAll blockRecords)
          (inFlightState blockPattern 1 [] 0 1 Open) =
    ((emitReadyToSend (clearTimer (inFlightState blockPattern 1 [] 0 1 Open))).1,
     CallCb 1 None (VRecords (recordOf <$> blockRecords))
       :: (emitReadyToSend (clearTimer (inFlightState blockPattern 1 [] 0 1 Open))).2).
Proof.
  apply (block_reply_frame (inFlightState blockPattern 1 [] 0 1 Open) 1
           (lit "01000") (lit "00002") [] blockRecords);
    try reflexivity.
  - split; [reflexivity|by repeat constructor].
  - split; [reflexivity|by repeat constructor].
  - apply not_elem_of_nil.
  - repeat constructor; decide_by_computation.
Defined.

(** ** What the data handler never does *)

Lemma uncaught_app a b : uncaught (a ++ b) = uncaught a ++ uncaught b.
Proof. apply bind_app. Qed.

Lemma written_app a b : written (a ++ b) = written a ++ written b.
Proof. apply bind_app. Qed.

Lemma pushes_app a b : pushes (a ++ b) = pushes a ++ pushes b.
Proof. apply bind_app. Qed.

Lemma completions_app a b : completions (a ++ b) = completions a ++ completions b.
Proof. apply bind_app. Qed.

(** The parser logs at most; it writes nothing, emits nothing and invokes
    no handler. *)
Lemma parseResponse_silent resp regex :
  fired (parseResponse resp regex).2 = [] /\ pushes (parseResponse resp regex).2 = [] /\
  written (parseResponse resp regex).2 = [] /\ uncaught (parseResponse resp regex).2 = [] /\
  completions (parseResponse resp regex).2 = [].
Proof.
  unfold parseResponse. destruct (decide _); [done|].
  unfold _parseSingle. destruct (exec _ _) as [m|]; [|done].
  destruct (groups m) as [g|]; [|done].
  by repeat destruct (truthy _).
Qed.

Lemma segments_resp r data p resp :
  segments (Some r) data = (p, Some resp) -> is_Some (matchPrefix r resp).
Proof.
  unfold segments, disambiguate.
  destruct (search r data <? 0) eqn:E1; [unfold segment; simpl; by destruct data|].
  assert (Hk : search r data = Z.of_nat (Z.to_nat (search r data))) by lia.
  apply search_first in Hk as [[_ Hm] _].
  destruct (search r data =? 0) eqn:E2.
  - assert (search r data = 0) as H0 by lia. rewrite H0 in Hm. simpl in Hm.
    unfold segment. simpl. destruct data; [done|]. by intros [= _ <-].
  - unfold segment at 2. destruct (truthy (Some (drop _ data))); [|done].
    by intros [= _ <-].
Qed.

Lemma segments_no_slot data p resp : segments None data = (p, resp) -> resp = None.
Proof. unfold segments, disambiguate. simpl. by intros [= _ <-]. Qed.

Lemma blockPattern_prefix s : is_Some (matchPrefix blockPattern s) -> take 4 s = lit "GSB3".
Proof.
  unfold matchPrefix, blockPattern. intros [x Hx].
  destruct s as [|c1 [|c2 [|c3 [|c4 s]]]]; simpl in Hx; try done;
    repeat match type of Hx with
           | context [Ascii.eqb ?a ?b] =>
               destruct (Ascii.eqb_spec a b); [subst|try discriminate Hx]
           end; done.
Qed.

Lemma tablePattern_cases r : tablePattern r -> groupNames r <> [] \/ r = blockPattern.
Proof.
  intros (name & spec & Hl & <-).
  apply (lookupCommand_Forall
           (fun spec => groupNames (respRegex spec) <> [] \/ respRegex spec = blockPattern)
           name commands spec); [|done].
  unfold commands.
  repeat (apply Forall_cons; split; [first [by left|by right]|]). by apply Forall_nil.
Qed.

Lemma parseResponse_returns r resp :
  is_Some (matchPrefix r resp) ->
  groupNames r <> [] \/ take 4 resp = lit "GSB3" ->
  exists v, (parseResponse resp (Some r)).1 = Return v.
Proof.
  intros [[rest g] Hm] Hg. unfold parseResponse.
  destruct (decide _) as [Hb|Hb]; [by eexists|].
  destruct Hg as [Hg|Hg]; [|done].
  unfold _parseSingle, exec. simpl default. rewrite (execFrom_here _ _ _ _ _ Hm). simpl.
  destruct (groupNames r); [done|].
  repeat destruct (truthy _); by eexists.
Qed.

Lemma onFrame_no_throw data st :
  (is_Some (_nextResponse st) -> is_Some (_nextCb st)) ->
  (forall r, _nextResponse st = Some r -> tablePattern r) ->
  uncaught (onFrame data st).2 = [].
Proof.
  intros Hslot Htab. unfold onFrame.
  destruct (segments (_nextResponse st) data) as [pushData respData] eqn:Hseg.
  set (pushed := match pushData with Some p => [EmitPush (_parseMultiple p)] | None => [] end).
  assert (Hp : uncaught pushed = []) by (subst pushed; by destruct pushData).
  destruct respData as [resp|]; [|done].
  destruct (_nextResponse st) as [r|] eqn:Hnr; [|by apply segments_no_slot in Hseg].
  apply segments_resp in Hseg.
  destruct (parseResponse_returns r resp Hseg) as [v Hv].
  { destruct (tablePattern_cases r (Htab r eq_refl)) as [H| ->]; [by left|right].
    by apply blockPattern_prefix. }
  destruct (parseResponse_silent resp (Some r)) as (_ & _ & _ & Hu & _).
  destruct (parseResponse resp (Some r)) as [c effs]. simpl in Hv, Hu. subst c.
  destruct (clearTimer_fields st) as (_ & _ & _ & -> & _ & _).
  destruct (Hslot (ltac:(by eexists))) as [f ->].
  destruct (emitReadyToSend_silent (clearTimer st)) as (_ & _ & Hu2 & _).
  destruct (emitReadyToSend (clearTimer st)) as [st2 effs2]. simpl in *.
  rewrite !uncaught_app, Hp, Hu. exact Hu2.
Qed.

Lemma patterns_send c r f st :
  tablePattern r -> Forall tablePattern (patternsOf st) ->
  Forall tablePattern (patternsOf (_send c r f st).1).
Proof.
  intros Hr Hst. unfold _send. destruct (writable (readyState st)); [|done].
  unfold patternsOf in *. simpl. apply Forall_app in Hst as [_ Hq]. by constructor.
Qed.

Lemma patterns_emitReadyToSend st :
  Forall tablePattern (patternsOf st) ->
  Forall tablePattern (patternsOf (emitReadyToSend st).1).
Proof.
  intros Hst. unfold patternsOf in Hst. apply Forall_app in Hst as [_ Hq].
  unfold emitReadyToSend.
  destruct (onReadyToSend st) as [st' effs] eqn:E. simpl.
  unfold onReadyToSend in E. simpl in E.
  destruct (_sendBuffer st) as [|p q] eqn:Hsb.
  - injection E as <- _. unfold patternsOf. simpl. by rewrite Hsb.
  - inversion Hq as [|? ? Hp Hq']; subst.
    replace st' with (_send (command p) (regex p) (cb p) (set_sendBuffer q (set_next None None st))).1
      by (by rewrite E).
    by apply patterns_send.
Qed.

Lemma patterns_clearTimer st : patternsOf (clearTimer st) = patternsOf st.
Proof.
  unfold patternsOf. by destruct (clearTimer_fields st) as (-> & _ & -> & _).
Qed.

Lemma patterns_onFrame data st :
  Forall tablePattern (patternsOf st) ->
  Forall tablePattern (patternsOf (onFrame data st).1).
Proof.
  intros Hst. unfold onFrame.
  destruct (segments (_nextResponse st) data) as [pushData [resp|]]; [|done].
  pose proof (patterns_emitReadyToSend (clearTimer st)) as H.
  rewrite patterns_clearTimer in H. specialize (H Hst).
  destruct (parseResponse resp (_nextResponse st)) as [[v|e] effs];
    [|cbn [fst]; by rewrite patterns_clearTimer].
  destruct (_nextCb (clearTimer st)); [|cbn [fst]; by rewrite patterns_clearTimer].
  by destruct (emitReadyToSend (clearTimer st)).
Qed.

Lemma patterns_step st ev :
  tableEvent ev -> Forall tablePattern (patternsOf st) ->
  Forall tablePattern (patternsOf (step st ev).1).
Proof.
  intros Hev Hst. destruct ev as [c r [f|]|chunk|h|rs]; simpl in *; try done.
  - unfold reqToSend, reqToSendBody. destruct (_readyToSend st).
    + pose proof (patterns_send c r f st Hev Hst) as H. by destruct (_send c r f st).
    + simpl. unfold patternsOf in *. simpl. rewrite fmap_app.
      apply Forall_app in Hst as [H1 H2]. repeat (apply Forall_app; split); try done.
      by repeat constructor.
  - unfold onData. destruct (endsWithCR chunk); [|done]. by apply patterns_onFrame.
  - unfold onTimeout. destruct (decide _); [|done]. by apply patterns_emitReadyToSend.
Qed.

Lemma step_no_throw st ev :
  wf st -> Forall tablePattern (patternsOf st) -> uncaught (step st ev).2 = [].
Proof.
  intros Hwf Hst. destruct ev as [c r [f|]|chunk|h|rs]; simpl; try done.
  - unfold reqToSend, reqToSendBody, _send.
    destruct (_readyToSend st); [|done]. by destruct (writable (readyState st)).
  - unfold onData. destruct (endsWithCR chunk); [|done]. apply onFrame_no_throw; simpl.
    + apply (wf_slot _ Hwf).
    + intros r Hr. unfold patternsOf in Hst. rewrite Hr in Hst. by inversion Hst.
  - unfold onTimeout. destruct (decide _); [|done]. apply emitReadyToSend_silent.
Qed.

Lemma run_no_throw evs : forall st,
  wf st -> Forall tablePattern (patternsOf st) -> Forall tableEvent evs ->
  uncaught (run st evs).2 = [].
Proof.
  induction evs as [|ev evs IH]; intros st Hwf Hst Hevs; [done|].
  inversion Hevs as [|? ? Hev Hevs']; subst.
  pose proof (step_no_throw st ev Hwf Hst) as H1.
  pose proof (patterns_step st ev Hev Hst) as H2.
  pose proof (step_advances st ev Hwf) as [H3 _].
  simpl. destruct (step st ev) as [st1 effs1]. simpl in *.
  specialize (IH st1 H3 H2 Hevs'). destruct (run st1 evs) as [st2 effs2]. simpl in *.
  by rewrite uncaught_app, H1, IH.
Qed.

(** X12. The code of the object raises no exception in a handler (the
    completion callbacks themselves aside) as long as the commands are
    submitted with the patterns of the command table: whatever the events
    (submissions, chunks of socket data, timeouts, changes of the state of
    the socket) and whatever the data received, reading the captures of the
    match never fails and the completion handler invoked is always set. *)
Theorem handlers_never_throw (evs : list Event) :
  Forall tableEvent evs -> uncaught (run init evs).2 = [].
Proof. intros Hevs. by apply run_no_throw; [apply wf_init| |]. Qed.

Lemma handlers_never_throw_witness :
  uncaught (run init (twoSubmitted ++ [EData c1Frame; ETimeout 1; EData (lit "junk" ++ [CR])])).2 = [].
Proof.
  apply (handlers_never_throw (twoSubmitted ++ [EData c1Frame; ETimeout 1; EData (lit "junk" ++ [CR])])).
  repeat constructor.
  - by exists "flashUnit"%string, {| base := lit "FU"; args := []; respRegex := ackNak |}.
  - eexists "controlGet"%string, _. split; reflexivity.
Defined.

(** An unbounded greedy run takes the first character when it belongs to
    the set and the rest of the pattern accepts any remainder. *)
Lemma matchRep_takes_first {A : Type} cs hi c t (k : str -> option A) :
  inSet cs c = true -> canRepeat hi = true -> (forall s', is_Some (k s')) ->
  exists s' x, matchRep cs 0 hi (c :: t) k = Some x /\ k s' = Some x /\
               (length s' <= length t)%nat.
Proof.
  intros Hc Hhi Hk. simpl. rewrite Hc, Hhi. simpl.
  destruct (matchRep_total cs (Nat.pred <$> hi) t k Hk) as [x Hx]. rewrite Hx.
  apply matchRep_inv in Hx as (s' & Hs' & Hlen & _). by exists s', x.
Qed.

(** X13. While [reboot] is in flight, whose pattern in the table matches
    the empty string, every frame that starts with a character other than a
    line terminator (and not with GSB3) is taken whole as the reply, a frame
    of push records included: the handler receives [true] and no push event
    is emitted. *)
Theorem reboot_takes_any_frame (st : State) (f : nat) (c : ascii) (t : str) :
  _nextResponse st = Some rebootPattern ->
  _nextCb st = Some f ->
  inSet CDot c = true ->
  take 4 (c :: t) <> lit "GSB3" ->
  onFrame (c :: t) st =
    ((emitReadyToSend (clearTimer st)).1,
     CallCb f None (VBool true) :: (emitReadyToSend (clearTimer st)).2).
Proof.
  intros Hnr Hcb Hc Hb.
  destruct (matchRep_takes_first CDot None c t
              (fun s' => Some (s', <["ack"%string := take (length (c :: t) - length s') (c :: t)]>
                                      (∅ : Groups)))
              Hc eq_refl) as (s' & x & Hm & Hx & Hlen); [by eexists|].
  injection Hx as <-.
  assert (Hm' : matchPrefix rebootPattern (c :: t) =
                Some (s', <["ack"%string := take (length (c :: t) - length s') (c :: t)]> ∅))
    by exact Hm.
  assert (Hseg : segments (_nextResponse st) (c :: t) = (None, Some (c :: t))).
  { rewrite Hnr. apply segments_start; [|done].
    split; [|intros j Hj; lia]. split; [simpl; lia|]. rewrite drop_0, Hm'. by eexists. }
  assert (Hparse : parseResponse (c :: t) (_nextResponse st) = (Return (VBool true), [])).
  { rewrite Hnr. unfold parseResponse. rewrite decide_False by done.
    eapply _parseSingle_ack.
    - unfold exec. by apply execFrom_here.
    - reflexivity.
    - by rewrite lookup_insert_ne.
    - rewrite lookup_insert_eq.
      replace (length (c :: t) - length s')%nat with (S (length t - length s'))
        by (simpl; lia).
      done. }
  destruct (onFrame_response _ _ _ _ _ _ _ Hseg Hparse Hcb) as (pushed & -> & ->). done.
Qed.

Lemma reboot_takes_any_frame_witness :
  onFrame (lit "#00001=00002" ++ [CR]) (inFlightState rebootPattern 1 [] 0 1 Open) =
    ((emitReadyToSend (clearTimer (inFlightState rebootPattern 1 [] 0 1 Open))).1,
     CallCb 1 None (VBool true)
       :: (emitReadyToSend (clearTimer (inFlightState rebootPattern 1 [] 0 1 Open))).2).
Proof.
  apply (reboot_takes_any_frame (inFlightState rebootPattern 1 [] 0 1 Open) 1
           "#"%char (lit "00001=00002" ++ [CR])); try reflexivity.
  intros H. discriminate H.
Defined.

Lemma emitReadyToSend_one_write st : (length (written (emitReadyToSend st).2) <= 1)%nat.
Proof.
  unfold emitReadyToSend, onReadyToSend, _send. simpl.
  destruct (_sendBuffer st) as [|p q]; simpl; [lia|].
  destruct (writable (readyState st)); simpl; lia.
Qed.

(** X14. One event of socket data, whatever the chunk holds and whatever
    the state of the object, invokes at most one completion handler, emits
    at most one push event and writes at most one command to the socket. *)
Theorem one_completion_per_chunk (st : State) (chunk : str) :
  (length (fired (step st (EData chunk)).2) <= 1)%nat /\
  (length (pushes (step st (EData chunk)).2) <= 1)%nat /\
  (length (written (step st (EData chunk)).2) <= 1)%nat.
Proof.
  simpl. unfold onData. destruct (endsWithCR chunk); [|simpl; lia].
  generalize (_recvBuffer st ++ chunk) (set_recvBuffer [] st). clear. intros data st.
  unfold onFrame.
  destruct (segments (_nextResponse st) data) as [pushData respData].
  set (pushed := match pushData with Some p => [EmitPush (_parseMultiple p)] | None => [] end).
  assert (Hp : fired pushed = [] /\ (length (pushes pushed) <= 1)%nat /\ written pushed = []).
  { subst pushed. destruct pushData; simpl; repeat split; lia. }
  destruct Hp as (Hp1 & Hp2 & Hp3).
  destruct respData as [resp|]; [|simpl; rewrite Hp1, Hp3; simpl; lia].
  destruct (parseResponse_silent resp (_nextResponse st)) as (Hf & Hpu & Hw & _).
  destruct (parseResponse resp (_nextResponse st)) as [[v|e] effs]; simpl in Hf, Hpu, Hw.
  - pose proof (emitReadyToSend_silent (clearTimer st)) as (Hf2 & Hpu2 & _).
    pose proof (emitReadyToSend_one_write (clearTimer st)) as Hw2.
    destruct (_nextCb (clearTimer st)) as [f|].
    + destruct (emitReadyToSend (clearTimer st)) as [st2 effs2]. simpl in *.
      rewrite !fired_app, !pushes_app, !written_app, Hp1, Hp3, Hf, Hpu, Hw.
      change (fired (CallCb f None v :: effs2)) with (f :: fired effs2).
      change (pushes (CallCb f None v :: effs2)) with (pushes effs2).
      change (written (CallCb f None v :: effs2)) with (written effs2).
      rewrite Hf2, Hpu2, !length_app. simpl. lia.
    + simpl. rewrite !fired_app, !pushes_app, !written_app, Hp1, Hp3, Hf, Hpu, Hw.
      rewrite !length_app. simpl. lia.
  - simpl. rewrite !fired_app, !pushes_app, !written_app, Hp1, Hp3, Hf, Hpu, Hw.
    rewrite !length_app. simpl. lia.
Qed.

(** ** Invariants of the reachable states *)

(** X15. In every state that the object reaches from its construction:
    when the ready flag is up, the queue is empty, nothing is in flight
    (neither a completion handler nor an expected pattern is set) and no
    timer is armed; and a timer that is armed is the only one, is the one
    that [_noResponse] holds, and belongs to a command in flight (a reply
    clears it, so that it cannot abandon a later command). *)
Theorem reachable_invariant (evs : list Event) :
  (_readyToSend (run init evs).1 = true ->
     _sendBuffer (run init evs).1 = [] /\ _nextCb (run init evs).1 = None /\
     _nextResponse (run init evs).1 = None /\ timers (run init evs).1 = []) /\
  (forall h, h ∈ timers (run init evs).1 ->
     timers (run init evs).1 = [h] /\ _noResponse (run init evs).1 = Some h /\
     is_Some (_nextCb (run init evs).1)).
Proof.
  destruct (run_wf evs) as [Hready Hslot Htimer].
  assert (Hnone : _nextResponse (run init evs).1 = None <-> _nextCb (run init evs).1 = None).
  { rewrite !eq_None_not_Some. by rewrite Hslot. }
  split.
  - intros H. destruct (Hready H) as (H1 & H2 & H3). by rewrite Hnone.
  - intros h Hh. destruct Htimer as [Ht|(h' & Ht & Hn & Hc)]; rewrite Ht in Hh.
    + by apply elem_of_nil in Hh.
    + apply list_elem_of_singleton in Hh as ->. done.
Qed.

Lemma send_recvBuffer c r f st : _recvBuffer (_send c r f st).1 = _recvBuffer st.
Proof. unfold _send. by destruct (writable (readyState st)). Qed.

Lemma step_recvBuffer st ev :
  endsWithCR (_recvBuffer st) = false -> endsWithCR (_recvBuffer (step st ev).1) = false.
Proof.
  intros Hst. destruct ev as [c r [f|]|chunk|h|rs]; simpl; try done.
  - unfold reqToSend, reqToSendBody. destruct (_readyToSend st); [|done].
    pose proof (send_recvBuffer c r f st) as H. destruct (_send c r f st). simpl in *.
    by rewrite H.
  - unfold onData. destruct (endsWithCR chunk) eqn:Hc.
    + by rewrite onFrame_recvBuffer.
    + simpl. destruct chunk as [|x chunk]; [by rewrite app_nil_r|].
      by rewrite endsWithCR_app.
  - unfold onTimeout. destruct (decide _); [|done]. by rewrite emitReadyToSend_recvBuffer.
Qed.

Lemma run_recvBuffer evs : forall st,
  endsWithCR (_recvBuffer st) = false -> endsWithCR (_recvBuffer (run st evs).1) = false.
Proof.
  induction evs as [|ev evs IH]; intros st Hst; [done|].
  pose proof (step_recvBuffer st ev Hst) as H1. simpl.
  destruct (step st ev) as [st1 effs1]. simpl in H1. specialize (IH st1 H1).
  by destruct (run st1 evs).
Qed.

(** X16. The receive buffer of a reachable state never ends with the
    terminator: what is kept between two events of socket data is always a
    frame that is still incomplete, never one that was left unprocessed. *)
Theorem recvBuffer_incomplete (evs : list Event) :
  endsWithCR (_recvBuffer (run init evs).1) = false.
Proof. by apply run_recvBuffer. Qed.

(** ** The order of the writes *)

Lemma emitReadyToSend_written st :
  readyState (emitReadyToSend st).1 = readyState st /\
  written (emitReadyToSend st).2 ++ queuedCommands (emitReadyToSend st).1
    `sublist_of` queuedCommands st /\
  (writable (readyState st) = true ->
     written (emitReadyToSend st).2 ++ queuedCommands (emitReadyToSend st).1 = queuedCommands st).
Proof.
  destruct st as [rb [|p q] rdy nr nc nor tm nh rs];
    unfold emitReadyToSend, onReadyToSend, _send, queuedCommands; simpl; [done|].
  destruct (writable rs); simpl; (split; [done|split; [|done]]).
  - done.
  - by apply sublist_cons.
Qed.

Lemma clearTimer_queue st :
  readyState (clearTimer st) = readyState st /\ queuedCommands (clearTimer st) = queuedCommands st.
Proof.
  unfold queuedCommands. by destruct (clearTimer_fields st) as (-> & _ & _ & _ & _ & ->).
Qed.

Lemma onFrame_written data st :
  readyState (onFrame data st).1 = readyState st /\
  written (onFrame data st).2 ++ queuedCommands (onFrame data st).1
    `sublist_of` queuedCommands st /\
  (writable (readyState st) = true ->
     written (onFrame data st).2 ++ queuedCommands (onFrame data st).1 = queuedCommands st).
Proof.
  unfold onFrame.
  destruct (segments (_nextResponse st) data) as [pushData respData].
  set (pushed := match pushData with Some p => [EmitPush (_parseMultiple p)] | None => [] end).
  assert (Hp : written pushed = []) by (subst pushed; by destruct pushData).
  destruct respData as [resp|]; [|simpl; by rewrite Hp].
  destruct (parseResponse_silent resp (_nextResponse st)) as (_ & _ & Hw & _).
  destruct (clearTimer_queue st) as [Hrs Hq].
  destruct (emitReadyToSend_written (clearTimer st)) as (H1 & H2 & H3).
  rewrite Hrs, Hq in *.
  destruct (parseResponse resp (_nextResponse st)) as [[v|e] effs]; simpl in Hw.
  - destruct (_nextCb (clearTimer st)) as [f|].
    + destruct (emitReadyToSend (clearTimer st)) as [st2 effs2]. simpl in *.
      rewrite !written_app, Hp, Hw.
      change (written (CallCb f None v :: effs2)) with (written effs2). done.
    + simpl. by rewrite !written_app, Hp, Hw, Hrs, Hq.
  - simpl. by rewrite !written_app, Hp, Hw, Hrs, Hq.
Qed.

Lemma step_written st ev :
  wf st ->
  (keepsSocket ev -> readyState (step st ev).1 = readyState st) /\
  written (step st ev).2 ++ queuedCommands (step st ev).1
    `sublist_of` queuedCommands st ++ (submittedCommand ev).*1 /\
  (writable (readyState st) = true ->
     written (step st ev).2 ++ queuedCommands (step st ev).1 =
     queuedCommands st ++ (submittedCommand ev).*1).
Proof.
  intros Hwf. destruct ev as [c r [f|]|chunk|h|rs]; simpl.
  - unfold reqToSend, reqToSendBody, _send.
    destruct (_readyToSend st) eqn:Hrdy.
    + destruct (wf_ready _ Hwf Hrdy) as (Hq & _). unfold queuedCommands.
      destruct (writable (readyState st)); simpl; rewrite Hq; simpl;
        (split; [done|split; [|done]]); [done|by apply sublist_cons].
    + simpl. unfold queuedCommands. simpl. by rewrite fmap_app.
  - by rewrite !app_nil_r.
  - rewrite !app_nil_r. unfold onData. destruct (endsWithCR chunk); [|done].
    destruct (onFrame_written (_recvBuffer st ++ chunk) (set_recvBuffer [] st)) as (H1 & H2 & H3).
    done.
  - rewrite !app_nil_r. unfold onTimeout. destruct (decide _); [|done].
    destruct (emitReadyToSend_written (set_timers (filter (fun t => t <> h) (timers st)) st))
      as (H1 & H2 & H3).
    done.
  - rewrite !app_nil_r. by split.
Qed.

Lemma submittedCommands_cons ev evs :
  (submittedCommands (ev :: evs)).*1 = (submittedCommand ev).*1 ++ (submittedCommands evs).*1.
Proof. unfold submittedCommands. simpl. by rewrite fmap_app. Qed.

Lemma run_written evs : forall st,
  wf st ->
  written (run st evs).2 ++ queuedCommands (run st evs).1
    `sublist_of` queuedCommands st ++ (submittedCommands evs).*1.
Proof.
  induction evs as [|ev evs IH]; intros st Hwf; [simpl; by rewrite app_nil_r|].
  destruct (step_written st ev Hwf) as (_ & H1 & _).
  pose proof (step_advances st ev Hwf) as [Hwf1 _].
  rewrite submittedCommands_cons. simpl.
  destruct (step st ev) as [st1 effs1]. simpl in *.
  specialize (IH st1 Hwf1). destruct (run st1 evs) as [st2 effs2]. simpl in *.
  rewrite written_app, <- app_assoc. etrans.
  - apply sublist_app; [reflexivity|exact IH].
  - rewrite !app_assoc. by apply sublist_app.
Qed.

Lemma run_written_writable evs : forall st,
  wf st -> writable (readyState st) = true -> Forall keepsSocket evs ->
  written (run st evs).2 ++ queuedCommands (run st evs).1 =
  queuedCommands st ++ (submittedCommands evs).*1.
Proof.
  induction evs as [|ev evs IH]; intros st Hwf Hw Hevs; [simpl; by rewrite app_nil_r|].
  inversion Hevs as [|? ? Hev Hevs']; subst.
  destruct (step_written st ev Hwf) as (Hrs & _ & H1).
  specialize (Hrs Hev). specialize (H1 Hw).
  pose proof (step_advances st ev Hwf) as [Hwf1 _].
  rewrite submittedCommands_cons. simpl.
  destruct (step st ev) as [st1 effs1]. simpl in *.
  rewrite <- Hrs in Hw.
  specialize (IH st1 Hwf1 Hw Hevs'). destruct (run st1 evs) as [st2 effs2]. simpl in *.
  by rewrite written_app, <- app_assoc, IH, !app_assoc, H1.
Qed.

(** X17. The commands written to the socket, followed by those still in
    the queue, are a subsequence of the commands submitted, in the order of
    their submission: the object never writes a command that was not
    submitted, never writes one twice and never reorders two of them. *)
Theorem writes_in_submission_order (evs : list Event) :
  written (run init evs).2 ++ queuedCommands (run init evs).1
    `sublist_of` (submittedCommands evs).*1.
Proof. apply (run_written evs init wf_init). Qed.

(** X18. From a reachable state whose socket is writable, and as long
    as the state of the socket does not change, no command is lost: the
    commands written from then on, followed by those in the queue, are
    exactly those that were in the queue followed by those submitted since,
    in order. *)
Theorem nothing_lost_while_writable (evs0 evs : list Event) :
  writable (readyState (run init evs0).1) = true ->
  Forall keepsSocket evs ->
  written (run (run init evs0).1 evs).2 ++ queuedCommands (run (run init evs0).1 evs).1 =
  queuedCommands (run init evs0).1 ++ (submittedCommands evs).*1.
Proof. intros Hw Hevs. by apply run_written_writable; [apply run_wf| |]. Qed.

Lemma nothing_lost_while_writable_witness :
  written (run (run init twoSubmitted).1
             [EReqToSend (lit "$q RI" ++ [CR]) ackNak (Fn 3); ETimeout 0;
              EData (lit "1000 04096" ++ [CR])]).2 ++
  queuedCommands (run (run init twoSubmitted).1
             [EReqToSend (lit "$q RI" ++ [CR]) ackNak (Fn 3); ETimeout 0;
              EData (lit "1000 04096" ++ [CR])]).1 =
  queuedCommands (run init twoSubmitted).1 ++
  (submittedCommands [EReqToSend (lit "$q RI" ++ [CR]) ackNak (Fn 3); ETimeout 0;
                      EData (lit "1000 04096" ++ [CR])]).*1.
Proof.
  apply (nothing_lost_while_writable twoSubmitted
           [EReqToSend (lit "$q RI" ++ [CR]) ackNak (Fn 3); ETimeout 0;
            EData (lit "1000 04096" ++ [CR])]).
  - reflexivity.
  - by repeat constructor.
Defined.

(** ** The stall after a refused dispatch *)

Lemma quiet_written effs : Forall quiet effs -> written effs = [].
Proof.
  induction 1 as [|e effs He _ IH]; [done|].
  destruct e; simpl in *; try done; apply IH.
Qed.

Lemma stalled_run evs : forall st,
  stalled st ->
  stalled (run st evs).1 /\ queued (run st evs).1 = queued st ++ submissions evs /\
  Forall quiet (run st evs).2.
Proof.
  induction evs as [|ev evs IH]; intros st Hst.
  - simpl. by rewrite app_nil_r.
  - destruct Hst as (H1 & H2 & H3 & H4).
    destruct (stalled_step st ev H1 H2 H3 H4) as (Hst1 & Hq & Heffs).
    simpl. destruct (step st ev) as [st1 effs1]. simpl in *.
    destruct (IH st1 Hst1) as (Hst2 & Hq2 & Heffs2).
    destruct (run st1 evs) as [st2 effs2]. simpl in *.
    split; [done|]. split; [|by apply Forall_app].
    rewrite Hq2, Hq. unfold submissions. simpl. by rewrite app_assoc.
Qed.

(** C3. The timeout transition on a socket that is not writable: with
    two commands submitted and the socket closed before the first reply,
    the expiry of the no-response timer takes the second command out of the
    queue and hands it to [_send], which only logs. The command is not
    dispatched and the sequencer is not idle either: the ready flag stays
    down with nothing in flight and no timer armed, and from then on,
    whatever happens (the socket opening again, new submissions, data,
    timers), nothing is ever written and no handler is ever invoked; the
    commands submitted only pile up in the queue. *)
Theorem C3_timeout_stalls_closed_socket :
  _nextCb (run init twoSubmittedThenClosed).1 = Some 1%nat /\
  0%nat ∈ timers (run init twoSubmittedThenClosed).1 /\
  queued (run init twoSubmittedThenClosed).1 = [2%nat] /\
  step (run init twoSubmittedThenClosed).1 (ETimeout 0) =
    ({| _recvBuffer := []; _sendBuffer := []; _readyToSend := false;
        _nextResponse := None; _nextCb := None; _noResponse := Some 0%nat;
        timers := []; nextHandle := 1; readyState := Closed |},
     [EmitReadyToSend; ConsoleError notReady]) /\
  ~ timeoutDispatchesNext (run init twoSubmittedThenClosed).1 0 /\
  forall evs,
    _readyToSend (run afterRefusal evs).1 = false /\
    written (run afterRefusal evs).2 = [] /\
    fired (run afterRefusal evs).2 = [] /\
    queued (run afterRefusal evs).1 = submissions evs.
Proof.
  split; [reflexivity|]. split; [decide_by_computation|].
  split; [reflexivity|]. split; [reflexivity|]. split.
  - intros H. unfold timeoutDispatchesNext in H.
    replace (_sendBuffer (run init twoSubmittedThenClosed).1)
      with [{| command := lit "$q GS2 1000" ++ [CR]; regex := c1Pattern; cb := 2 |}] in H
      by reflexivity.
    replace (step (run init twoSubmittedThenClosed).1 (ETimeout 0)).2
      with [EmitReadyToSend; ConsoleError notReady] in H by reflexivity.
    repeat (apply elem_of_cons in H as [H|H]; [discriminate H|]).
    by apply elem_of_nil in H.
  - intros evs.
    assert (Hst : stalled afterRefusal) by (by repeat split).
    destruct (stalled_run evs afterRefusal Hst) as ((H1 & _) & H2 & H3).
    split; [done|]. split; [by apply quiet_written|]. split; [by apply quiet_fired|].
    exact H2.
Qed.

(** X19. A state in which the ready flag is down while nothing is in
    flight and no timer is armed (the refusal of a queued command by a
    socket that is not writable leaves such a state) is never left: whatever
    the events that follow, a socket that opens again included, nothing is
    written, no completion handler is invoked, ['readyToSend'] is not
    emitted, and the commands submitted only pile up in the queue. *)
Theorem stall_is_permanent (st : State) (evs : list Event) :
  stalled st ->
  stalled (run st evs).1 /\
  written (run st evs).2 = [] /\
  fired (run st evs).2 = [] /\
  finished (run st evs).2 = 0%nat /\
  queued (run st evs).1 = queued st ++ submissions evs.
Proof.
  intros Hst. destruct (stalled_run evs st Hst) as (H1 & H2 & H3).
  split; [done|]. split; [by apply quiet_written|]. split; [by apply quiet_fired|].
  split; [by apply quiet_finished|done].
Qed.

Lemma stall_is_permanent_witness :
  stalled afterRefusal /\
  written (run afterRefusal
             [ESock Open; EReqToSend (lit "$q FU" ++ [CR]) ackNak (Fn 3);
              EData (lit "ACK" ++ [CR]); ETimeout 0]).2 = [] /\
  queued (run afterRefusal
            [ESock Open; EReqToSend (lit "$q FU" ++ [CR]) ackNak (Fn 3);
             EData (lit "ACK" ++ [CR]); ETimeout 0]).1 = [3%nat].
Proof.
  assert (Hst : stalled afterRefusal) by (by repeat split).
  split; [exact Hst|].
  destruct (stall_is_permanent afterRefusal
              [ESock Open; EReqToSend (lit "$q FU" ++ [CR]) ackNak (Fn 3);
               EData (lit "ACK" ++ [CR]); ETimeout 0] Hst) as (_ & Hw & _ & _ & Hq).
  split; [exact Hw|exact Hq].
Defined.

(** ** A queue of commands answered in turn *)

Lemma ack_step f q h nh rs b :
  writable rs = true ->
  step (inFlightState ackNak f q h nh rs) (EData (ackFrame b)) =
    (match q with
     | [] => {| _recvBuffer := []; _sendBuffer := []; _readyToSend := true;
                _nextResponse := None; _nextCb := None; _noResponse := Some h;
                timers := []; nextHandle := nh; readyState := rs |}
     | p :: q' => inFlightState (regex p) (cb p) q' nh (S nh) rs
     end,
     CallCb f None (VBool b) :: EmitReadyToSend ::
       match q with
       | [] => []
       | p :: _ => [SockWrite (command p); SetTimeout nh _noResponseTimeout]
       end).
Proof.
  intros Hw.
  assert (Hseg : segments (Some ackNak) (ackFrame b) = (None, Some (ackFrame b)))
    by (by destruct b).
  assert (Hparse : parseResponse (ackFrame b) (Some ackNak) = (Return (VBool b), []))
    by (by destruct b).
  assert (Hend : endsWithCR (ackFrame b) = true) by (by destruct b).
  simpl. unfold onData. rewrite Hend. simpl app.
  destruct (onFrame_response (ackFrame b) (set_recvBuffer [] (inFlightState ackNak f q h nh rs))
              None (ackFrame b) (VBool b) [] f Hseg Hparse eq_refl) as (pushed & -> & ->).
  unfold clearTimer. simpl.
  rewrite filter_cons_False by (by intros H; apply H). rewrite filter_nil.
  unfold emitReadyToSend, onReadyToSend, _send, set_timers. simpl.
  destruct q as [|p q']; simpl; [done|]. by rewrite Hw.
Qed.

(** X20. A command in flight and a queue of commands behind it, all
    answered by acknowledgements or refusals on a writable socket, one
    frame per command: each handler is invoked once, in the order of
    submission, with the answer to its own command ([true] for ACK, [false]
    for NAK); the commands of the queue are written in order, each after the
    reply to the one before; and the object ends idle. *)
Theorem queue_drains_in_order (q : list Pending) : forall (f h nh : nat) (rs : ReadyState)
    (answers : list bool),
  writable rs = true ->
  Forall (fun p => regex p = ackNak) q ->
  length answers = S (length q) ->
  completions (run (inFlightState ackNak f q h nh rs) ((fun b => EData (ackFrame b)) <$> answers)).2
    = zip_with ackCompletion (f :: (cb <$> q)) answers /\
  written (run (inFlightState ackNak f q h nh rs) ((fun b => EData (ackFrame b)) <$> answers)).2
    = command <$> q /\
  idle (run (inFlightState ackNak f q h nh rs) ((fun b => EData (ackFrame b)) <$> answers)).1.
Proof.
  induction q as [|p q IH]; intros f h nh rs answers Hw Hq Hlen;
    destruct answers as [|b answers]; simpl in Hlen; try lia.
  - destruct answers; [|simpl in Hlen; lia].
    change ((fun b => EData (ackFrame b)) <$> [b]) with [EData (ackFrame b)].
    rewrite run_one, ack_step by done. by repeat split.
  - inversion Hq as [|? ? Hp Hq']; subst.
    change ((fun b => EData (ackFrame b)) <$> b :: answers)
      with ([EData (ackFrame b)] ++ ((fun b => EData (ackFrame b)) <$> answers)).
    rewrite run_app, run_one, ack_step by done. cbn [fst snd]. rewrite Hp.
    destruct (IH (cb p) nh (S nh) rs answers Hw Hq' ltac:(lia)) as (H1 & H2 & H3).
    rewrite completions_app, written_app, H1, H2. done.
Qed.

Lemma queue_drains_in_order_witness :
  completions (run (inFlightState ackNak 1
                      [{| command := lit "$q RI" ++ [CR]; regex := ackNak; cb := 2 |}] 0 1 Open)
                   ((fun b => EData (ackFrame b)) <$> [true; false])).2 =
    [(1%nat, None, VBool true); (2%nat, None, VBool false)] /\
  idle (run (inFlightState ackNak 1
               [{| command := lit "$q RI" ++ [CR]; regex := ackNak; cb := 2 |}] 0 1 Open)
            ((fun b => EData (ackFrame b)) <$> [true; false])).1.
Proof.
  destruct (queue_drains_in_order
              [{| command := lit "$q RI" ++ [CR]; regex := ackNak; cb := 2 |}]
              1 0 1 Open [true; false] eq_refl) as (H1 & _ & H3).
  - by repeat constructor.
  - reflexivity.
  - split; [exact H1|exact H3].
Defined.

(** ** The remaining operations *)

Ltac range_command mnemonic pattern low high :=
  cbn [base args respRegex foldl];
  rewrite (substArg_value _ _ "low" "LOW" low) by (done || by lookup_arg);
  rewrite (substArg_value _ _ "high" "HIGH" high) by (done || by lookup_arg);
  cbn [fst];
  let Hl := fresh "Hl" in
  let d := fresh "d" in
  let Hd := fresh "Hd" in
  let Hsp := fresh "Hsp" in
  let a := fresh "a" in
  let b := fresh "b" in
  let Ha := fresh "Ha" in
  let Hb := fresh "Hb" in
  pose proof (toString_no_brace low) as Hl;
  destruct (toString_last high) as (d & Hd & Hsp);
  generalize dependent (toString high); generalize dependent (toString low);
  intros a Ha b Hb;
  change (replace _ a _) with
    (replace ("{"%char :: lit "LOW}") a
       (lit mnemonic ++ ("{"%char :: lit "LOW}") ++ lit " {HIGH}"));
  skip_segment (lit mnemonic); rewrite replace_here;
  change (replace _ b _) with
    (replace ("{"%char :: lit "HIGH}") b
       (lit mnemonic ++ a ++ lit " " ++ ("{"%char :: lit "HIGH}") ++ []));
  skip_segment (lit mnemonic); skip_segment a; skip_segment (lit " "); rewrite replace_here;
  rewrite app_nil_r; trim_done d.

Lemma getCommand_getPushEnabled low high :
  low <> JUndefined -> high <> JUndefined ->
  getCommand "getPushEnabled" (<["low"%string := low]> (<["high"%string := high]> ∅)) =
  Some (lit "$q GPU " ++ toString low ++ lit " " ++ toString high ++ [CR], pushEnabledPattern).
Proof.
  intros Hlow Hhigh. unfold getCommand, buildCommandString.
  change (lookupCommand "getPushEnabled" commands)
    with (Some {| base := lit "GPU {LOW} {HIGH}";
                  args := [("low", "LOW"); ("high", "HIGH")]%string;
                  respRegex := pushEnabledPattern |}).
  range_command "$q GPU " pushEnabledPattern low high.
Qed.

Lemma getCommand_pushRefresh low high :
  low <> JUndefined -> high <> JUndefined ->
  getCommand "pushRefresh" (<["low"%string := low]> (<["high"%string := high]> ∅)) =
  Some (lit "$q PUR " ++ toString low ++ lit " " ++ toString high ++ [CR], ackNak).
Proof.
  intros Hlow Hhigh. unfold getCommand, buildCommandString.
  change (lookupCommand "pushRefresh" commands)
    with (Some {| base := lit "PUR {LOW} {HIGH}";
                  args := [("low", "LOW"); ("high", "HIGH")]%string;
                  respRegex := ackNak |}).
  range_command "$q PUR " ackNak low high.
Qed.

Lemma getCommand_pushClear low high :
  low <> JUndefined -> high <> JUndefined ->
  getCommand "pushClear" (<["low"%string := low]> (<["high"%string := high]> ∅)) =
  Some (lit "$q PUC " ++ toString low ++ lit " " ++ toString high ++ [CR], ackNak).
Proof.
  intros Hlow Hhigh. unfold getCommand, buildCommandString.
  change (lookupCommand "pushClear" commands)
    with (Some {| base := lit "PUC {LOW} {HIGH}";
                  args := [("low", "LOW"); ("high", "HIGH")]%string;
                  respRegex := ackNak |}).
  range_command "$q PUC " ackNak low high.
Qed.

Lemma getCommand_setPushInterval v :
  getCommand "setPushInterval" (<["value"%string := JNumber (Int v)]> ∅) =
  Some (lit "$q PUI " ++ decimal v ++ [CR], ackNak).
Proof.
  unfold getCommand, buildCommandString.
  change (lookupCommand "setPushInterval" commands)
    with (Some {| base := lit "PUI {VAL}"; args := [("value", "VAL")]%string;
                  respRegex := ackNak |}).
  cbn [base args respRegex foldl].
  rewrite (substArg_value _ _ "value" "VAL" (JNumber (Int v))) by (done || by lookup_arg).
  cbn [fst toString].
  destruct (decimal_last v) as (d & Hd & Hdig). apply isDigit_not_space in Hdig.
  generalize dependent (decimal v). intros a Ha.
  change (replace _ a _) with
    (replace ("{"%char :: lit "VAL}") a (lit "$q PUI " ++ ("{"%char :: lit "VAL}") ++ [])).
  skip_segment (lit "$q PUI "). rewrite replace_here, app_nil_r.
  trim_done d.
Qed.

(** X21. The operations on a range of controllers, for bounds that are
    safe integers, [NaN], booleans or left out: [getPushEnabled],
    [pushRefresh] and [pushClear] send [$q GPU low high], [$q PUR low high]
    and [$q PUC low high], with 1 and 10000 for the bounds that are left
    out; the bounds are not checked and the promise is never rejected at
    once. For a safe integer [v], [pushInterval(v)] sends [$q PUI v]
    whatever [v] is, and rejects the promise at once when [v] is not
    between 20 and 30000. *)
Theorem push_operations_send (low high : JsValue) (v : Z) (p : nat) (st : State) :
  printable low -> printable high -> isSafeInteger v ->
  getPushEnabled low high p st =
    (Unsettled,
     (reqToSend (lit "$q GPU " ++ toString (orDefault 1 low) ++ lit " "
                   ++ toString (orDefault 10000 high) ++ [CR]) pushEnabledPattern (Fn p) st).1.2,
     (reqToSend (lit "$q GPU " ++ toString (orDefault 1 low) ++ lit " "
                   ++ toString (orDefault 10000 high) ++ [CR]) pushEnabledPattern (Fn p) st).2) /\
  pushRefresh low high p st =
    (Unsettled,
     (reqToSend (lit "$q PUR " ++ toString (orDefault 1 low) ++ lit " "
                   ++ toString (orDefault 10000 high) ++ [CR]) ackNak (Fn p) st).1.2,
     (reqToSend (lit "$q PUR " ++ toString (orDefault 1 low) ++ lit " "
                   ++ toString (orDefault 10000 high) ++ [CR]) ackNak (Fn p) st).2) /\
  pushClear low high p st =
    (Unsettled,
     (reqToSend (lit "$q PUC " ++ toString (orDefault 1 low) ++ lit " "
                   ++ toString (orDefault 10000 high) ++ [CR]) ackNak (Fn p) st).1.2,
     (reqToSend (lit "$q PUC " ++ toString (orDefault 1 low) ++ lit " "
                   ++ toString (orDefault 10000 high) ++ [CR]) ackNak (Fn p) st).2) /\
  pushInterval (JNumber (Int v)) p st =
    (if decide (20 <= v <= 30000) then Unsettled
     else Rejected (lit "pushInterval invalid interval " ++ decimal v),
     (reqToSend (lit "$q PUI " ++ decimal v ++ [CR]) ackNak (Fn p) st).1.2,
     (reqToSend (lit "$q PUI " ++ decimal v ++ [CR]) ackNak (Fn p) st).2).
Proof.
  intros _ _ _. split; [|split; [|split]].
  - unfold getPushEnabled.
    by rewrite (executor_getCommand _ _ _ _ _ _ _ _
                  (getCommand_getPushEnabled _ _ (orDefault_defined 1 low)
                     (orDefault_defined 10000 high))).
  - unfold pushRefresh.
    by rewrite (executor_getCommand _ _ _ _ _ _ _ _
                  (getCommand_pushRefresh _ _ (orDefault_defined 1 low)
                     (orDefault_defined 10000 high))).
  - unfold pushClear.
    by rewrite (executor_getCommand _ _ _ _ _ _ _ _
                  (getCommand_pushClear _ _ (orDefault_defined 1 low)
                     (orDefault_defined 10000 high))).
  - unfold pushInterval.
    rewrite (executor_getCommand _ _ _ _ _ _ _ _ (getCommand_setPushInterval v)).
    rewrite validRange_decide. cbn [toString].
    by destruct (decide (20 <= v <= 30000));
      [rewrite bool_decide_true by done|rewrite bool_decide_false by done].
Qed.

Lemma push_operations_send_witness :
  (pushRefresh JUndefined (JNumber (Int 500)) 1 openIdle).2 =
    [SockWrite (lit "$q PUR 1 500" ++ [CR]); SetTimeout 0 2000] /\
  (pushInterval (JNumber (Int 19)) 1 openIdle).1.1 =
    Rejected (lit "pushInterval invalid interval 19") /\
  (pushInterval (JNumber (Int 19)) 1 openIdle).2 =
    [SockWrite (lit "$q PUI 19" ++ [CR]); SetTimeout 0 2000].
Proof.
  destruct (push_operations_send JUndefined (JNumber (Int 500)) 19 1 openIdle)
    as (_ & H2 & _ & H4); [exact I|unfold printable, isSafeInteger; lia|unfold isSafeInteger; lia|].
  rewrite H2, H4. repeat split; reflexivity.
Defined.

(** X22. The operations without arguments: [reboot], [flashUnit] and
    [getPreset] hand [$q R!], [$q FU] and [$q GPR] to the sequencer with the
    pattern of their entry of the table, in every state, and never reject
    the promise at once. *)
Theorem plain_operations_send (p : nat) (st : State) :
  reboot p st =
    (Unsettled, (reqToSend (lit "$q R!" ++ [CR]) rebootPattern (Fn p) st).1.2,
     (reqToSend (lit "$q R!" ++ [CR]) rebootPattern (Fn p) st).2) /\
  flashUnit p st =
    (Unsettled, (reqToSend (lit "$q FU" ++ [CR]) ackNak (Fn p) st).1.2,
     (reqToSend (lit "$q FU" ++ [CR]) ackNak (Fn p) st).2) /\
  getPreset p st =
    (Unsettled, (reqToSend (lit "$q GPR" ++ [CR]) presetPattern (Fn p) st).1.2,
     (reqToSend (lit "$q GPR" ++ [CR]) presetPattern (Fn p) st).2).
Proof.
  split; [|split].
  - unfold reboot.
    by rewrite (executor_getCommand false [] "reboot" ∅ p st (lit "$q R!" ++ [CR]) rebootPattern eq_refl).
  - unfold flashUnit.
    by rewrite (executor_getCommand false [] "flashUnit" ∅ p st (lit "$q FU" ++ [CR]) ackNak eq_refl).
  - unfold getPreset.
    by rewrite (executor_getCommand false [] "getPreset" ∅ p st (lit "$q GPR" ++ [CR]) presetPattern eq_refl).
Qed.

(** ** The reply to [getPushEnabled] *)

Lemma matchRep_suffix {A : Type} cs s : forall lo hi (k : str -> option A) x,
  matchRep cs lo hi s k = Some x -> exists pre s', s = pre ++ s' /\ k s' = Some x.
Proof.
  induction s as [|c s IH]; intros lo hi k x; simpl.
  - destruct lo; [|discriminate]. intros H. by exists [], [].
  - assert (Hstop : match lo with O => k (c :: s) | S _ => None end = Some x ->
                    exists pre s', c :: s = pre ++ s' /\ k s' = Some x).
    { destruct lo; [|discriminate]. intros H. by exists [], (c :: s). }
    destruct (inSet cs c && canRepeat hi); [|done].
    destruct (matchRep cs (Nat.pred lo) (Nat.pred <$> hi) s k) as [y|] eqn:E; [|done].
    intros [= ->]. apply IH in E as (pre & s' & -> & Hk). by exists (c :: pre), s'.
Qed.

Lemma matchPrefix_pushEnabled_other s :
  "A"%char ∉ s -> "]"%char ∉ s -> matchPrefix pushEnabledPattern s = None.
Proof.
  intros HA HB. unfold matchPrefix, pushEnabledPattern, digits.
  cbn [matchK].
  assert (H1 : matchK (RStr (lit "ACK")) s ∅
                 (fun s' g' => Some (s', <["ack"%string := take (length s - length s') s]> g')) = None).
  { destruct s as [|c s]; simpl; [done|].
    destruct (Ascii.eqb_spec c "A"); [|done]. subst. destruct HA. by left. }
  rewrite H1.
  destruct (matchRep _ _ _ _ _) as [x|] eqn:E; [|done].
  apply matchRep_suffix in E as (pre & s' & -> & Hk).
  destruct s' as [|c s']; [done|]. simpl in Hk.
  destruct (Ascii.eqb_spec c "]"); [|done]. subst.
  destruct HB. apply elem_of_app. right. by left.
Qed.

(** X23. The reply to [getPushEnabled] as the pattern of the table reads
    it: a frame that holds neither the letter A nor a closing bracket (five
    digits and the terminator, say) is not taken as the reply; while the
    command is in flight such a frame is emitted whole as a push event, no
    handler is invoked and the command stays in flight. *)
Theorem pushEnabled_reply_needs_bracket (st : State) (frame : str) :
  _nextResponse st = Some pushEnabledPattern ->
  "A"%char ∉ frame ->
  "]"%char ∉ frame ->
  frame <> [] ->
  onFrame frame st = (st, [EmitPush (_parseMultiple frame)]).
Proof.
  intros Hnr HA HB Hne. apply onFrame_push_only. rewrite Hnr.
  assert (Hno : search pushEnabledPattern frame = -1).
  { apply search_none. intros k [Hk [x Hx]].
    rewrite matchPrefix_pushEnabled_other in Hx; [done| |].
    - intros H. apply HA. by apply (subseteq_drop k frame).
    - intros H. apply HB. by apply (subseteq_drop k frame). }
  unfold segments, disambiguate. rewrite Hno. simpl. by rewrite segment_nonempty.
Qed.

Lemma pushEnabled_reply_needs_bracket_witness :
  onFrame (lit "00001" ++ [CR]) (inFlightState pushEnabledPattern 1 [] 0 1 Open) =
    (inFlightState pushEnabledPattern 1 [] 0 1 Open, [EmitPush []]).
Proof.
  apply (pushEnabled_reply_needs_bracket (inFlightState pushEnabledPattern 1 [] 0 1 Open)
           (lit "00001" ++ [CR])); try reflexivity; decide_by_computation.
Defined.

(** ** Replies read by an unbounded quantifier *)

Lemma matchRep_run_all {A : Type} cs ds : forall lo rest (k : str -> option A) x,
  Forall (fun c => inSet cs c = true) ds ->
  (lo <= length ds)%nat ->
  (forall c r, rest = c :: r -> inSet cs c = false) ->
  k rest = Some x ->
  matchRep cs lo None (ds ++ rest) k = Some x.
Proof.
  induction ds as [|d ds IH]; intros lo rest k x Hall Hlen Hrest Hk.
  - simpl in Hlen. assert (lo = 0%nat) as -> by lia. simpl.
    destruct rest as [|c r]; simpl; [done|]. by rewrite (Hrest c r eq_refl).
  - inversion Hall as [|? ? Hd Hds]; subst. simpl in Hlen. simpl.
    rewrite Hd. simpl. rewrite (IH (Nat.pred lo) rest k x); [done|done|lia|done|done].
Qed.

(** X24. The reply to [getSystemString] received whole: from a frame
    [GSYSS v] closed by the terminator, with [v] not empty and free of line
    terminators, the handler receives [v] itself, inner and trailing spaces
    included, and no push event is emitted. *)
Theorem system_string_reply (st : State) (f : nat) (v : str) :
  _nextResponse st = Some gsyssPattern ->
  _nextCb st = Some f ->
  v <> [] ->
  Forall (fun c => inSet CDot c = true) v ->
  onFrame (lit "GSYSS " ++ v ++ [CR]) st =
    ((emitReadyToSend (clearTimer st)).1,
     CallCb f None (VString v) :: (emitReadyToSend (clearTimer st)).2).
Proof.
  intros Hnr Hcb Hne Hv.
  assert (Hm : matchPrefix gsyssPattern (lit "GSYSS " ++ v ++ [CR]) =
               Some ([], <["ret"%string := v]> ∅)).
  { unfold matchPrefix, gsyssPattern.
    change (lit "GSYSS " ++ v ++ [CR])
      with ("G"%char :: "S"%char :: "Y"%char :: "S"%char :: "S"%char :: " "%char :: (v ++ [CR])).
    cbn [matchK RStr lit list_ascii_of_string inSet]. rewrite !Ascii.eqb_refl.
    apply matchRep_run_all; [done|lia|by intros c r [= <- <-]|].
    cbn [inSet]. replace (isSpace CR) with true by reflexivity.
    rewrite length_app. cbn [length]. rewrite Nat.add_sub. by rewrite take_app_length. }
  assert (Hseg : segments (_nextResponse st) (lit "GSYSS " ++ v ++ [CR]) =
                 (None, Some (lit "GSYSS " ++ v ++ [CR]))).
  { rewrite Hnr. apply segments_start; [|done].
    split; [|intros j Hj; lia]. split; [simpl; lia|]. rewrite drop_0, Hm. by eexists. }
  assert (Hparse : parseResponse (lit "GSYSS " ++ v ++ [CR]) (_nextResponse st) =
                   (Return (VString v), [])).
  { rewrite Hnr. unfold parseResponse. rewrite decide_False by done.
    eapply _parseSingle_ret; [unfold exec; by apply execFrom_here|reflexivity| |done].
    by rewrite lookup_insert_eq. }
  destruct (onFrame_response _ _ _ _ _ _ _ Hseg Hparse Hcb) as (pushed & -> & ->). done.
Qed.

Lemma system_string_reply_witness :
  onFrame (lit "GSYSS " ++ lit "Main hall " ++ [CR]) gsyssInFlight =
    ((emitReadyToSend (clearTimer gsyssInFlight)).1,
     CallCb 1 None (VString (lit "Main hall ")) :: (emitReadyToSend (clearTimer gsyssInFlight)).2).
Proof.
  apply (system_string_reply gsyssInFlight 1 (lit "Main hall ")); try reflexivity.
  - discriminate.
  - by repeat constructor.
Defined.

Lemma matchPrefix_preset_other c s : isDigit c = false -> matchPrefix presetPattern (c :: s) = None.
Proof. intros Hc. unfold matchPrefix, presetPattern. simpl. by rewrite Hc. Qed.

Lemma matchPrefix_preset ds rest :
  ds <> [] -> Forall (fun c => isDigit c = true) ds ->
  (forall c r, rest = c :: r -> isDigit c = false) ->
  matchPrefix presetPattern (ds ++ rest) = Some (rest, <["ret"%string := ds]> ∅).
Proof.
  intros Hne Hds Hrest. unfold matchPrefix, presetPattern. cbn [matchK].
  apply matchRep_run_all; [done|destruct ds; [done|simpl; lia]|done|].
  by rewrite length_app, Nat.add_sub, take_app_length.
Qed.

(** X25. While [getPreset] is in flight, whose pattern is a run of
    digits without a header, the first run of digits of a frame is taken as
    the reply wherever it stands, in a push record as well: the handler
    receives these digits as a string, what stands before them goes to a
    push event, and what follows them is dropped. *)
Theorem preset_reply_first_digits (st : State) (f : nat) (pre ds rest : str) :
  _nextResponse st = Some presetPattern ->
  _nextCb st = Some f ->
  Forall (fun c => isDigit c = false) pre ->
  ds <> [] ->
  Forall (fun c => isDigit c = true) ds ->
  (forall c r, rest = c :: r -> isDigit c = false) ->
  onFrame (pre ++ ds ++ rest) st =
    ((emitReadyToSend (clearTimer st)).1,
     match pre with [] => [] | _ => [EmitPush (_parseMultiple pre)] end
       ++ CallCb f None (VString ds) :: (emitReadyToSend (clearTimer st)).2).
Proof.
  intros Hnr Hcb Hpre Hne Hds Hrest.
  pose proof (matchPrefix_preset ds rest Hne Hds Hrest) as Hm.
  assert (Hfirst : firstAt presetPattern (pre ++ ds ++ rest) (length pre)).
  { apply firstAt_after; [|by rewrite Hm; eexists].
    intros c s Hc. apply matchPrefix_preset_other.
    rewrite Forall_forall in Hpre. by apply Hpre. }
  assert (Hparse : parseResponse (ds ++ rest) (_nextResponse st) = (Return (VString ds), [])).
  { rewrite Hnr. unfold parseResponse. rewrite decide_False.
    - eapply _parseSingle_ret; [unfold exec; by apply execFrom_here|reflexivity| |done].
      by rewrite lookup_insert_eq.
    - destruct ds as [|d ds]; [done|]. inversion Hds; subst. simpl. intros [= -> _]. done. }
  destruct pre as [|c pre].
  - assert (Hseg : segments (_nextResponse st) (ds ++ rest) = (None, Some (ds ++ rest))).
    { rewrite Hnr. apply segments_start; [done|]. by destruct ds. }
    destruct (onFrame_response _ _ _ _ _ _ _ Hseg Hparse Hcb) as (pushed & H & ->).
    exact H.
  - assert (Hseg : segments (_nextResponse st) ((c :: pre) ++ ds ++ rest) =
                   (Some (c :: pre), Some (ds ++ rest))).
    { rewrite Hnr, (segments_at _ _ _ Hfirst).
      - by rewrite take_app_length, drop_app_length.
      - rewrite !length_app. destruct ds; [done|]. simpl. lia. }
    destruct (onFrame_response _ _ _ _ _ _ _ Hseg Hparse Hcb) as (pushed & H & ->).
    exact H.
Qed.

Lemma preset_reply_first_digits_witness :
  onFrame (lit "#" ++ lit "00001" ++ (lit "=00002" ++ [CR]))
          (inFlightState presetPattern 1 [] 0 1 Open) =
    ((emitReadyToSend (clearTimer (inFlightState presetPattern 1 [] 0 1 Open))).1,
     [EmitPush (_parseMultiple (lit "#"))]
       ++ CallCb 1 None (VString (lit "00001"))
       :: (emitReadyToSend (clearTimer (inFlightState presetPattern 1 [] 0 1 Open))).2).
Proof.
  apply (preset_reply_first_digits (inFlightState presetPattern 1 [] 0 1 Open) 1
           (lit "#") (lit "00001") (lit "=00002" ++ [CR])); try reflexivity.
  - by repeat constructor.
  - discriminate.
  - by repeat constructor.
  - by intros c r [= <- <-].
Defined.

(** ** The conversions of [helpers.js] *)

Lemma allRange_spec P p : forall lo,
  helpers.allRange P lo p = true -> forall v, lo <= v < lo + Z.pos p -> P v = true.
Proof.
  induction p as [q IH|q IH|]; intros lo H v Hv; simpl in H.
  - apply andb_prop in H as [H H3]. apply andb_prop in H as [H1 H2].
    destruct (decide (v = lo)) as [->|]; [done|].
    destruct (decide (v < lo + 1 + Z.pos q)).
    + apply (IH _ H2). lia.
    + apply (IH _ H3). lia.
  - apply andb_prop in H as [H1 H2].
    destruct (decide (v < lo + Z.pos q)).
    + apply (IH _ H1). lia.
    + apply (IH _ H2). lia.
  - by assert (v = lo) as -> by lia.
Qed.

(** Every tenth of a decibel of the range of the faders, and of the
    range of the meters, checked one by one. *)
Lemma decibels_checked :
  helpers.allRange
    (fun d => helpers.same (helpers.apiToFader (helpers.faderToAPI (helpers.tenth d) None))
                           (helpers.tenth d)) (-720) 841 = true /\
  helpers.allRange
    (fun d => helpers.same
                (helpers.apiToMeter
                   (helpers.dBToAPI (helpers.tenth d) (Some helpers.defaultMeterMin)
                      (Some helpers.defaultMeterMax) None))
                (helpers.tenth d)) (-480) 721 = true.
Proof. split; vm_compute; reflexivity. Qed.

(** X26. A level with one decimal survives the conversion to the
    controller value and back: for every tenth of a decibel [x] from -72 to
    12, [apiToFader(faderToAPI(x)) === x], and for every tenth from -48 to
    24 the same holds with the range of the meters,
    [apiToMeter(dBToAPI(x, {min: -48, max: 24})) === x]. *)
Theorem decibels_round_trip :
  (forall d, -720 <= d <= 120 ->
     helpers.same (helpers.apiToFader (helpers.faderToAPI (helpers.tenth d) None))
                  (helpers.tenth d) = true) /\
  (forall d, -480 <= d <= 240 ->
     helpers.same
       (helpers.apiToMeter
          (helpers.dBToAPI (helpers.tenth d) (Some helpers.defaultMeterMin)
             (Some helpers.defaultMeterMax) None))
       (helpers.tenth d) = true).
Proof.
  destruct decibels_checked as [H1 H2]. split; intros d Hd.
  - apply (allRange_spec _ _ _ H1). lia.
  - apply (allRange_spec _ _ _ H2). lia.
Qed.

(** Every controller value, checked one by one. *)
Lemma controller_values_checked :
  helpers.allRange
    (fun v =>
       helpers.same (helpers.apiToFader (helpers.ofZ v))
                    (helpers.tenth (helpers.nearest (840 * v - 720 * 65535) 65535)) &&
       helpers.within (helpers.ofZ 39)
         (helpers.faderToAPI (helpers.apiToFader (helpers.ofZ v)) None) (helpers.ofZ v))
    0 65536 = true.
Proof. vm_compute. reflexivity. Qed.

(** X27. For every controller value [v] from 0 to 65535, [apiToFader(v)]
    is the level [-72 + 84 v / 65535] rounded to the nearest tenth of a
    decibel (upward on a tie), with no error from the floating-point
    arithmetic; and converting it back gives a controller value at most 39
    away from [v]: [Math.abs(faderToAPI(apiToFader(v)) - v) <= 39]. *)
Theorem apiToFader_exact (v : Z) :
  0 <= v <= 65535 ->
  helpers.same (helpers.apiToFader (helpers.ofZ v))
               (helpers.tenth (helpers.nearest (840 * v - 720 * 65535) 65535)) = true /\
  helpers.within (helpers.ofZ 39)
    (helpers.faderToAPI (helpers.apiToFader (helpers.ofZ v)) None) (helpers.ofZ v) = true.
Proof.
  intros Hv. apply andb_prop.
  apply (allRange_spec _ _ _ controller_values_checked v). lia.
Qed.

Lemma apiToFader_exact_witness :
  helpers.same (helpers.apiToFader (helpers.ofZ 19500))
               (helpers.tenth (helpers.nearest (840 * 19500 - 720 * 65535) 65535)) = true /\
  helpers.within (helpers.ofZ 39)
    (helpers.faderToAPI (helpers.apiToFader (helpers.ofZ 19500)) None) (helpers.ofZ 19500) = true.
Proof. apply (apiToFader_exact 19500). lia. Defined.

Lemma percentages_checked :
  helpers.allRange
    (fun p => helpers.same (helpers.pctToAPI (helpers.ofZ p))
                           (helpers.ofZ (helpers.nearest (65535 * p) 100))) (-100) 201 = true.
Proof. vm_compute. reflexivity. Qed.

(** X28. For every whole percentage [p] from -100 to 100, [pctToAPI(p)]
    is [65535 p / 100] rounded to the nearest integer, upward on a tie for
    the negative percentages as well (so that [pctToAPI(-p)] is not always
    [-pctToAPI(p)]). *)
Theorem pctToAPI_exact (p : Z) :
  -100 <= p <= 100 ->
  helpers.same (helpers.pctToAPI (helpers.ofZ p))
               (helpers.ofZ (helpers.nearest (65535 * p) 100)) = true.
Proof. intros Hp. apply (allRange_spec _ _ _ percentages_checked p). lia. Qed.

Lemma pctToAPI_exact_witness :
  helpers.same (helpers.pctToAPI (helpers.ofZ (-10))) (helpers.ofZ (-6553)) = true /\
  helpers.same (helpers.pctToAPI (helpers.ofZ 10)) (helpers.ofZ 6554) = true.
Proof.
  split.
  - apply (pctToAPI_exact (-10)). lia.
  - reflexivity.
Defined.

Lemma selectors_checked :
  helpers.allRange
    (fun m =>
       helpers.allRange
         (fun s =>
            (m <? s) ||
            helpers.same
              (helpers.apiToSelector (helpers.selectorToAPI (helpers.ofZ s) (helpers.ofZ m))
                 (helpers.ofZ m))
              (helpers.ofZ s)) 1 128) 2 127 = true.
Proof. vm_compute. reflexivity. Qed.

(** X29. The position of a selector survives the conversion to the
    controller value and back: for a selector of [max] positions, [max]
    from 2 to 128, and every position [s] from 1 to [max],
    [apiToSelector(selectorToAPI(s, max), max) === s]. *)
Theorem selector_round_trip (max s : Z) :
  2 <= max <= 128 ->
  1 <= s <= max ->
  helpers.same
    (helpers.apiToSelector (helpers.selectorToAPI (helpers.ofZ s) (helpers.ofZ max))
       (helpers.ofZ max))
    (helpers.ofZ s) = true.
Proof.
  intros Hm Hs.
  pose proof (allRange_spec _ _ _ selectors_checked max ltac:(lia)) as H.
  cbv beta in H.
  pose proof (allRange_spec _ _ _ H s ltac:(lia)) as H'.
  cbv beta in H'. apply orb_prop in H' as [H'|H']; [|done].
  apply Z.ltb_lt in H'. lia.
Qed.

Lemma selector_round_trip_witness :
  helpers.same
    (helpers.apiToSelector (helpers.selectorToAPI (helpers.ofZ 3) (helpers.ofZ 7))
       (helpers.ofZ 7))
    (helpers.ofZ 3) = true.
Proof. apply (selector_round_trip 7 3); lia. Defined.
